(** * monte: connection engine and server admission, embedded in Rocq

    The development follows the two Go source files of the repository:
    [conn.go] (type [Conn]: write queue, writer and reader loops, sequence
    numbers) and the server file (type [Server]: accept loop, admission
    semaphore, shutdown).

    Conventions of the embedding:
    - Go [int], [uint32] and [time.Duration] are [Z]; the only arithmetic
      that can wrap in these files is [c.seq++] on a [uint32], and its
      wrap-around is written out;
    - a [*pendingWrite] is an address into an explicit heap, because the
      carriers are recycled through a [sync.Pool];
    - a critical section under [c.mu] is one atomic transition; goroutines
      interleave at the granularity of those transitions. *)

From stdpp Require Import base numbers list strings.
From Stdlib Require Import ZArith Lia.

Open Scope Z_scope.

(** ** Go runtime vocabulary shared by both files *)

Module Go.

(** [time.Duration] counts nanoseconds. *)
Definition Duration := Z.
Definition Millisecond : Duration := 1000000.
Definition Second : Duration := 1000 * Millisecond.

(** An [error] value; [nil] is [None] at the use sites. *)
Inductive error : Type :=
| errors_New (msg : string)
| io_error (code : nat).

(** An interface value such as a [Handler] or a [Handshaker]: the code only
    compares it with [nil], so a non-nil value is an opaque token. *)
Definition iface := option nat.

Definition uint32_wrap (x : Z) : Z := x mod 2 ^ 32.

End Go.

(** ** conn.go *)

Module Conn.
Import Go.

(** A [*pendingWrite]. *)
Abbreviation ptr := nat.

(** [type pendingWrite struct { buf []byte; wait bool; wg sync.WaitGroup }];
    the wait group is its counter. *)
Record pendingWrite : Type := mkPendingWrite {
  buf : list Byte.byte;
  wait : bool;
  wg : Z
}.

(** [type Conn struct]. The mutex, the [sync.Once] and the request map (which
    this file only allocates) carry no data the functions below read. The
    condition variable is represented by the writer's parked flag, kept with
    the goroutine states further down. *)
Record Conn : Type := mkConn {
  Handler : iface;
  Handshaker : iface;
  MaxConns : Z;
  ReadBufferSize : Z;
  WriteBufferSize : Z;
  ReadTimeout : Duration;
  WriteTimeout : Duration;
  writerQueue : list ptr;
  writerDone : bool;
  seq : Z
}.

Definition set_queue (q : list ptr) (c : Conn) : Conn :=
  mkConn (Handler c) (Handshaker c) (MaxConns c) (ReadBufferSize c)
         (WriteBufferSize c) (ReadTimeout c) (WriteTimeout c)
         q (writerDone c) (seq c).

Definition set_done (d : bool) (c : Conn) : Conn :=
  mkConn (Handler c) (Handshaker c) (MaxConns c) (ReadBufferSize c)
         (WriteBufferSize c) (ReadTimeout c) (WriteTimeout c)
         (writerQueue c) d (seq c).

Definition set_seq (s : Z) (c : Conn) : Conn :=
  mkConn (Handler c) (Handshaker c) (MaxConns c) (ReadBufferSize c)
         (WriteBufferSize c) (ReadTimeout c) (WriteTimeout c)
         (writerQueue c) (writerDone c) s.

(** The package-level defaults these getters fall back to are declared in a
    file of the package that is not part of the sources at hand; they are
    parameters of the getters. *)
Section Defaults.
Variables (DefaultHandler DefaultClientHandshaker : nat).
Variables (DefaultMaxClientConns DefaultReadBufferSize
           DefaultWriteBufferSize : Z).
Variables (DefaultReadTimeout DefaultWriteTimeout : Duration).

Definition getHandler (c : Conn) : nat :=
  match Handler c with
  | None => DefaultHandler
  | Some h => h
  end.

Definition getHandshaker (c : Conn) : nat :=
  match Handshaker c with
  | None => DefaultClientHandshaker
  | Some h => h
  end.

Definition getMaxConns (c : Conn) : Z :=
  if MaxConns c <=? 0 then DefaultMaxClientConns else MaxConns c.

Definition getReadBufferSize (c : Conn) : Z :=
  if ReadBufferSize c <=? 0 then DefaultReadBufferSize
  else ReadBufferSize c.

Definition getWriteBufferSize (c : Conn) : Z :=
  if WriteBufferSize c <=? 0 then DefaultWriteBufferSize
  else WriteBufferSize c.

Definition getReadTimeout (c : Conn) : Duration :=
  if ReadTimeout c <=? 0 then DefaultReadTimeout else ReadTimeout c.

Definition getWriteTimeout (c : Conn) : Duration :=
  if WriteTimeout c <=? 0 then DefaultWriteTimeout else WriteTimeout c.
End Defaults.

(** [func (c *Conn) next() uint32]: the whole body runs under [c.mu]. *)
Definition next (c : Conn) : Z * Conn :=
  let s1 := uint32_wrap (seq c + 1) in
  let s2 := if s1 =? 0 then 1 else s1 in
  (s2, set_seq s2 c).

(** [n] consecutive calls of [next], oldest result first. *)
Fixpoint issue (n : nat) (c : Conn) : list Z :=
  match n with
  | O => []
  | S k => let '(v, c') := next c in v :: issue k c'
  end.


(** *** The connection engine: shared state and goroutines *)

(** Calls made on the [BufferedConn] handed to [Handle], oldest first. *)
Inductive stream_call : Type :=
| CallWrite (b : list Byte.byte)
| CallFlush
| CallClose.

(** Where the goroutine running [writeLoop] stands. [WParked] is inside
    [c.writerCond.Wait()]; [WRange q err] is inside the [for range] over the
    swapped-out queue, [q] still to visit; [WReturn err] has returned [err]
    and is sending it on the [writerDone] channel of [Handle]; [WExited err]
    has had it received. *)
Inductive writer_state : Type :=
| WLock
| WParked
| WRange (q : list ptr) (err : option error)
| WReturn (err : option error)
| WExited (err : option error).

(** The goroutine running [readLoop]: it shares nothing with the rest but its
    result; the loop itself is [readLoop] below. *)
Inductive reader_state : Type :=
| RLoop
| RReturn (err : error)
| RExited.

(** Where [Handle] stands: in its [select], in one of the three branches
    waiting for the other loop(s), before [clearPendingWrites], returned. *)
Inductive handle_state : Type :=
| HSelect
| HDoneWaitWriter
| HDoneWaitReader
| HWriterWaitReader (err : option error)
| HReaderWaitWriter (err : option error)
| HClear (err : option error)
| HReturned (err : option error).

Record World : Type := mkWorld {
  conn : Conn;
  (** the [pendingWrite] objects ever allocated, by address *)
  heap : list pendingWrite;
  (** [var pendingWritePool sync.Pool] *)
  pendingWritePool : list ptr;
  stream : list stream_call;
  writer : writer_state;
  reader : reader_state;
  handler : handle_state;
  (** callers of [Write] inside [pw.wg.Wait()], by carrier *)
  blocked : list ptr;
  (** history: buffers accepted into the queue, oldest first *)
  accepted : list (list Byte.byte);
  (** history: what [Write] and [WriteNoWait] calls returned, oldest first,
      with the carrier of the call when it got one *)
  returns : list (option ptr * option error)
}.

Definition with_conn (f : Conn -> Conn) (w : World) : World :=
  mkWorld (f (conn w)) (heap w) (pendingWritePool w) (stream w) (writer w)
          (reader w) (handler w) (blocked w) (accepted w) (returns w).
Definition with_heap (f : list pendingWrite -> list pendingWrite)
    (w : World) : World :=
  mkWorld (conn w) (f (heap w)) (pendingWritePool w) (stream w) (writer w)
          (reader w) (handler w) (blocked w) (accepted w) (returns w).
Definition with_pool (f : list ptr -> list ptr) (w : World) : World :=
  mkWorld (conn w) (heap w) (f (pendingWritePool w)) (stream w) (writer w)
          (reader w) (handler w) (blocked w) (accepted w) (returns w).
Definition with_stream (f : list stream_call -> list stream_call)
    (w : World) : World :=
  mkWorld (conn w) (heap w) (pendingWritePool w) (f (stream w)) (writer w)
          (reader w) (handler w) (blocked w) (accepted w) (returns w).
Definition set_writer (x : writer_state) (w : World) : World :=
  mkWorld (conn w) (heap w) (pendingWritePool w) (stream w) x
          (reader w) (handler w) (blocked w) (accepted w) (returns w).
Definition set_reader (x : reader_state) (w : World) : World :=
  mkWorld (conn w) (heap w) (pendingWritePool w) (stream w) (writer w)
          x (handler w) (blocked w) (accepted w) (returns w).
Definition set_handler (x : handle_state) (w : World) : World :=
  mkWorld (conn w) (heap w) (pendingWritePool w) (stream w) (writer w)
          (reader w) x (blocked w) (accepted w) (returns w).
Definition with_blocked (f : list ptr -> list ptr) (w : World) : World :=
  mkWorld (conn w) (heap w) (pendingWritePool w) (stream w) (writer w)
          (reader w) (handler w) (f (blocked w)) (accepted w) (returns w).
Definition with_accepted
    (f : list (list Byte.byte) -> list (list Byte.byte)) (w : World)
    : World :=
  mkWorld (conn w) (heap w) (pendingWritePool w) (stream w) (writer w)
          (reader w) (handler w) (blocked w) (f (accepted w)) (returns w).
Definition with_returns
    (f : list (option ptr * option error)
         -> list (option ptr * option error)) (w : World) : World :=
  mkWorld (conn w) (heap w) (pendingWritePool w) (stream w) (writer w)
          (reader w) (handler w) (blocked w) (accepted w) (f (returns w)).

(** The zero value [pendingWrite{}]. *)
Definition zero_pendingWrite : pendingWrite := mkPendingWrite [] false 0.

(** [*p]. Addresses only come from allocation and the heap never shrinks,
    so the default is never read on a reachable state. *)
Definition deref (w : World) (p : ptr) : pendingWrite :=
  default zero_pendingWrite (heap w !! p).

(** [sync.WaitGroup]: [Add] and [Done] move the counter. Go panics when the
    counter would go negative; here it is left to go negative and shown not
    to on reachable states (field [inv_wg] of the invariant). *)
Definition wg_Add (p : ptr) (delta : Z) (w : World) : World :=
  with_heap (alter (fun pw => mkPendingWrite (buf pw) (wait pw)
                                             (wg pw + delta)) p) w.
Definition wg_Done (p : ptr) (w : World) : World := wg_Add p (-1) w.

(** [c.writerCond.Signal()]: wakes the goroutine inside [Wait], if any; the
    writer is the only goroutine that waits on this condition. Once woken it
    re-acquires the lock and re-evaluates the loop condition, which is where
    [WLock] stands. *)
Definition cond_Signal (w : World) : World :=
  match writer w with
  | WParked => set_writer WLock w
  | _ => w
  end.

(** [pendingWritePool.Get()]: [sync.Pool] hands out any pooled item or none
    at all; [g] is that choice, an index into the pool. *)
Definition pool_Get (g : option nat) (w : World) : option ptr * World :=
  match g with
  | None => (None, w)
  | Some i =>
      match pendingWritePool w !! i with
      | None => (None, w)
      | Some p => (Some p, with_pool (delete i) w)
      end
  end.

(** [func acquirePendingWrite(buf []byte, wait bool) *pendingWrite] *)
Definition acquirePendingWrite (g : option nat) (b : list Byte.byte)
    (wt : bool) (w : World) : ptr * World :=
  let '(v, w1) := pool_Get g w in
  let '(wi, w2) :=
    match v with
    | None =>
        (length (heap w1),
         with_heap (fun h => h ++ [zero_pendingWrite]) w1)
    | Some p => (p, w1)
    end in
  (wi, with_heap (alter (fun pw => mkPendingWrite b wt (wg pw)) wi) w2).

(** [func releasePendingWrite(wi *pendingWrite)] *)
Definition releasePendingWrite (wi : ptr) (w : World) : World :=
  with_pool (fun l => wi :: l) w.

Definition ErrShutdown : error := errors_New "node is shut down"%string.

(** [func (c *Conn) preparePendingWrite(buf []byte, wait bool)], which
    returns a carrier or an error; the body is one critical section. *)
Definition preparePendingWrite (g : option nat) (b : list Byte.byte)
    (wt : bool) (w : World) : (ptr + error) * World :=
  if writerDone (conn w) then (inr ErrShutdown, w)
  else
    let '(pw, w1) := acquirePendingWrite g b wt w in
    let w2 := if wt then wg_Add pw 1 w1 else w1 in
    let w3 := with_conn (fun c => set_queue (writerQueue c ++ [pw]) c) w2 in
    let w4 := cond_Signal w3 in
    (inl pw, w4).

(** [func (c *Conn) Write(buf []byte) error], up to [pw.wg.Wait()]: either
    it returns the error of [preparePendingWrite], or the caller blocks. *)
Definition Write_enter (g : option nat) (b : list Byte.byte) (w : World)
    : World :=
  let '(r, w1) := preparePendingWrite g b true w in
  match r with
  | inr err => with_returns (fun l => l ++ [(None, Some err)]) w1
  | inl pw => with_blocked (fun l => l ++ [pw])
                (with_accepted (fun l => l ++ [b]) w1)
  end.

Fixpoint remove_first (p : ptr) (l : list ptr) : list ptr :=
  match l with
  | [] => []
  | x :: l' => if decide (x = p) then l' else x :: remove_first p l'
  end.

(** [Write] from [pw.wg.Wait()] on: [Wait] returns once the counter is zero,
    the deferred [releasePendingWrite(pw)] runs and the call returns [nil]. *)
Definition Write_leave (pw : ptr) (w : World) : option World :=
  if bool_decide (pw ∈ blocked w) && (wg (deref w pw) =? 0) then
    let w1 := releasePendingWrite pw w in
    Some (with_returns (fun l => l ++ [(Some pw, None)])
            (with_blocked (remove_first pw) w1))
  else None.

(** [func (c *Conn) WriteNoWait(buf []byte) error] *)
Definition WriteNoWait (g : option nat) (b : list Byte.byte) (w : World)
    : World :=
  let '(r, w1) := preparePendingWrite g b false w in
  match r with
  | inr err => with_returns (fun l => l ++ [(None, Some err)]) w1
  | inl pw => with_returns (fun l => l ++ [(Some pw, None)])
                (with_accepted (fun l => l ++ [b]) w1)
  end.

(** [writeLoop], from [c.mu.Lock()] to [c.mu.Unlock()] and the test that
    follows: park in [Wait] while there is nothing to do; otherwise swap the
    queue out, and either leave the loop or start ranging over it. *)
Definition writeLoop_lock (w : World) : World :=
  if negb (writerDone (conn w)) && bool_decide (writerQueue (conn w) = [])
  then set_writer WParked w
  else
    let done := writerDone (conn w) in
    let queue := writerQueue (conn w) in
    let w1 := with_conn (set_queue []) w in
    if done && bool_decide (queue = []) then set_writer (WReturn None) w1
    else set_writer (WRange queue None) w1.

(** One iteration of [for _, pw := range queue]; [res] is the error the
    stream's [Write] returns if it is called. *)
Definition writeLoop_body (res : option error) (pw : ptr)
    (err : option error) (w : World) : option error * World :=
  let '(err1, w1) :=
    match err with
    | None =>
        (res, with_stream (fun l => l ++ [CallWrite (buf (deref w pw))]) w)
    | Some _ => (err, w)
    end in
  let w2 := if wait (deref w1 pw) then wg_Done pw w1
            else releasePendingWrite pw w1 in
  (err1, w2).

(** After the [for range]: leave on an error, else [conn.Flush()], whose
    result is [res], and leave on its error or loop. *)
Definition writeLoop_flush (res : option error) (err : option error)
    (w : World) : World :=
  match err with
  | Some _ => set_writer (WReturn err) w
  | None =>
      let w1 := with_stream (fun l => l ++ [CallFlush]) w in
      match res with
      | Some _ => set_writer (WReturn res) w1
      | None => set_writer WLock w1
      end
  end.

(** [func (c *Conn) clearPendingWrites()] *)
Definition clearPendingWrites (w : World) : World :=
  foldl (fun w' pw => if wait (deref w' pw) then wg_Done pw w'
                      else releasePendingWrite pw w')
        w (writerQueue (conn w)).

(** The critical section that two branches of [Handle] share:
    [c.writerDone = true; c.writerCond.Signal()]. *)
Definition Handle_stop_writer (w : World) : World :=
  cond_Signal (with_conn (set_done true) w).

Definition conn_Close (w : World) : World :=
  with_stream (fun l => l ++ [CallClose]) w.

(** [Handle] receiving from [writerDone], in each place where it does. *)
Definition Handle_recv_writer (w : World) : option World :=
  match writer w with
  | WReturn e =>
      let w1 := set_writer (WExited e) w in
      match handler w with
      | HSelect =>
          Some (set_handler (HWriterWaitReader e) (conn_Close w1))
      | HDoneWaitWriter =>
          Some (set_handler HDoneWaitReader (conn_Close w1))
      | HReaderWaitWriter err =>
          Some (set_handler (HClear err) (conn_Close w1))
      | _ => None
      end
  | _ => None
  end.

(** [Handle] receiving from [readerDone], in each place where it does. *)
Definition Handle_recv_reader (w : World) : option World :=
  match reader w with
  | RReturn e =>
      let w1 := set_reader RExited w in
      match handler w with
      | HSelect =>
          Some (set_handler (HReaderWaitWriter (Some e))
                  (Handle_stop_writer w1))
      | HDoneWaitReader => Some (set_handler (HClear None) w1)
      | HWriterWaitReader err => Some (set_handler (HClear err) w1)
      | _ => None
      end
  | _ => None
  end.

(** What can happen next, one atomic piece of one goroutine at a time. The
    arguments are what the environment decides: the pool's choice, the
    buffer a caller passes, the result of a stream call. *)
Inductive action : Type :=
| AWrite (g : option nat) (b : list Byte.byte)
| AWriteNoWait (g : option nat) (b : list Byte.byte)
| AWriteReturn (pw : ptr)
| AWriterLock
| AWriterRange (res : option error)
| AWriterFlush (res : option error)
| AReaderRead (res : option error)
| AHandleDone
| AHandleRecvWriter
| AHandleRecvReader
| AHandleClear.

Definition exec (a : action) (w : World) : option World :=
  match a with
  | AWrite g b => Some (Write_enter g b w)
  | AWriteNoWait g b => Some (WriteNoWait g b w)
  | AWriteReturn pw => Write_leave pw w
  | AWriterLock =>
      match writer w with
      | WLock => Some (writeLoop_lock w)
      | _ => None
      end
  | AWriterRange res =>
      match writer w with
      | WRange (pw :: q) err =>
          let '(err1, w1) := writeLoop_body res pw err w in
          Some (set_writer (WRange q err1) w1)
      | _ => None
      end
  | AWriterFlush res =>
      match writer w with
      | WRange [] err => Some (writeLoop_flush res err w)
      | _ => None
      end
  | AReaderRead res =>
      match reader w with
      | RLoop =>
          match res with
          | None => Some w
          | Some e => Some (set_reader (RReturn e) w)
          end
      | _ => None
      end
  | AHandleDone =>
      match handler w with
      | HSelect => Some (set_handler HDoneWaitWriter (Handle_stop_writer w))
      | _ => None
      end
  | AHandleRecvWriter => Handle_recv_writer w
  | AHandleRecvReader => Handle_recv_reader w
  | AHandleClear =>
      match handler w with
      | HClear err => Some (set_handler (HReturned err) (clearPendingWrites w))
      | _ => None
      end
  end.

Fixpoint run (tr : list action) (w : World) : option World :=
  match tr with
  | [] => Some w
  | a :: tr' =>
      match exec a w with
      | None => None
      | Some w' => run tr' w'
      end
  end.

(** [Handle] has just started both loops on a connection whose queue is
    empty and whose [writerDone] is unset, the zero value of the fields. *)
Definition start (c : Conn) : World :=
  mkWorld (set_done false (set_queue [] c)) [] [] [] WLock RLoop HSelect
          [] [] [].

Inductive reachable (c : Conn) : World -> Prop :=
| reach_start : reachable c (start c)
| reach_step w a w' :
    reachable c w -> exec a w = Some w' -> reachable c w'.

(** The buffers handed to the stream's [Write], oldest first. *)
Fixpoint writes (l : list stream_call) : list (list Byte.byte) :=
  match l with
  | [] => []
  | CallWrite b :: l' => b :: writes l'
  | _ :: l' => writes l'
  end.

(** *** The read loop *)

(** A [[]byte] as far as [readLoop] looks at it: its length and capacity. *)
Record slice : Type := mkSlice { slice_len : Z; slice_cap : Z }.

(** [buf[:n]], which panics unless [0 <= n <= cap(buf)]. *)
Definition reslice (b : slice) (n : Z) : option slice :=
  if (0 <=? n) && (n <=? slice_cap b) then Some (mkSlice n (slice_cap b))
  else None.

(** How a run of [readLoop] against a finite script of [Read] results ends:
    inside the [Read] that follows the script, by returning the error of a
    [Read], or in the panic of an out-of-range re-slice. *)
Inductive read_end : Type :=
| InRead
| ReadReturn (err : error)
| ReadPanic.

(** The [for] loop of [readLoop]: [reads] scripts what the successive calls of
    [conn.Read(buf)] return; the result lists the length of the buffer passed
    to each call, oldest first. *)
Fixpoint readLoop_from (reads : list (Z * option error)) (b : slice)
    : list Z * read_end :=
  match reads with
  | [] => ([slice_len b], InRead)
  | (n, Some err) :: _ => ([slice_len b], ReadReturn err)
  | (n, None) :: reads' =>
      match reslice b n with
      | None => ([slice_len b], ReadPanic)
      | Some b' =>
          let '(lens, e) := readLoop_from reads' b' in
          (slice_len b :: lens, e)
      end
  end.

Section ReadLoop.
Variable DefaultReadBufferSize : Z.

(** [func (c *Conn) readLoop(conn BufferedConn) error], from the buffer
    [make] returned on: a size [make] refuses (negative, or beyond what the
    runtime allocates) panics before the loop and gives no run. *)
Definition readLoop (c : Conn) (reads : list (Z * option error))
    : list Z * read_end :=
  let size := getReadBufferSize DefaultReadBufferSize c in
  readLoop_from reads (mkSlice size size).
End ReadLoop.

(** The contract of [io.Reader] for a run: each [Read] returns a count between
    0 and the length of the buffer it was given. *)
Definition io_Reader_contract (reads : list (Z * option error))
    (lens : list Z) : Prop :=
  forall k n e l,
    reads !! k = Some (n, e) -> lens !! k = Some l -> 0 <= n <= l.

(** The carriers the writer has swapped out and not visited yet, then the
    whole of what is queued or swapped out, oldest first. *)
Definition pending (w : World) : list ptr :=
  match writer w with
  | WRange q _ => q
  | _ => []
  end.

Definition owned (w : World) : list ptr := pending w ++ writerQueue (conn w).

(** The value of [err] in [writeLoop]. *)
Definition writer_err (w : World) : option error :=
  match writer w with
  | WRange _ e | WReturn e | WExited e => e
  | _ => None
  end.

Definition returned (w : World) : bool :=
  match handler w with
  | HReturned _ => true
  | _ => false
  end.

End Conn.


(** ** The server file *)

Module Server.
Import Go.

Definition DefaultMaxServerConns : Z := 1024.
Definition DefaultHandshakeTimeout : Duration := 3 * Second.
Definition DefaultMaxConnWaitTimeout : Duration := 3 * Second.

(** [type Server struct]. [sem] is a buffered channel of empty structs: what
    matters of it is its capacity and how many elements it holds; [done] is a
    channel that is only ever closed: what matters is whether it has been.
    Both are nil until [init] has run, which every entry point runs first. *)
Record Server : Type := mkServer {
  Handler : iface;
  Handshaker : iface;
  MaxConns : Z;
  HandshakeTimeout : Duration;
  MaxConnWaitTimeout : Duration;
  once : bool;
  wg : Z;
  sem_len : Z;
  sem_cap : Z;
  done_closed : bool
}.

Definition set_once (x : bool) (s : Server) : Server :=
  mkServer (Handler s) (Handshaker s) (MaxConns s) (HandshakeTimeout s)
           (MaxConnWaitTimeout s) x (wg s) (sem_len s) (sem_cap s)
           (done_closed s).
Definition set_wg (x : Z) (s : Server) : Server :=
  mkServer (Handler s) (Handshaker s) (MaxConns s) (HandshakeTimeout s)
           (MaxConnWaitTimeout s) (once s) x (sem_len s) (sem_cap s)
           (done_closed s).
Definition set_sem_len (x : Z) (s : Server) : Server :=
  mkServer (Handler s) (Handshaker s) (MaxConns s) (HandshakeTimeout s)
           (MaxConnWaitTimeout s) (once s) (wg s) x (sem_cap s)
           (done_closed s).
Definition set_sem_cap (x : Z) (s : Server) : Server :=
  mkServer (Handler s) (Handshaker s) (MaxConns s) (HandshakeTimeout s)
           (MaxConnWaitTimeout s) (once s) (wg s) (sem_len s) x
           (done_closed s).
Definition set_done_closed (x : bool) (s : Server) : Server :=
  mkServer (Handler s) (Handshaker s) (MaxConns s) (HandshakeTimeout s)
           (MaxConnWaitTimeout s) (once s) (wg s) (sem_len s) (sem_cap s) x.

(** [DefaultHandler] and [DefaultServerHandshaker] are declared in files of the
    package that are not part of the sources at hand. *)
Section Defaults.
Variables (DefaultHandler DefaultServerHandshaker : nat).

Definition getHandler (s : Server) : nat :=
  match Handler s with
  | None => DefaultHandler
  | Some h => h
  end.

Definition getHandshaker (s : Server) : nat :=
  match Handshaker s with
  | None => DefaultServerHandshaker
  | Some h => h
  end.
End Defaults.

Definition getMaxConns (s : Server) : Z :=
  if MaxConns s <=? 0 then DefaultMaxServerConns else MaxConns s.

Definition getHandshakeTimeout (s : Server) : Duration :=
  if HandshakeTimeout s <? 0 then DefaultHandshakeTimeout
  else HandshakeTimeout s.

Definition getMaxConnWaitTimeout (s : Server) : Duration :=
  if MaxConnWaitTimeout s <=? 0 then DefaultMaxConnWaitTimeout
  else MaxConnWaitTimeout s.

(** [func (s *Server) init()] *)
Definition init (s : Server) : Server :=
  set_done_closed false (set_sem_len 0 (set_sem_cap (getMaxConns s) s)).

(** [s.once.Do(s.init)] *)
Definition once_Do_init (s : Server) : Server :=
  if once s then s else set_once true (init s).

(** Whether a send on [s.sem] can proceed, and the send. *)
Definition sem_ready (s : Server) : bool := sem_len s <? sem_cap s.
Definition sem_send (s : Server) : Server := set_sem_len (sem_len s + 1) s.

(** The three ways out of a [select] on a timer, [s.done] and a send on
    [s.sem]; when several are ready Go picks one of them at random. *)
Inductive select_case : Type :=
| CaseTimer
| CaseDone
| CaseSem.

(** The first [select] of [serverAvailable], which has a [default]: [pick] is
    the runtime's choice when both channels are ready. The result is [None]
    when the [default] branch is taken. *)
Definition serverAvailable_try (pick : select_case) (s : Server)
    : option (bool * Server) :=
  match done_closed s, sem_ready s with
  | true, true =>
      match pick with
      | CaseSem => Some (true, sem_send s)
      | _ => Some (false, s)
      end
  | true, false => Some (false, s)
  | false, true => Some (true, sem_send s)
  | false, false => None
  end.

(** The second [select] of [serverAvailable], entered with a timer armed at
    [getMaxConnWaitTimeout]: the case [ev] fires, if it can. [None] when it
    cannot (the goroutine stays blocked). *)
Definition serverAvailable_wait (ev : select_case) (s : Server)
    : option (bool * Server) :=
  match ev with
  | CaseTimer => Some (false, s)
  | CaseDone => if done_closed s then Some (false, s) else None
  | CaseSem => if sem_ready s then Some (true, sem_send s) else None
  end.

(** [func (s *Server) wait(duration time.Duration) bool], with the case that
    fires. *)
Definition wait (ev : select_case) (s : Server) : option bool :=
  match ev with
  | CaseTimer => Some true
  | CaseDone => if done_closed s then Some false else None
  | CaseSem => None
  end.

(** What [client] does with the raw stream and the handshaker's result. *)
Inductive client_call : Type :=
| SetDeadline (timeout : option Duration)
| Handshake
| Handle.

(** What the calls [client] makes return. *)
Record client_env : Type := mkClientEnv {
  arm_err : option error;
  handshake_err : option error;
  disarm_err : option error;
  handle_err : option error
}.

(** The body of [client], without the deferred receive. [SetDeadline (Some d)]
    stands for [conn.SetDeadline(time.Now().Add(d))], [SetDeadline None] for
    [conn.SetDeadline(zeroTime)]. *)
Definition client_body (s : Server) (env : client_env)
    : list client_call * option error :=
  let timeout := getHandshakeTimeout s in
  let arm := if timeout =? 0 then [] else [SetDeadline (Some timeout)] in
  match (if timeout =? 0 then None else arm_err env) with
  | Some err => (arm, Some err)
  | None =>
      match handshake_err env with
      | Some err => (arm ++ [Handshake], Some err)
      | None =>
          let disarm := if timeout =? 0 then [] else [SetDeadline None] in
          match (if timeout =? 0 then None else disarm_err env) with
          | Some err => (arm ++ [Handshake] ++ disarm, Some err)
          | None => (arm ++ [Handshake] ++ disarm ++ [Handle], handle_err env)
          end
      end
  end.

(** A receive on [s.sem]: it takes an element when the channel holds one;
    on an empty channel (or a nil one, before [init]) it blocks, and nothing
    in the server ever sends without receiving: [None]. *)
Definition sem_recv (s : Server) : option Server :=
  if 0 <? sem_len s then Some (set_sem_len (sem_len s - 1) s) else None.

(** [func (s *Server) client(conn net.Conn) error]: the body, then the
    deferred [<-s.sem]; [None] when the call never returns because the
    deferred receive blocks. *)
Definition client (s : Server) (env : client_env)
    : option (Server * list client_call * option error) :=
  let '(calls, err) := client_body s env in
  match sem_recv s with
  | Some s' => Some (s', calls, err)
  | None => None
  end.

(** What [Serve] looks at in the error [ln.Accept()] returned: whether
    [errors.Is(err, io.EOF)], and, when [errors.As] finds a [*net.OpError],
    the text of its [Err] and its [Temporary()]. *)
Record accept_error : Type := mkAcceptError {
  the_error : error;
  is_EOF : bool;
  as_OpError : option (string * bool)
}.

(** What [Serve] does on an error of [ln.Accept()]: return [nil], return the
    error, or wait before accepting again. *)
Inductive accept_verdict : Type :=
| ReturnNil
| ReturnErr (err : error)
| Backoff (d : Duration).

Definition Serve_on_accept_error (e : accept_error) : accept_verdict :=
  if is_EOF e then ReturnNil
  else match as_OpError e with
       | None => ReturnErr (the_error e)
       | Some (msg, temporary) =>
           if String.eqb msg "use of closed network connection" then ReturnNil
           else if negb temporary then ReturnErr (the_error e)
           else Backoff (100 * Millisecond)
       end.

(** The two conditions [Serve] takes for the end of the listener, and the
    one it retries on. *)
Definition benign (e : accept_error) : bool :=
  is_EOF e
  || match as_OpError e with
     | Some (msg, _) => String.eqb msg "use of closed network connection"
     | None => false
     end.

Definition temporary (e : accept_error) : bool :=
  match as_OpError e with
  | Some (_, t) => t
  | None => false
  end.

(** *** The goroutines of a server *)

(** Where the goroutine in [Serve] stands. *)
Inductive serve_state : Type :=
| SNotStarted
| SAccept
| SSelect (conn : nat)
| SWaitSlot (conn : nat) (timer : Duration)
| SSpawn (conn : nat)
| SBackoff (d : Duration)
| SReturned (err : option error).

(** A goroutine started by [Serve] for a connection: inside [s.client(conn)],
    or past it, before [conn.Close()] and the deferred [s.wg.Done()]. *)
Inductive task_state : Type :=
| TClient
| TClosing.

#[global] Instance task_state_eq_dec : EqDecision task_state.
Proof. solve_decision. Defined.

Record World : Type := mkWorld {
  srv : Server;
  serve : serve_state;
  tasks : list (nat * task_state);
  next_conn : nat;
  (** raw streams closed, connections handed to [client], connections turned
      away by [serverAvailable] *)
  closed : list nat;
  handled : list nat;
  rejected : list nat;
  (** callers of [Shutdown] inside [s.wg.Wait()], and how many calls have
      returned *)
  shutdown_waiting : nat;
  shutdown_returned : nat;
  panic : option string
}.

Definition with_srv (f : Server -> Server) (w : World) : World :=
  mkWorld (f (srv w)) (serve w) (tasks w) (next_conn w) (closed w)
          (handled w) (rejected w) (shutdown_waiting w) (shutdown_returned w)
          (panic w).
Definition set_serve (x : serve_state) (w : World) : World :=
  mkWorld (srv w) x (tasks w) (next_conn w) (closed w)
          (handled w) (rejected w) (shutdown_waiting w) (shutdown_returned w)
          (panic w).
Definition with_tasks
    (f : list (nat * task_state) -> list (nat * task_state)) (w : World)
    : World :=
  mkWorld (srv w) (serve w) (f (tasks w)) (next_conn w) (closed w)
          (handled w) (rejected w) (shutdown_waiting w) (shutdown_returned w)
          (panic w).
Definition set_next_conn (x : nat) (w : World) : World :=
  mkWorld (srv w) (serve w) (tasks w) x (closed w)
          (handled w) (rejected w) (shutdown_waiting w) (shutdown_returned w)
          (panic w).
Definition with_closed (f : list nat -> list nat) (w : World) : World :=
  mkWorld (srv w) (serve w) (tasks w) (next_conn w) (f (closed w))
          (handled w) (rejected w) (shutdown_waiting w) (shutdown_returned w)
          (panic w).
Definition with_handled (f : list nat -> list nat) (w : World) : World :=
  mkWorld (srv w) (serve w) (tasks w) (next_conn w) (closed w)
          (f (handled w)) (rejected w) (shutdown_waiting w)
          (shutdown_returned w) (panic w).
Definition with_rejected (f : list nat -> list nat) (w : World) : World :=
  mkWorld (srv w) (serve w) (tasks w) (next_conn w) (closed w)
          (handled w) (f (rejected w)) (shutdown_waiting w)
          (shutdown_returned w) (panic w).
Definition set_shutdown (waiting returned : nat) (w : World) : World :=
  mkWorld (srv w) (serve w) (tasks w) (next_conn w) (closed w)
          (handled w) (rejected w) waiting returned (panic w).
Definition set_panic (x : option string) (w : World) : World :=
  mkWorld (srv w) (serve w) (tasks w) (next_conn w) (closed w)
          (handled w) (rejected w) (shutdown_waiting w) (shutdown_returned w)
          x.

(** In [Serve]: [serverAvailable] said no, so [conn.Close(); continue]. *)
Definition Serve_reject (conn : nat) (w : World) : World :=
  set_serve SAccept
    (with_rejected (fun l => conn :: l) (with_closed (fun l => conn :: l) w)).

(** In [Serve], after [serverAvailable] said yes: [s.wg.Add(1)] and the [go]
    statement. *)
Definition Serve_spawn (conn : nat) (w : World) : World :=
  set_serve SAccept
    (with_handled (fun l => conn :: l)
       (with_tasks (fun l => (conn, TClient) :: l)
          (with_srv (fun s => set_wg (wg s + 1) s) w))).

Definition Serve_after_select (conn : nat) (r : bool * Server) (w : World)
    : World :=
  let '(ok, s') := r in
  let w1 := with_srv (fun _ => s') w in
  if ok then set_serve (SSpawn conn) w1 else Serve_reject conn w1.

(** [func (s *Server) Shutdown()] up to [s.wg.Wait()]: closing a closed
    channel panics. *)
Definition Shutdown_enter (w : World) : World :=
  let s := once_Do_init (srv w) in
  if done_closed s
  then set_panic (Some "close of closed channel") (with_srv (fun _ => s) w)
  else set_shutdown (S (shutdown_waiting w)) (shutdown_returned w)
         (with_srv (fun _ => set_done_closed true s) w).

(** The goroutine [old] moves on to be [new], or ends. *)
Fixpoint set_task (old : nat * task_state) (new : option (nat * task_state))
    (l : list (nat * task_state)) : list (nat * task_state) :=
  match l with
  | [] => []
  | x :: l' =>
      if decide (x = old)
      then match new with Some y => y :: l' | None => l' end
      else x :: set_task old new l'
  end.

Definition clients (w : World) : list (nat * task_state) :=
  filter (fun ct => ct.2 = TClient) (tasks w).

(** What can happen next in a server; the arguments are the environment's:
    what [Accept] returns, which case of a [select] fires, what a
    connection's calls return. *)
Inductive action : Type :=
| AServe
| AAccept (err : option accept_error)
| ASelect (pick : select_case)
| AWaitSlot (ev : select_case)
| ASpawn
| ABackoff (ev : select_case)
| AClientReturn (conn : nat) (env : client_env)
| ATaskEnd (conn : nat)
| AShutdown
| AShutdownReturn.

Definition exec (a : action) (w : World) : option World :=
  match panic w with
  | Some _ => None
  | None =>
    match a with
    | AServe =>
        match serve w with
        | SNotStarted => Some (set_serve SAccept (with_srv once_Do_init w))
        | _ => None
        end
    | AAccept None =>
        match serve w with
        | SAccept =>
            Some (set_serve (SSelect (next_conn w))
                    (set_next_conn (S (next_conn w)) w))
        | _ => None
        end
    | AAccept (Some e) =>
        match serve w with
        | SAccept =>
            match Serve_on_accept_error e with
            | ReturnNil => Some (set_serve (SReturned None) w)
            | ReturnErr err => Some (set_serve (SReturned (Some err)) w)
            | Backoff d => Some (set_serve (SBackoff d) w)
            end
        | _ => None
        end
    | ASelect pick =>
        match serve w with
        | SSelect conn =>
            match serverAvailable_try pick (srv w) with
            | Some r => Some (Serve_after_select conn r w)
            | None =>
                Some (set_serve
                        (SWaitSlot conn (getMaxConnWaitTimeout (srv w))) w)
            end
        | _ => None
        end
    | AWaitSlot ev =>
        match serve w with
        | SWaitSlot conn _ =>
            match serverAvailable_wait ev (srv w) with
            | Some r => Some (Serve_after_select conn r w)
            | None => None
            end
        | _ => None
        end
    | ASpawn =>
        match serve w with
        | SSpawn conn => Some (Serve_spawn conn w)
        | _ => None
        end
    | ABackoff ev =>
        match serve w with
        | SBackoff _ =>
            match wait ev (srv w) with
            | Some true => Some (set_serve SAccept w)
            | Some false => Some (set_serve (SReturned None) w)
            | None => None
            end
        | _ => None
        end
    | AClientReturn conn env =>
        if bool_decide ((conn, TClient) ∈ tasks w)
        then
          match client (srv w) env with
          | Some (s', _, _) =>
              Some (with_tasks
                      (set_task (conn, TClient) (Some (conn, TClosing)))
                      (with_srv (fun _ => s') w))
          | None => None
          end
        else None
    | ATaskEnd conn =>
        if bool_decide ((conn, TClosing) ∈ tasks w)
        then Some (with_srv (fun s => set_wg (wg s - 1) s)
                     (with_closed (fun l => conn :: l)
                        (with_tasks (set_task (conn, TClosing) None) w)))
        else None
    | AShutdown => Some (Shutdown_enter w)
    | AShutdownReturn =>
        match shutdown_waiting w with
        | S n =>
            if wg (srv w) =? 0
            then Some (set_shutdown n (S (shutdown_returned w)) w)
            else None
        | O => None
        end
    end
  end.

Fixpoint run (tr : list action) (w : World) : option World :=
  match tr with
  | [] => Some w
  | a :: tr' =>
      match exec a w with
      | None => None
      | Some w' => run tr' w'
      end
  end.

(** A server value as the program builds it: options set, nothing started;
    the runtime fields have their zero values. *)
Definition fresh (s : Server) : Prop :=
  once s = false /\ wg s = 0 /\ sem_len s = 0 /\ sem_cap s = 0
  /\ done_closed s = false.

Definition start (s : Server) : World :=
  mkWorld s SNotStarted [] 0 [] [] [] 0 0 None.

Inductive reachable (s : Server) : World -> Prop :=
| reach_start : reachable s (start s)
| reach_step w a w' :
    reachable s w -> exec a w = Some w' -> reachable s w'.

End Server.

(** * Properties *)

Section SequenceNumbers.
Import Go Conn.

Definition seq_period : Z := 2 ^ 32 - 1.

(** Position of a counter value on the cycle 1, 2, ..., 2^32 - 1: the fresh
    counter 0 sits where 2^32 - 1 does, both are followed by 1. *)
Definition seq_pos (s : Z) : Z := if s =? 0 then seq_period else s.

Lemma next_value (c : Conn) :
  0 <= seq c < 2 ^ 32 ->
  fst (next c) = (seq_pos (seq c)) mod seq_period + 1.
Proof.
  intros Hs. unfold next, uint32_wrap, seq_pos, seq_period. cbn [fst].
  destruct (Z.eqb_spec (seq c) 0) as [E|E].
  - rewrite E. reflexivity.
  - destruct (Z.eq_dec (seq c) (2 ^ 32 - 1)) as [E'|E'].
    + rewrite E'. reflexivity.
    + rewrite (Z.mod_small (seq c + 1)) by lia.
      rewrite (Z.mod_small (seq c)) by lia.
      destruct (Z.eqb_spec (seq c + 1) 0); lia.
Qed.

Lemma next_range (c : Conn) :
  0 <= seq c < 2 ^ 32 -> 1 <= fst (next c) < 2 ^ 32.
Proof.
  intros Hs. rewrite next_value by exact Hs.
  pose proof (Z.mod_pos_bound (seq_pos (seq c)) seq_period) as B.
  unfold seq_period in *. lia.
Qed.

Lemma next_seq (c : Conn) : seq (snd (next c)) = fst (next c).
Proof. reflexivity. Qed.

Lemma issue_lookup (n : nat) : forall (c : Conn) (i : nat) (v : Z),
  0 <= seq c < 2 ^ 32 ->
  issue n c !! i = Some v ->
  v = (seq_pos (seq c) + Z.of_nat i) mod seq_period + 1.
Proof.
  induction n as [|n IH]; intros c i v Hs Hl; [discriminate|].
  cbn [issue] in Hl.
  destruct (next c) as [v1 c1] eqn:En.
  assert (Hv1 : v1 = fst (next c)) by (rewrite En; reflexivity).
  assert (Hc1 : seq c1 = v1).
  { replace c1 with (snd (next c)) by (rewrite En; reflexivity).
    rewrite next_seq. symmetry. exact Hv1. }
  pose proof (next_range c Hs) as Hr. rewrite <- Hv1 in Hr.
  pose proof (next_value c Hs) as Hnv. rewrite <- Hv1 in Hnv.
  destruct i as [|i]; cbn in Hl.
  - inversion Hl; subst v. rewrite Z.add_0_r. exact Hnv.
  - apply IH in Hl; [|rewrite Hc1; lia].
    rewrite Hl, Hc1. f_equal.
    unfold seq_pos at 1. destruct (Z.eqb_spec v1 0); [lia|].
    rewrite Hnv.
    replace (seq_pos (seq c) `mod` seq_period + 1 + Z.of_nat i)
      with (seq_pos (seq c) `mod` seq_period + (1 + Z.of_nat i)) by lia.
    rewrite Zplus_mod_idemp_l. f_equal. lia.
Qed.

Lemma issue_length (n : nat) : forall c, length (issue n c) = n.
Proof.
  induction n as [|n IH]; intros c; [reflexivity|].
  cbn [issue]. destruct (next c). cbn. by rewrite IH.
Qed.

Lemma mod_offset_inj (a i j : Z) :
  0 <= i < seq_period -> 0 <= j < seq_period ->
  (a + i) mod seq_period = (a + j) mod seq_period -> i = j.
Proof.
  unfold seq_period. intros Hi Hj E.
  pose proof (Z.div_mod (a + i) (2 ^ 32 - 1) ltac:(lia)) as D1.
  pose proof (Z.div_mod (a + j) (2 ^ 32 - 1) ltac:(lia)) as D2.
  rewrite E in D1.
  assert ((a + i) `div` (2 ^ 32 - 1) = (a + j) `div` (2 ^ 32 - 1)) by nia.
  lia.
Qed.

(** C5. The sequence-number generator returns the successor of the counter
    modulo 2^32, replaced by 1 when that successor is 0, so it never returns
    0; and from any counter state, N consecutive issuances with
    N <= 2^32 - 1 yield nonzero, pairwise distinct numbers. *)
Theorem next_nonzero_and_distinct (c : Conn) (n : nat) :
  0 <= seq c < 2 ^ 32 ->
  Z.of_nat n <= 2 ^ 32 - 1 ->
  fst (next c)
    = (if (seq c + 1) mod 2 ^ 32 =? 0 then 1 else (seq c + 1) mod 2 ^ 32)
  /\ fst (next c) <> 0
  /\ seq (snd (next c)) = fst (next c)
  /\ length (issue n c) = n
  /\ Forall (fun v => v <> 0 /\ 0 < v < 2 ^ 32) (issue n c)
  /\ NoDup (issue n c).
Proof.
  intros Hs Hn.
  split; [reflexivity|].
  split; [pose proof (next_range c Hs); lia|].
  split; [reflexivity|].
  split; [apply issue_length|].
  split.
  - apply Forall_lookup_2. intros i v Hl.
    apply issue_lookup in Hl; [|exact Hs].
    pose proof (Z.mod_pos_bound (seq_pos (seq c) + Z.of_nat i) seq_period) as B.
    unfold seq_period in *. lia.
  - apply NoDup_alt. intros i j v Hi Hj.
    pose proof (lookup_lt_Some _ _ _ Hi) as Li.
    pose proof (lookup_lt_Some _ _ _ Hj) as Lj.
    rewrite issue_length in Li, Lj.
    apply issue_lookup in Hi; [|exact Hs].
    apply issue_lookup in Hj; [|exact Hs].
    assert (Z.of_nat i = Z.of_nat j); [|lia].
    apply (mod_offset_inj (seq_pos (seq c))); unfold seq_period in *; lia.
Qed.

End SequenceNumbers.

(** * The connection engine: what every reachable state satisfies *)

Section Engine.
Import Go Conn.

Implicit Types (w : World) (p q : ptr).

Lemma deref_alter w f p q :
  (p < length (heap w))%nat ->
  deref (with_heap (alter f p) w) q
  = if decide (p = q) then f (deref w p) else deref w q.
Proof.
  intros Hp. unfold deref. cbn.
  destruct (decide (p = q)) as [->|Hne].
  - rewrite list_lookup_alter_eq.
    destruct (lookup_lt_is_Some_2 (heap w) q Hp) as [x E].
    by rewrite E.
  - by rewrite list_lookup_alter_ne.
Qed.

Lemma deref_app_old w x q :
  (q < length (heap w))%nat ->
  deref (with_heap (fun h => h ++ [x]) w) q = deref w q.
Proof. intros Hq. unfold deref. cbn. by rewrite lookup_app_l. Qed.

Lemma deref_app_new w x :
  deref (with_heap (fun h => h ++ [x]) w) (length (heap w)) = x.
Proof.
  unfold deref. cbn. rewrite lookup_app_r by lia.
  by rewrite Nat.sub_diag.
Qed.

(** An invariant of the states in which [Handle] has not returned: who owns
    each carrier. A carrier is in the queue or swapped out ([owned]), in the
    pool, or only held by the caller of [Write] that waits on it. *)
Record live_inv w : Prop := {
  li_nodup_owned : NoDup (owned w);
  li_nodup_pool : NoDup (pendingWritePool w);
  li_nodup_blocked : NoDup (blocked w);
  li_valid : forall p,
    p ∈ owned w \/ p ∈ pendingWritePool w \/ p ∈ blocked w ->
    (p < length (heap w))%nat;
  li_pool_owned : forall p, p ∈ pendingWritePool w -> p ∉ owned w;
  li_pool_blocked : forall p, p ∈ pendingWritePool w -> p ∉ blocked w;
  li_pool_wg : forall p, p ∈ pendingWritePool w -> wg (deref w p) = 0;
  li_owned_wait : forall p,
    p ∈ owned w -> wait (deref w p) = true ->
    wg (deref w p) = 1 /\ (p ∈ blocked w);
  li_owned_nowait : forall p,
    p ∈ owned w -> wait (deref w p) = false ->
    wg (deref w p) = 0 /\ (p ∉ blocked w);
  li_blocked : forall p,
    p ∈ blocked w -> p ∉ owned w -> wg (deref w p) = 0;
  li_fifo :
    writer_err w = None ->
    accepted w = writes (stream w) ++ map (fun p => buf (deref w p)) (owned w)
}.

(** What [acquirePendingWrite] does to a state that satisfies [live_inv]. *)
Lemma acquire_fresh b wt w :
  live_inv w ->
  let pw := length (heap w) in
  let w1 := with_heap (alter (fun x => mkPendingWrite b wt (wg x)) pw)
              (with_heap (fun h => h ++ [zero_pendingWrite]) w) in
  (pw ∉ owned w) /\ (pw ∉ blocked w) /\ (pw ∉ pendingWritePool w)
  /\ (pw < length (heap w1))%nat
  /\ (length (heap w) <= length (heap w1))%nat
  /\ deref w1 pw = mkPendingWrite b wt 0
  /\ (forall q, q <> pw -> deref w1 q = deref w q).
Proof.
  intros L pw w1.
  assert (Hout : forall q, q ∈ owned w \/ q ∈ pendingWritePool w
                           \/ q ∈ blocked w -> q <> length (heap w)).
  { intros q Hq. apply (li_valid w L) in Hq. lia. }
  assert (Hlen : length (heap w1) = S (length (heap w))).
  { subst w1. cbn. rewrite length_alter, length_app. cbn. lia. }
  split; [intros Hin; by apply (Hout _ (or_introl Hin))|].
  split; [intros Hin; by apply (Hout _ (or_intror (or_intror Hin)))|].
  split; [intros Hin; by apply (Hout _ (or_intror (or_introl Hin)))|].
  split; [subst pw; lia|]. split; [lia|]. split.
  - subst w1 pw. rewrite deref_alter.
    + rewrite decide_True by done. by rewrite deref_app_new.
    + cbn. rewrite length_app. cbn. lia.
  - intros q Hq. subst w1 pw. rewrite deref_alter.
    + rewrite decide_False by done.
      unfold deref. cbn.
      destruct (decide (q < length (heap w))%nat).
      * by rewrite lookup_app_l.
      * rewrite !(proj2 (lookup_ge_None _ _)); [done|lia|].
        rewrite length_app. cbn. lia.
    + cbn. rewrite length_app. cbn. lia.
Qed.

Lemma acquire_effect g b wt w pw w1 :
  live_inv w ->
  acquirePendingWrite g b wt w = (pw, w1) ->
  (pw ∉ owned w) /\ (pw ∉ blocked w) /\ (pw ∉ pendingWritePool w1)
  /\ (pendingWritePool w1 ⊆ pendingWritePool w)
  /\ NoDup (pendingWritePool w1)
  /\ (pw < length (heap w1))%nat
  /\ (length (heap w) <= length (heap w1))%nat
  /\ deref w1 pw = mkPendingWrite b wt 0
  /\ (forall q, q <> pw -> deref w1 q = deref w q)
  /\ conn w1 = conn w /\ stream w1 = stream w /\ writer w1 = writer w
  /\ reader w1 = reader w /\ handler w1 = handler w
  /\ blocked w1 = blocked w /\ accepted w1 = accepted w
  /\ returns w1 = returns w.
Proof.
  intros L. unfold acquirePendingWrite, pool_Get.
  assert (Hfresh :
    (length (heap w),
     with_heap (alter (fun x => mkPendingWrite b wt (wg x)) (length (heap w)))
       (with_heap (fun h => h ++ [zero_pendingWrite]) w)) = (pw, w1) ->
    (pw ∉ owned w) /\ (pw ∉ blocked w) /\ (pw ∉ pendingWritePool w1)
    /\ (pendingWritePool w1 ⊆ pendingWritePool w)
    /\ NoDup (pendingWritePool w1)
    /\ (pw < length (heap w1))%nat
    /\ (length (heap w) <= length (heap w1))%nat
    /\ deref w1 pw = mkPendingWrite b wt 0
    /\ (forall q, q <> pw -> deref w1 q = deref w q)
    /\ conn w1 = conn w /\ stream w1 = stream w /\ writer w1 = writer w
    /\ reader w1 = reader w /\ handler w1 = handler w
    /\ blocked w1 = blocked w /\ accepted w1 = accepted w
    /\ returns w1 = returns w).
  { intros [= <- <-].
    destruct (acquire_fresh b wt w L) as (F1 & F2 & F3 & F4 & F5 & F6 & F7).
    repeat (split; [first [done | apply (li_nodup_pool w L)]|]). done. }
  destruct g as [i|]; [destruct (pendingWritePool w !! i) as [p0|] eqn:Ei|];
    [|exact Hfresh|exact Hfresh].
  intros [= <- <-]. cbn.
  assert (Hin : p0 ∈ pendingWritePool w) by (by eapply list_elem_of_lookup_2).
  assert (Hv : (p0 < length (heap w))%nat) by (apply (li_valid w L); auto).
  pose proof (delete_Permutation _ _ _ Ei) as Hperm.
  pose proof (li_nodup_pool w L) as Hnd. rewrite Hperm in Hnd.
  apply NoDup_cons in Hnd as [Hnotin Hnd'].
  split; [by apply (li_pool_owned w L)|].
  split; [by apply (li_pool_blocked w L)|].
  split; [done|].
  split; [intros x Hx; by eapply list_elem_of_delete_inv|].
  split; [done|].
  split; [by rewrite length_alter|].
  split; [by rewrite length_alter|].
  split.
  - rewrite (deref_alter (with_pool (delete i) w)) by done.
    rewrite decide_True by done. f_equal.
    change (deref (with_pool (delete i) w) p0) with (deref w p0).
    by apply (li_pool_wg w L).
  - split; [|done]. intros q Hq.
    rewrite (deref_alter (with_pool (delete i) w)) by done.
    by rewrite decide_False by done.
Qed.

Lemma cond_Signal_fields w :
  conn (cond_Signal w) = conn w /\ heap (cond_Signal w) = heap w
  /\ pendingWritePool (cond_Signal w) = pendingWritePool w
  /\ stream (cond_Signal w) = stream w /\ reader (cond_Signal w) = reader w
  /\ handler (cond_Signal w) = handler w /\ blocked (cond_Signal w) = blocked w
  /\ accepted (cond_Signal w) = accepted w
  /\ returns (cond_Signal w) = returns w
  /\ pending (cond_Signal w) = pending w
  /\ writer_err (cond_Signal w) = writer_err w
  /\ writer (cond_Signal w)
     = match writer w with WParked => WLock | x => x end.
Proof.
  unfold cond_Signal, pending, writer_err.
  destruct (writer w) eqn:E; cbn; rewrite ?E; done.
Qed.

(** [w1] is [w] after [preparePendingWrite] accepted [b] in carrier [pw]. *)
Definition enqueued w w1 pw (b : list Byte.byte) (wt : bool) : Prop :=
  (pw ∉ owned w) /\ (pw ∉ blocked w) /\ (pw ∉ pendingWritePool w1)
  /\ (pendingWritePool w1 ⊆ pendingWritePool w)
  /\ NoDup (pendingWritePool w1)
  /\ (pw < length (heap w1))%nat
  /\ (length (heap w) <= length (heap w1))%nat
  /\ deref w1 pw = mkPendingWrite b wt (if wt then 1 else 0)
  /\ (forall q, q <> pw -> deref w1 q = deref w q)
  /\ writerQueue (conn w1) = writerQueue (conn w) ++ [pw]
  /\ writerDone (conn w1) = writerDone (conn w)
  /\ pending w1 = pending w /\ writer_err w1 = writer_err w
  /\ writer w1 = match writer w with WParked => WLock | x => x end
  /\ stream w1 = stream w /\ reader w1 = reader w /\ handler w1 = handler w
  /\ blocked w1 = blocked w /\ accepted w1 = accepted w
  /\ returns w1 = returns w.

Lemma prepare_reject g b wt w :
  writerDone (conn w) = true ->
  preparePendingWrite g b wt w = (inr ErrShutdown, w).
Proof. intros H. unfold preparePendingWrite. by rewrite H. Qed.

Lemma prepare_accept g b wt w :
  live_inv w -> writerDone (conn w) = false ->
  exists pw w1,
    preparePendingWrite g b wt w = (inl pw, w1) /\ enqueued w w1 pw b wt.
Proof.
  intros L Hd. unfold preparePendingWrite. rewrite Hd.
  destruct (acquirePendingWrite g b wt w) as [pw w0] eqn:Ea.
  destruct (acquire_effect _ _ _ _ _ _ L Ea)
    as (A1 & A2 & A3 & A4 & A5 & A6 & A7 & A8 & A9 & A10 & A11 & A12 & A13
        & A14 & A15 & A16 & A17).
  eexists _, _. split; [reflexivity|].
  set (w2 := if wt then wg_Add pw 1 w0 else w0).
  assert (H2 : heap w2 = (if wt
       then alter (fun x => mkPendingWrite (buf x) (wait x) (wg x + 1)) pw
                  (heap w0)
       else heap w0)
    /\ conn w2 = conn w0 /\ pendingWritePool w2 = pendingWritePool w0
    /\ stream w2 = stream w0 /\ writer w2 = writer w0 /\ reader w2 = reader w0
    /\ handler w2 = handler w0 /\ blocked w2 = blocked w0
    /\ accepted w2 = accepted w0 /\ returns w2 = returns w0)
    by (subst w2; by destruct wt).
  destruct H2 as (Hh & Hc & Hp & Hs & Hw & Hr & Hha & Hb & Hac & Hre).
  assert (Hd2 : deref w2 pw = mkPendingWrite b wt (if wt then 1 else 0)
                /\ forall q, q <> pw -> deref w2 q = deref w0 q).
  { subst w2. destruct wt; [|done]. unfold wg_Add. split.
    - rewrite deref_alter by done. rewrite decide_True by done.
      by rewrite A8.
    - intros q Hq. rewrite deref_alter by done.
      by rewrite decide_False by done. }
  destruct Hd2 as [Hd2 Hd2'].
  set (w3 := with_conn _ w2).
  destruct (cond_Signal_fields w3)
    as (S1 & S2 & S3 & S4 & S5 & S6 & S7 & S8 & S9 & S10 & S11 & S12).
  unfold enqueued.
  rewrite S1, S3, S4, S5, S6, S7, S8, S9, S10, S11, S12.
  unfold deref. rewrite S2. fold (deref w3).
  assert (Hd3 : forall q, deref w3 q = deref w2 q) by done.
  change (heap w3) with (heap w2).
  change (pendingWritePool w3) with (pendingWritePool w2).
  change (stream w3) with (stream w2). change (reader w3) with (reader w2).
  change (handler w3) with (handler w2). change (blocked w3) with (blocked w2).
  change (accepted w3) with (accepted w2).
  change (returns w3) with (returns w2).
  change (pending w3) with (pending w2).
  change (writer_err w3) with (writer_err w2).
  change (writer w3) with (writer w2).
  change (conn w3) with (set_queue (writerQueue (conn w2) ++ [pw]) (conn w2)).
  unfold pending, writer_err.
  rewrite Hp, Hs, Hw, Hr, Hha, Hb, Hac, Hre, Hc.
  rewrite A10, A11, A12, A13, A14, A15, A16, A17. cbn.
  assert (Hlen : length (heap w2) = length (heap w0)).
  { rewrite Hh. destruct wt; [by rewrite length_alter|done]. }
  rewrite Hlen.
  split_and!; try done.
  intros q Hq. change (deref w2 q = deref w q).
  rewrite Hd2' by done. by apply A9.
Qed.

Lemma live_inv_frame w w' :
  owned w' = owned w ->
  heap w' = heap w ->
  pendingWritePool w' = pendingWritePool w ->
  blocked w' = blocked w ->
  accepted w' = accepted w ->
  writes (stream w') = writes (stream w) ->
  (writer_err w' = None -> writer_err w = None) ->
  live_inv w -> live_inv w'.
Proof.
  intros Ho Hh Hp Hb Ha Hs He L.
  assert (Hd : forall p, deref w' p = deref w p)
    by (intros p; unfold deref; by rewrite Hh).
  destruct L as [L1 L2 L3 L4 L5 L6 L7 L8 L9 L10 L11].
  split; rewrite ?Ho, ?Hh, ?Hp, ?Hb, ?Ha, ?Hs; try done.
  - intros p. rewrite Hd. apply L7.
  - intros p. rewrite Hd. apply L8.
  - intros p. rewrite Hd. apply L9.
  - intros p. rewrite Hd. apply L10.
  - intros E. rewrite (L11 (He E)). f_equal.
    apply map_ext. intros p. by rewrite Hd.
Qed.

(** [Handle] has received the writer's result in these states. *)
Definition writer_joined (h : handle_state) : bool :=
  match h with
  | HDoneWaitReader | HWriterWaitReader _ | HClear _ | HReturned _ => true
  | _ => false
  end.

(** What holds in every reachable state. *)
Record inv w : Prop := {
  inv_live : returned w = false -> live_inv w;
  inv_prefix : writes (stream w) `prefix_of` accepted w;
  inv_clean :
    writer w = WReturn None \/ writer w = WExited None ->
    writerDone (conn w) = true /\ writerQueue (conn w) = []
    /\ accepted w = writes (stream w);
  inv_joined :
    writer_joined (handler w) = true -> exists e, writer w = WExited e;
  inv_wg : Forall (fun x => 0 <= wg x) (heap w)
}.

Lemma writes_app l1 l2 : writes (l1 ++ l2) = writes l1 ++ writes l2.
Proof.
  induction l1 as [|[b| |] l1 IH]; cbn; [done| |done|done].
  by rewrite IH.
Qed.

Lemma inv_start c : inv (start c).
Proof.
  split; cbn; try done.
  - intros _. split; cbn; try done; try apply NoDup_nil_2;
      try (intros p Hp; by apply elem_of_nil in Hp).
    intros p [Hp|[Hp|Hp]]; by apply elem_of_nil in Hp.
  - intros [?|?]; discriminate.
Qed.

Lemma returned_joined w :
  returned w = true -> writer_joined (handler w) = true.
Proof. unfold returned. by destruct (handler w). Qed.

(** While the writer has not been joined, [Handle] has not returned. *)
Lemma inv_writer_running w :
  inv w -> (forall e, writer w <> WExited e) -> live_inv w.
Proof.
  intros I Hw. apply (inv_live w I).
  destruct (returned w) eqn:E; [|done].
  apply returned_joined, (inv_joined w I) in E as [e E]. by destruct (Hw e).
Qed.

Lemma inv_AWriterLock w w' :
  inv w -> exec AWriterLock w = Some w' -> inv w'.
Proof.
  intros I. cbn. destruct (writer w) eqn:Ew; try discriminate.
  intros [= <-].
  assert (L : live_inv w)
    by (apply inv_writer_running; [done|intros e; by rewrite Ew]).
  assert (Hret : returned w = false).
  { destruct (returned w) eqn:E; [|done].
    apply returned_joined, (inv_joined w I) in E as [e E]. congruence. }
  assert (Hj : writer_joined (handler w) = false).
  { destruct (writer_joined (handler w)) eqn:E; [|done].
    apply (inv_joined w I) in E as [e E]. congruence. }
  pose proof (li_fifo w L) as Hf. unfold writer_err, owned, pending in Hf.
  rewrite Ew in Hf. specialize (Hf eq_refl). cbn in Hf.
  unfold writeLoop_lock.
  destruct (negb (writerDone (conn w))
            && bool_decide (writerQueue (conn w) = [])) eqn:Epark.
  - (* c.writerCond.Wait() *)
    split; cbn; try apply I; try done.
    + intros _. apply (live_inv_frame w); try done.
      all: unfold owned, pending, writer_err; cbn; rewrite ?Ew; try done.
    + intros [?|?]; discriminate.
    + rewrite Hj. discriminate.
  - destruct (writerDone (conn w)
              && bool_decide (writerQueue (conn w) = [])) eqn:Eexit.
    + (* break out of the loop: shut down and nothing queued *)
      apply andb_true_iff in Eexit as [Ed Eq].
      apply bool_decide_eq_true in Eq.
      split; cbn; try apply I; try done.
      * intros _. apply (live_inv_frame w); try done.
        all: unfold owned, pending, writer_err; cbn; rewrite ?Ew, ?Eq;
          try done.
      * intros _. split; [done|]. split; [done|].
        by rewrite Hf, Eq, app_nil_r.
      * rewrite Hj. discriminate.
    + split; cbn; try apply I; try done.
      * intros _. apply (live_inv_frame w); try done.
        all: unfold owned, pending, writer_err; cbn;
          rewrite ?Ew, ?app_nil_r; try done.
      * intros [?|?]; discriminate.
      * rewrite Hj. discriminate.
Qed.

Lemma inv_AWriterFlush res w w' :
  inv w -> exec (AWriterFlush res) w = Some w' -> inv w'.
Proof.
  intros I. cbn. destruct (writer w) as [| |[|? ?] err| |] eqn:Ew;
    try discriminate.
  intros [= <-].
  assert (Hj : writer_joined (handler w) = false).
  { destruct (writer_joined (handler w)) eqn:E; [|done].
    apply (inv_joined w I) in E as [e E]. congruence. }
  assert (Hlive : forall w1,
    heap w1 = heap w -> pendingWritePool w1 = pendingWritePool w ->
    blocked w1 = blocked w -> accepted w1 = accepted w ->
    conn w1 = conn w -> writes (stream w1) = writes (stream w) ->
    pending w1 = [] -> (writer_err w1 = None -> err = None) ->
    returned w1 = returned w ->
    returned w1 = false -> live_inv w1).
  { intros w1 H1 H2 H3 H4 H5 H6 H7 H8 H9 H10.
    apply (live_inv_frame w); try done.
    - unfold owned. rewrite H7, H5. unfold pending. by rewrite Ew.
    - intros E. unfold writer_err. rewrite Ew. by apply H8.
    - apply (inv_live w I). by rewrite <- H9. }
  unfold writeLoop_flush.
  destruct err as [e|]; [|destruct res as [e|]].
  all: split; cbn; rewrite ?writes_app, ?app_nil_r; try apply I;
    try (rewrite Hj; discriminate); try (intros [?|?]; discriminate).
  all: intros Hr; apply Hlive; cbn; rewrite ?writes_app, ?app_nil_r;
    try done.
Qed.

(** Steps that leave the carriers, the queue and the stream's writes alone. *)
Lemma inv_frame w w' :
  inv w ->
  heap w' = heap w -> pendingWritePool w' = pendingWritePool w ->
  blocked w' = blocked w -> accepted w' = accepted w ->
  writerQueue (conn w') = writerQueue (conn w) ->
  writes (stream w') = writes (stream w) ->
  pending w' = pending w -> writer_err w' = writer_err w ->
  (returned w' = false -> returned w = false) ->
  (writerDone (conn w) = true -> writerDone (conn w') = true) ->
  (writer w' = WReturn None \/ writer w' = WExited None ->
   writer w = WReturn None \/ writer w = WExited None) ->
  (writer_joined (handler w') = true -> exists e, writer w' = WExited e) ->
  inv w'.
Proof.
  intros I Hh Hp Hb Ha Hq Hs Hpe He Hr Hd Hc Hj.
  split; rewrite ?Hh, ?Ha, ?Hq, ?Hs; try apply I; try done.
  - intros E. apply (live_inv_frame w); try done.
    + unfold owned. by rewrite Hpe, Hq.
    + by rewrite He.
    + apply (inv_live w I). by apply Hr.
  - intros E. destruct (inv_clean w I (Hc E)) as (C1 & C2 & C3). auto.
Qed.

Lemma inv_AReaderRead res w w' :
  inv w -> exec (AReaderRead res) w = Some w' -> inv w'.
Proof.
  intros I. cbn. destruct (reader w); try discriminate.
  destruct res; intros [= <-]; [|done].
  apply (inv_frame w); try done. apply I.
Qed.

Lemma Handle_stop_writer_fields w :
  let w' := Handle_stop_writer w in
  heap w' = heap w /\ pendingWritePool w' = pendingWritePool w
  /\ blocked w' = blocked w /\ accepted w' = accepted w
  /\ writerQueue (conn w') = writerQueue (conn w)
  /\ stream w' = stream w /\ pending w' = pending w
  /\ writer_err w' = writer_err w /\ handler w' = handler w
  /\ reader w' = reader w /\ returns w' = returns w
  /\ writerDone (conn w') = true
  /\ writer w' = match writer w with WParked => WLock | x => x end.
Proof.
  unfold Handle_stop_writer.
  destruct (cond_Signal_fields (with_conn (set_done true) w))
    as (S1 & S2 & S3 & S4 & S5 & S6 & S7 & S8 & S9 & S10 & S11 & S12).
  cbn. rewrite S1, S2, S3, S4, S5, S6, S7, S8, S9, S10, S11, S12. done.
Qed.

Lemma inv_AHandleDone w w' :
  inv w -> exec AHandleDone w = Some w' -> inv w'.
Proof.
  intros I. cbn. destruct (handler w) eqn:Eh; try discriminate.
  intros [= <-].
  destruct (Handle_stop_writer_fields w)
    as (S1 & S2 & S3 & S4 & S5 & S6 & S7 & S8 & S9 & S10 & S11 & S12 & S13).
  apply (inv_frame w); cbn; try done.
  - by rewrite S6.
  - unfold returned. by rewrite Eh.
  - rewrite S13. destruct (writer w); intros [?|?]; try discriminate; auto.
Qed.

Lemma inv_AHandleRecvWriter w w' :
  inv w -> exec AHandleRecvWriter w = Some w' -> inv w'.
Proof.
  intros I. cbn. unfold Handle_recv_writer.
  destruct (writer w) as [| | | e |] eqn:Ew; try discriminate.
  destruct (handler w) eqn:Eh; try discriminate; intros [= <-].
  all: apply (inv_frame w); cbn; rewrite ?writes_app, ?app_nil_r; try done.
  all: unfold pending, writer_err, returned; cbn; rewrite ?Ew, ?Eh;
    try done; eauto.
  all: intros [E|E]; inversion E; auto.
Qed.

Lemma inv_AHandleRecvReader w w' :
  inv w -> exec AHandleRecvReader w = Some w' -> inv w'.
Proof.
  intros I. cbn. unfold Handle_recv_reader.
  destruct (reader w) as [| e |] eqn:Er; try discriminate.
  destruct (handler w) eqn:Eh; try discriminate; intros [= <-].
  - destruct (Handle_stop_writer_fields (set_reader RExited w))
      as (S1 & S2 & S3 & S4 & S5 & S6 & S7 & S8 & S9 & S10 & S11 & S12 & S13).
    apply (inv_frame w); cbn; try done.
    + by rewrite S6.
    + unfold returned. by rewrite Eh.
    + rewrite S13. cbn.
      destruct (writer w); intros [?|?]; try discriminate; auto.
  - apply (inv_frame w); cbn; try done.
    + unfold returned. by rewrite Eh.
    + intros _. apply (inv_joined w I). by rewrite Eh.
  - apply (inv_frame w); cbn; try done.
    + unfold returned. by rewrite Eh.
    + intros _. apply (inv_joined w I). by rewrite Eh.
Qed.

(** What [preparePendingWrite] does to any state at all. *)
Lemma prepare_weak g b wt w r w1 :
  preparePendingWrite g b wt w = (r, w1) ->
  stream w1 = stream w /\ handler w1 = handler w /\ reader w1 = reader w
  /\ accepted w1 = accepted w /\ blocked w1 = blocked w
  /\ returns w1 = returns w
  /\ (writer w1 = writer w \/ writer w = WParked /\ writer w1 = WLock)
  /\ writerDone (conn w1) = writerDone (conn w)
  /\ (Forall (fun x => 0 <= wg x) (heap w) ->
      Forall (fun x => 0 <= wg x) (heap w1))
  /\ (writerDone (conn w) = true -> r = inr ErrShutdown /\ w1 = w)
  /\ (writerDone (conn w) = false -> exists pw, r = inl pw).
Proof.
  unfold preparePendingWrite.
  destruct (writerDone (conn w)) eqn:Ed.
  { intros [= <- <-]. rewrite Ed.
    split_and!; try done. by left. }
  destruct (acquirePendingWrite g b wt w) as [pw w0] eqn:Ea.
  intros [= <- <-].
  assert (H0 : stream w0 = stream w /\ handler w0 = handler w
    /\ reader w0 = reader w /\ accepted w0 = accepted w
    /\ blocked w0 = blocked w /\ returns w0 = returns w
    /\ writer w0 = writer w /\ conn w0 = conn w
    /\ (Forall (fun x => 0 <= wg x) (heap w) ->
        Forall (fun x => 0 <= wg x) (heap w0))).
  { unfold acquirePendingWrite, pool_Get in Ea.
    destruct g as [i|]; [destruct (pendingWritePool w !! i)|];
      injection Ea as <- <-; cbn; split_and!; try done.
    all: intros F; apply Forall_alter; [|done].
    all: try done.
    all: apply Forall_app; split; [done|by apply Forall_singleton]. }
  destruct H0 as (H1 & H2 & H3 & H4 & H5 & H6 & H7 & H8 & H9).
  set (w2 := if wt then wg_Add pw 1 w0 else w0).
  assert (H10 : stream w2 = stream w0 /\ handler w2 = handler w0
    /\ reader w2 = reader w0 /\ accepted w2 = accepted w0
    /\ blocked w2 = blocked w0 /\ returns w2 = returns w0
    /\ writer w2 = writer w0 /\ conn w2 = conn w0
    /\ (Forall (fun x => 0 <= wg x) (heap w0) ->
        Forall (fun x => 0 <= wg x) (heap w2))).
  { subst w2. destruct wt; cbn; split_and!; try done.
    intros F. apply Forall_alter; [done|]. cbn. intros; lia. }
  destruct H10 as (G1 & G2 & G3 & G4 & G5 & G6 & G7 & G8 & G9).
  set (w3 := with_conn _ w2).
  destruct (cond_Signal_fields w3)
    as (S1 & S2 & S3 & S4 & S5 & S6 & S7 & S8 & S9 & S10 & S11 & S12).
  rewrite S1, S2, S4, S5, S6, S7, S8, S9, S12. subst w3. cbn.
  rewrite G1, G2, G3, G4, G5, G6, G7, G8, H1, H2, H3, H4, H5, H6, H7, H8.
  split_and!; try done; eauto.
  destruct (writer w); auto.
Qed.

Lemma live_inv_enqueue w w1 w' pw b wt :
  live_inv w -> enqueued w w1 pw b wt ->
  heap w' = heap w1 -> pendingWritePool w' = pendingWritePool w1 ->
  conn w' = conn w1 -> writer w' = writer w1 -> stream w' = stream w1 ->
  accepted w' = accepted w ++ [b] ->
  blocked w' = (if wt then blocked w ++ [pw] else blocked w) ->
  live_inv w'.
Proof.
  intros L (E1 & E2 & E3 & E4 & E5 & E6 & E7 & E8 & E9 & E10 & E11 & E12
            & E13 & E14 & E15 & E16 & E17 & E18 & E19 & E20)
         Hh Hp Hc Hw Hs Ha Hb.
  assert (Hd : forall q, deref w' q = deref w1 q)
    by (intros q; unfold deref; by rewrite Hh).
  assert (Ho : owned w' = owned w ++ [pw]).
  { unfold owned, pending. rewrite Hw, Hc, E10.
    fold (pending w1). rewrite E12. by rewrite app_assoc. }
  assert (He : writer_err w' = writer_err w).
  { unfold writer_err. rewrite Hw. exact E13. }
  assert (Hbl : forall q,
    q ∈ blocked w' <-> q ∈ blocked w \/ (wt = true /\ q = pw)).
  { intros q. rewrite Hb. destruct wt.
    - rewrite elem_of_app, list_elem_of_singleton.
      split; [intros [?|?]; auto|intros [?|[_ ?]]; auto].
    - split; [auto|intros [?|[? _]]; [done|discriminate]]. }
  destruct L as [L1 L2 L3 L4 L5 L6 L7 L8 L9 L10 L11].
  split.
  - rewrite Ho. apply NoDup_app. split; [done|]. split.
    + intros x Hx. rewrite list_elem_of_singleton. by intros ->.
    + apply NoDup_singleton.
  - by rewrite Hp.
  - rewrite Hb. destruct wt; [|done]. apply NoDup_app. split; [done|]. split.
    + intros x Hx. rewrite list_elem_of_singleton. by intros ->.
    + apply NoDup_singleton.
  - intros q. rewrite Ho, Hp, Hh, Hbl, elem_of_app, list_elem_of_singleton.
    intros Hq.
    destruct (decide (q = pw)) as [->|Hne]; [done|].
    assert (q < length (heap w))%nat; [|lia].
    apply L4. destruct Hq as [[Hq|Hq]|[Hq|[Hq|[_ Hq]]]]; auto; done.
  - intros q. rewrite Hp, Ho, not_elem_of_app, list_elem_of_singleton.
    intros Hq. split; [apply L5; by apply E4|by intros ->].
  - intros q. rewrite Hp, Hbl. intros Hq [Hq'|[_ ->]]; [|done].
    by apply (L6 q (E4 _ Hq)).
  - intros q. rewrite Hp. intros Hq.
    rewrite Hd, E9 by (by intros ->). apply L7. by apply E4.
  - intros q. rewrite Ho, elem_of_app, list_elem_of_singleton, Hbl, Hd.
    intros [Hq| ->].
    + rewrite E9 by (by intros ->). intros Hwt.
      destruct (L8 q Hq Hwt). auto.
    + rewrite E8. cbn. intros ->. auto.
  - intros q. rewrite Ho, elem_of_app, list_elem_of_singleton, Hbl, Hd.
    intros [Hq| ->].
    + rewrite E9 by (by intros ->). intros Hwt.
      destruct (L9 q Hq Hwt) as [? ?]. split; [done|].
      intros [?|[_ ->]]; done.
    + rewrite E8. cbn. intros ->. split; [done|]. intros [?|[? _]]; done.
  - intros q. rewrite Hbl, Ho, not_elem_of_app, list_elem_of_singleton, Hd.
    intros [Hq|[_ ->]] [Hno Hne]; [|done].
    rewrite E9 by done. by apply L10.
  - rewrite He, Ha, Hs, E15, Ho, map_app. intros E. rewrite (L11 E).
    rewrite <- app_assoc. f_equal. f_equal.
    + apply map_ext_in. intros q Hq. rewrite Hd, E9; [done|].
      apply list_elem_of_In in Hq. by intros ->.
    + cbn. by rewrite Hd, E8.
Qed.

(** Accepting a buffer: [w'] is the state after the call, [w1] the state
    [preparePendingWrite] returned. *)
Lemma inv_enqueue g b wt w pw w1 w' :
  inv w ->
  preparePendingWrite g b wt w = (inl pw, w1) ->
  heap w' = heap w1 -> pendingWritePool w' = pendingWritePool w1 ->
  conn w' = conn w1 -> writer w' = writer w1 -> stream w' = stream w1 ->
  handler w' = handler w1 ->
  accepted w' = accepted w ++ [b] ->
  blocked w' = (if wt then blocked w ++ [pw] else blocked w) ->
  inv w'.
Proof.
  intros I Hprep Hh Hp Hc Hw Hs Hha Ha Hb.
  destruct (prepare_weak _ _ _ _ _ _ Hprep)
    as (P1 & P2 & P3 & P4 & P5 & P6 & P7 & P8 & P9 & P10 & P11).
  assert (Hd : writerDone (conn w) = false).
  { destruct (writerDone (conn w)) eqn:E; [|done].
    by destruct (P10 eq_refl). }
  split.
  - intros Hr.
    assert (L : live_inv w).
    { apply (inv_live w I). unfold returned in *. by rewrite Hha, P2 in Hr. }
    destruct (prepare_accept g b wt w L Hd) as (pw' & w1' & Hprep' & Henq).
    rewrite Hprep in Hprep'. injection Hprep' as <- <-.
    by apply (live_inv_enqueue w w1 w' pw b wt).
  - rewrite Hs, P1, Ha. apply prefix_app_r, I.
  - rewrite Hw. intros Hcl.
    assert (Hcl' : writer w = WReturn None \/ writer w = WExited None).
    { destruct P7 as [<-|[_ E]]; [done|]. rewrite E in Hcl.
      destruct Hcl; discriminate. }
    destruct (inv_clean w I Hcl') as [? _]. congruence.
  - rewrite Hha, P2, Hw. intros Hj.
    destruct (inv_joined w I Hj) as [e E]. exists e.
    destruct P7 as [->|[E' _]]; [done|congruence].
  - rewrite Hh. apply P9, I.
Qed.

Lemma inv_AWrite g b w w' :
  inv w -> exec (AWrite g b) w = Some w' -> inv w'.
Proof.
  intros I. cbn. unfold Write_enter.
  destruct (preparePendingWrite g b true w) as [[pw|err] w1] eqn:Hprep;
    intros [= <-].
  - destruct (prepare_weak _ _ _ _ _ _ Hprep) as (_ & _ & _ & P4 & P5 & _).
    apply (inv_enqueue g b true w pw w1); cbn; rewrite ?P4, ?P5; done.
  - destruct (prepare_weak _ _ _ _ _ _ Hprep)
      as (P1 & P2 & P3 & P4 & P5 & P6 & P7 & P8 & P9 & P10 & P11).
    destruct (writerDone (conn w)) eqn:Ed.
    + destruct (P10 eq_refl) as [_ ->].
      apply (inv_frame w); try done. apply I.
    + destruct (P11 eq_refl). discriminate.
Qed.

Lemma inv_AWriteNoWait g b w w' :
  inv w -> exec (AWriteNoWait g b) w = Some w' -> inv w'.
Proof.
  intros I. cbn. unfold WriteNoWait.
  destruct (preparePendingWrite g b false w) as [[pw|err] w1] eqn:Hprep;
    intros [= <-].
  - destruct (prepare_weak _ _ _ _ _ _ Hprep) as (_ & _ & _ & P4 & P5 & _).
    apply (inv_enqueue g b false w pw w1); cbn; rewrite ?P4, ?P5; done.
  - destruct (prepare_weak _ _ _ _ _ _ Hprep)
      as (P1 & P2 & P3 & P4 & P5 & P6 & P7 & P8 & P9 & P10 & P11).
    destruct (writerDone (conn w)) eqn:Ed.
    + destruct (P10 eq_refl) as [_ ->].
      apply (inv_frame w); try done. apply I.
    + destruct (P11 eq_refl). discriminate.
Qed.

Lemma elem_of_remove_first p l x :
  x ∈ remove_first p l -> x ∈ l.
Proof.
  induction l as [|y l IH]; cbn; [done|].
  destruct (decide (y = p)); rewrite !elem_of_cons; [auto|].
  intros [?|?]; auto.
Qed.

Lemma remove_first_NoDup p l :
  NoDup l -> NoDup (remove_first p l) /\ (p ∉ remove_first p l)
             /\ (forall x, x ∈ l -> x <> p -> x ∈ remove_first p l).
Proof.
  induction 1 as [|y l Hy Hl IH]; cbn.
  - split; [apply NoDup_nil_2|]. split; [by intros ?%elem_of_nil|].
    by intros x ?%elem_of_nil.
  - destruct IH as (IH1 & IH2 & IH3).
    destruct (decide (y = p)) as [->|Hne].
    + split; [done|]. split; [done|].
      intros x [?|?]%elem_of_cons; done.
    + split; [|split].
      * apply NoDup_cons. split; [|done].
        intros Hin. by apply Hy, (elem_of_remove_first p).
      * rewrite not_elem_of_cons. auto.
      * intros x [->|Hx]%elem_of_cons Hxp; rewrite elem_of_cons; auto.
Qed.

Lemma inv_AWriteReturn pw w w' :
  inv w -> exec (AWriteReturn pw) w = Some w' -> inv w'.
Proof.
  intros I. cbn. unfold Write_leave.
  destruct (bool_decide (pw ∈ blocked w) && (wg (deref w pw) =? 0)) eqn:E;
    [|discriminate].
  intros [= <-].
  apply andb_true_iff in E as [Hin Hz].
  apply bool_decide_eq_true in Hin. apply Z.eqb_eq in Hz.
  split; cbn; try apply I.
  intros Hr.
  pose proof (inv_live w I Hr) as [L1 L2 L3 L4 L5 L6 L7 L8 L9 L10 L11].
  destruct (remove_first_NoDup pw _ L3) as (R1 & R2 & R3).
  assert (Hno : pw ∉ owned w).
  { intros Ho. destruct (wait (deref w pw)) eqn:Ew.
    - destruct (L8 pw Ho Ew). lia.
    - by destruct (L9 pw Ho Ew). }
  match goal with |- live_inv ?x => set (w' := x) end.
  assert (Ho : owned w' = owned w) by reflexivity.
  assert (Hd : forall p, deref w' p = deref w p) by reflexivity.
  assert (He : writer_err w' = writer_err w) by reflexivity.
  split; rewrite ?Ho, ?He; cbn; try done.
  - apply NoDup_cons. split; [|done]. intros Hp. by apply (L6 pw).
  - intros p [Hp|[Hp|Hp]]; apply L4; auto.
    + apply elem_of_cons in Hp as [->|Hp]; auto.
    + right. right. by apply (elem_of_remove_first pw).
  - intros p [->|Hp]%elem_of_cons; auto.
  - intros p [->|Hp]%elem_of_cons; [done|].
    intros Hb. by apply (L6 p Hp), (elem_of_remove_first pw).
  - intros p. rewrite Hd. intros [->|Hp]%elem_of_cons; auto.
  - intros p. rewrite Hd. intros Ho' Hw.
    destruct (L8 p Ho' Hw) as [? Hb]. split; [done|].
    apply R3; [done|]. by intros ->.
  - intros p. rewrite Hd. intros Ho' Hw.
    destruct (L9 p Ho' Hw) as [? Hb]. split; [done|].
    intros Hb'. by apply Hb, (elem_of_remove_first pw).
  - intros p. rewrite Hd. intros Hb Ho'.
    apply L10; [|done]. by apply (elem_of_remove_first pw).
Qed.

Lemma writeLoop_body_fields res pw err w :
  let '(err1, w2) := writeLoop_body res pw err w in
  err1 = match err with None => res | Some _ => err end
  /\ stream w2 = match err with
                 | None => stream w ++ [CallWrite (buf (deref w pw))]
                 | Some _ => stream w
                 end
  /\ conn w2 = conn w /\ writer w2 = writer w /\ reader w2 = reader w
  /\ handler w2 = handler w /\ blocked w2 = blocked w
  /\ accepted w2 = accepted w /\ returns w2 = returns w
  /\ (if wait (deref w pw)
      then heap w2 = alter (fun x => mkPendingWrite (buf x) (wait x)
                                                    (wg x + -1)) pw (heap w)
           /\ pendingWritePool w2 = pendingWritePool w
      else heap w2 = heap w /\ pendingWritePool w2 = pw :: pendingWritePool w).
Proof.
  unfold writeLoop_body.
  destruct err as [e|]; cbn.
  - destruct (wait (deref w pw)) eqn:Ew; cbn; done.
  - change (deref (with_stream _ w) pw) with (deref w pw).
    destruct (wait (deref w pw)) eqn:Ew; cbn; done.
Qed.

Lemma inv_AWriterRange res w w' :
  inv w -> exec (AWriterRange res) w = Some w' -> inv w'.
Proof.
  intros I. cbn. destruct (writer w) as [| |[|pw q] err| |] eqn:Ew;
    try discriminate.
  pose proof (writeLoop_body_fields res pw err w) as B.
  destruct (writeLoop_body res pw err w) as [err1 w2].
  destruct B as (B1 & B2 & B3 & B4 & B5 & B6 & B7 & B8 & B9 & B10).
  intros [= <-].
  assert (L : live_inv w)
    by (apply inv_writer_running; [done|intros e; by rewrite Ew]).
  assert (Hj : writer_joined (handler w) = false).
  { destruct (writer_joined (handler w)) eqn:E; [|done].
    apply (inv_joined w I) in E as [e E]. congruence. }
  destruct L as [L1 L2 L3 L4 L5 L6 L7 L8 L9 L10 L11].
  assert (Hown : owned w = pw :: q ++ writerQueue (conn w))
    by (unfold owned, pending; by rewrite Ew).
  set (w' := set_writer (WRange q err1) w2).
  assert (Ho : owned w' = q ++ writerQueue (conn w))
    by (unfold owned, pending; cbn; by rewrite B3).
  assert (He : writer_err w' = err1) by reflexivity.
  assert (Hbl : blocked w' = blocked w) by exact B7.
  assert (Hac : accepted w' = accepted w) by exact B8.
  assert (Hst : stream w' = stream w2) by reflexivity.
  assert (Hhe : heap w' = heap w2) by reflexivity.
  assert (Hpl : pendingWritePool w' = pendingWritePool w2) by reflexivity.
  rewrite Hown in L1. apply NoDup_cons in L1 as [Hpw L1].
  assert (Hpo : pw ∈ owned w) by (rewrite Hown; left).
  assert (Hsub : forall x, x ∈ owned w' -> x ∈ owned w /\ x <> pw).
  { intros x. rewrite Ho, Hown. intros Hx. split; [by right|by intros ->]. }
  assert (Hv : (pw < length (heap w))%nat) by (apply L4; auto).
  assert (Hwr : writes (stream w')
                = writes (stream w)
                  ++ match err with None => [buf (deref w pw)] | _ => [] end).
  { rewrite Hst, B2. destruct err; [by rewrite app_nil_r|].
    by rewrite writes_app. }
  assert (Hfifo : err = None ->
    accepted w = writes (stream w) ++ buf (deref w pw)
                 :: map (fun p => buf (deref w p)) (owned w')).
  { intros ->. rewrite L11 by (unfold writer_err; by rewrite Ew).
    by rewrite Hown, Ho. }
  assert (Hpre : writes (stream w') `prefix_of` accepted w').
  { rewrite Hwr, Hac. destruct err as [e|].
    - rewrite app_nil_r. apply I.
    - rewrite (Hfifo eq_refl).
      exists (map (fun p => buf (deref w p)) (owned w')).
      by rewrite <- app_assoc. }
  assert (Hfifo' : forall (Hd : forall x, x ∈ owned w' ->
                                deref w' x = deref w x),
    writer_err w' = None ->
    accepted w' = writes (stream w')
                  ++ map (fun p => buf (deref w' p)) (owned w')).
  { intros Hd. rewrite He, B1, Hac, Hwr. intros E.
    assert (err = None) as -> by (by destruct err).
    rewrite (Hfifo eq_refl), <- app_assoc. cbn. do 2 f_equal.
    apply map_ext_in. intros x Hx%list_elem_of_In. by rewrite Hd. }
  destruct (wait (deref w pw)) eqn:Ewt; destruct B10 as [Hh Hp].
  - (* pw.wg.Done() *)
    destruct (L8 pw Hpo Ewt) as [Hwg Hblk].
    assert (Hd : forall x, x <> pw -> deref w' x = deref w x).
    { intros x Hx. unfold deref. rewrite Hhe, Hh.
      by rewrite list_lookup_alter_ne. }
    assert (Hdp : wg (deref w' pw) = 0).
    { change (deref w' pw)
        with (deref (with_heap (fun _ => heap w2) w) pw).
      rewrite Hh.
      change (with_heap _ w) with (with_heap (alter (fun x => mkPendingWrite
        (buf x) (wait x) (wg x + -1)) pw) w).
      rewrite deref_alter by done. rewrite decide_True by done. cbn. lia. }
    split; [|done|by intros [?|?]|cbn; by rewrite B6, Hj|].
    + intros _. split; rewrite ?Ho, ?Hbl, ?Hpl, ?Hp, ?Hhe, ?Hh, ?length_alter;
        try done.
      * intros x [Hx|Hx]; apply L4; [|auto].
        left. rewrite Hown. by right.
      * intros x Hx Hx'. apply (L5 x Hx). rewrite Hown. by right.
      * intros x Hx. rewrite Hd; [by apply L7|].
        intros ->. by apply (L5 pw).
      * intros x Hx. assert (Hx' : x ∈ owned w') by (by rewrite Ho).
        destruct (Hsub x Hx'). rewrite Hd by done. by apply L8.
      * intros x Hx. assert (Hx' : x ∈ owned w') by (by rewrite Ho).
        destruct (Hsub x Hx'). rewrite Hd by done. by apply L9.
      * intros x Hx Hx'. destruct (decide (x = pw)) as [->|Hne]; [done|].
        rewrite Hd by done. apply L10; [done|].
        rewrite Hown. by intros [?|?]%elem_of_cons.
      * rewrite <- Ho. apply Hfifo'. intros x Hx. apply Hd. by apply Hsub.
    + rewrite Hhe, Hh. apply Forall_alter; [apply I|].
      intros x Hx _. cbn. unfold deref in Hwg. rewrite Hx in Hwg.
      cbn in Hwg. lia.
  - (* releasePendingWrite(pw) *)
    destruct (L9 pw Hpo Ewt) as [Hwg Hblk].
    assert (Hd : forall x, deref w' x = deref w x).
    { intros x. unfold deref. by rewrite Hhe, Hh. }
    split; [|done|by intros [?|?]|cbn; by rewrite B6, Hj|].
    + intros _. split; rewrite ?Ho, ?Hbl, ?Hpl, ?Hp, ?Hhe, ?Hh; try done.
      * apply NoDup_cons. split; [|done]. intros Hin. by apply (L5 pw).
      * intros x [Hx|[Hx|Hx]]; apply L4; auto.
        -- left. rewrite Hown. by right.
        -- apply elem_of_cons in Hx as [->|Hx]; auto.
      * intros x [->|Hx]%elem_of_cons; [done|].
        intros Hx'. apply (L5 x Hx). rewrite Hown. by right.
      * intros x [->|Hx]%elem_of_cons; [done|]. by apply L6.
      * intros x. rewrite Hd. intros [->|Hx]%elem_of_cons; [done|].
        by apply L7.
      * intros x Hx. rewrite Hd. apply L8. rewrite Hown. by right.
      * intros x Hx. rewrite Hd. apply L9. rewrite Hown. by right.
      * intros x Hx Hx'. rewrite Hd.
        destruct (decide (x = pw)) as [->|Hne]; [done|].
        apply L10; [done|]. rewrite Hown. by intros [?|?]%elem_of_cons.
      * rewrite <- Ho. apply Hfifo'. intros x Hx. apply Hd.
    + rewrite Hhe, Hh. apply I.
Qed.

(** The loop of [clearPendingWrites] over a duplicate-free list of valid
    carriers: every waiting one gets its [Done], nothing else moves. *)
Lemma clear_loop (queue : list ptr) : forall w,
  NoDup queue ->
  (forall p, p ∈ queue -> (p < length (heap w))%nat) ->
  let w' := foldl (fun w0 pw => if wait (deref w0 pw) then wg_Done pw w0
                                else releasePendingWrite pw w0) w queue in
  conn w' = conn w /\ stream w' = stream w /\ writer w' = writer w
  /\ reader w' = reader w /\ handler w' = handler w
  /\ blocked w' = blocked w /\ accepted w' = accepted w
  /\ returns w' = returns w /\ length (heap w') = length (heap w)
  /\ (forall p, wait (deref w' p) = wait (deref w p))
  /\ (forall p, wg (deref w' p)
                = if bool_decide (p ∈ queue) && wait (deref w p)
                  then wg (deref w p) - 1 else wg (deref w p)).
Proof.
  induction queue as [|pw queue IH]; intros w Hnd Hv; cbn.
  { split_and!; try done. }
  apply NoDup_cons in Hnd as [Hpw Hnd].
  assert (Hvp : (pw < length (heap w))%nat) by (apply Hv; left).
  set (w1 := if wait (deref w pw) then wg_Done pw w
             else releasePendingWrite pw w).
  assert (H1 : conn w1 = conn w /\ stream w1 = stream w
    /\ writer w1 = writer w /\ reader w1 = reader w /\ handler w1 = handler w
    /\ blocked w1 = blocked w /\ accepted w1 = accepted w
    /\ returns w1 = returns w /\ length (heap w1) = length (heap w)
    /\ (forall p, wait (deref w1 p) = wait (deref w p))
    /\ (forall p, wg (deref w1 p)
                  = if bool_decide (p = pw) && wait (deref w p)
                    then wg (deref w p) - 1 else wg (deref w p))).
  { subst w1. destruct (wait (deref w pw)) eqn:Ew.
    - unfold wg_Done, wg_Add. cbn. rewrite length_alter.
      split_and!; try done.
      + intros p. rewrite deref_alter by done.
        destruct (decide (pw = p)) as [->|]; done.
      + intros p. rewrite deref_alter by done.
        destruct (decide (pw = p)) as [->|Hne].
        * rewrite bool_decide_eq_true_2 by done. rewrite Ew. cbn. lia.
        * rewrite bool_decide_eq_false_2 by (by intros ->). done.
    - cbn. split_and!; try done.
      intros p. change (deref (releasePendingWrite pw w) p) with (deref w p).
      destruct (bool_decide (p = pw)) eqn:E; [|done].
      apply bool_decide_eq_true in E as ->. by rewrite Ew. }
  destruct H1 as (A1 & A2 & A3 & A4 & A5 & A6 & A7 & A8 & A9 & A10 & A11).
  destruct (IH w1 Hnd) as (C1 & C2 & C3 & C4 & C5 & C6 & C7 & C8 & C9 & C10
                           & C11).
  { intros p Hp. rewrite A9. apply Hv. by right. }
  rewrite C1, C2, C3, C4, C5, C6, C7, C8, C9.
  split_and!; try done.
  - intros p. by rewrite C10, A10.
  - intros p. rewrite C11, A10, A11.
    destruct (decide (p = pw)) as [->|Hne].
    + rewrite (bool_decide_eq_true_2 (pw = pw)) by done.
      rewrite (bool_decide_eq_false_2 (pw ∈ queue)) by done.
      rewrite (bool_decide_eq_true_2 (pw ∈ pw :: queue))
        by (apply elem_of_cons; auto).
      done.
    + rewrite (bool_decide_eq_false_2 (p = pw)) by done. cbn.
      destruct (bool_decide (p ∈ queue)) eqn:E.
      * apply bool_decide_eq_true in E.
        rewrite (bool_decide_eq_true_2 (p ∈ pw :: queue))
          by (apply elem_of_cons; auto).
        done.
      * apply bool_decide_eq_false in E.
        rewrite (bool_decide_eq_false_2 (p ∈ pw :: queue)); [done|].
        by intros [?|?]%elem_of_cons.
Qed.

(** [clearPendingWrites] in a state where the writer has been joined. *)
Lemma clearPendingWrites_effect w :
  inv w -> returned w = false -> writer_joined (handler w) = true ->
  let w' := clearPendingWrites w in
  conn w' = conn w /\ stream w' = stream w /\ writer w' = writer w
  /\ reader w' = reader w /\ handler w' = handler w
  /\ blocked w' = blocked w /\ accepted w' = accepted w
  /\ returns w' = returns w
  /\ Forall (fun x => 0 <= wg x) (heap w')
  /\ (forall p, p ∈ blocked w -> wg (deref w' p) = 0).
Proof.
  intros I Hr Hj.
  destruct (inv_joined w I Hj) as [e Ew].
  pose proof (inv_live w I Hr) as [L1 L2 L3 L4 L5 L6 L7 L8 L9 L10 L11].
  assert (Ho : owned w = writerQueue (conn w))
    by (unfold owned, pending; by rewrite Ew).
  rewrite Ho in *.
  destruct (clear_loop (writerQueue (conn w)) w L1)
    as (C1 & C2 & C3 & C4 & C5 & C6 & C7 & C8 & C9 & C10 & C11).
  { intros p Hp. apply L4. auto. }
  unfold clearPendingWrites. cbn.
  split_and!; try done.
  - apply Forall_lookup_2. intros i x Hx.
    assert (Hdx : x = deref (clearPendingWrites w) i).
    { unfold deref, clearPendingWrites. by rewrite Hx. }
    rewrite Hdx. unfold clearPendingWrites. rewrite C11.
    assert (Hi : (i < length (heap w))%nat).
    { rewrite <- C9. by eapply lookup_lt_Some. }
    destruct (lookup_lt_is_Some_2 _ _ Hi) as [y Hy].
    pose proof (Forall_lookup_1 _ _ _ _ (inv_wg w I) Hy) as Hy0.
    assert (Hdy : deref w i = y) by (unfold deref; by rewrite Hy).
    destruct (bool_decide (i ∈ writerQueue (conn w))) eqn:E; cbn;
      [|by rewrite Hdy].
    apply bool_decide_eq_true in E.
    destruct (wait (deref w i)) eqn:Ewt; [|by rewrite Hdy].
    destruct (L8 i E Ewt) as [-> _]. lia.
  - intros p Hp. rewrite C11.
    destruct (bool_decide (p ∈ writerQueue (conn w))) eqn:E; cbn.
    + apply bool_decide_eq_true in E.
      destruct (wait (deref w p)) eqn:Ewt.
      * destruct (L8 p E Ewt) as [-> _]. lia.
      * by destruct (L9 p E Ewt).
    + apply bool_decide_eq_false in E. by apply L10.
Qed.

Lemma inv_AHandleClear w w' :
  inv w -> exec AHandleClear w = Some w' -> inv w'.
Proof.
  intros I. cbn. destruct (handler w) eqn:Eh; try discriminate.
  intros [= <-].
  destruct (clearPendingWrites_effect w I)
    as (C1 & C2 & C3 & C4 & C5 & C6 & C7 & C8 & C9 & C10);
    [unfold returned; by rewrite Eh|by rewrite Eh|].
  split; cbn; rewrite ?C1, ?C2, ?C3, ?C7; try apply I; try done.
  intros _. apply (inv_joined w I). by rewrite Eh.
Qed.

(** Every step preserves the invariant, so every reachable state has it. *)
Lemma inv_step a w w' : inv w -> exec a w = Some w' -> inv w'.
Proof.
  destruct a.
  - apply inv_AWrite.
  - apply inv_AWriteNoWait.
  - apply inv_AWriteReturn.
  - apply inv_AWriterLock.
  - apply inv_AWriterRange.
  - apply inv_AWriterFlush.
  - apply inv_AReaderRead.
  - apply inv_AHandleDone.
  - apply inv_AHandleRecvWriter.
  - apply inv_AHandleRecvReader.
  - apply inv_AHandleClear.
Qed.

Lemma reachable_inv c w : reachable c w -> inv w.
Proof.
  induction 1 as [|w a w' _ IH Hs]; [apply inv_start|].
  by apply (inv_step a w).
Qed.

Lemma run_reachable c tr : forall w w',
  reachable c w -> run tr w = Some w' -> reachable c w'.
Proof.
  induction tr as [|a tr IH]; intros w w' Hr; cbn.
  - by intros [= <-].
  - destruct (exec a w) as [w1|] eqn:E; [|discriminate].
    apply IH. by apply (reach_step c w a).
Qed.

(** [writeLoop] swaps the whole queue out: after the critical section the
    queue is empty and, unless there is nothing to do, the loop ranges over
    exactly what was queued, in queue order. *)
Lemma writeLoop_lock_swaps w :
  writerQueue (conn w) <> [] ->
  writer (writeLoop_lock w) = WRange (writerQueue (conn w)) None
  /\ writerQueue (conn (writeLoop_lock w)) = [].
Proof.
  intros Hq. unfold writeLoop_lock.
  rewrite (bool_decide_eq_false_2 _ Hq), !andb_false_r. done.
Qed.

(** C1. In every state the connection engine can reach, under any
    interleaving of [Write] and [WriteNoWait] calls with the writer, the
    reader and [Handle], the buffers handed to the stream's write call are,
    in order, a prefix of the buffers accepted into the queue; as long as no
    write has failed, the accepted buffers are exactly those written followed
    by those swapped out and those still queued, in that order; and when the
    write loop stops without an error every accepted buffer has been written,
    in acceptance order. *)
Theorem writeLoop_fifo (c : Conn) (w : World) :
  reachable c w ->
  writes (stream w) `prefix_of` accepted w
  /\ (returned w = false -> writer_err w = None ->
      accepted w
      = writes (stream w)
        ++ map (fun p => buf (deref w p)) (pending w)
        ++ map (fun p => buf (deref w p)) (writerQueue (conn w)))
  /\ (writer w = WReturn None \/ writer w = WExited None ->
      writes (stream w) = accepted w)
  /\ (writer w = WLock -> writerQueue (conn w) <> [] ->
      exists w', exec AWriterLock w = Some w'
        /\ writer w' = WRange (writerQueue (conn w)) None
        /\ writerQueue (conn w') = []).
Proof.
  intros R. pose proof (reachable_inv c w R) as I.
  split; [apply I|]. split; [|split].
  - intros Hr He. rewrite <- map_app.
    apply (li_fifo w (inv_live w I Hr) He).
  - intros Hc. by destruct (inv_clean w I Hc) as (_ & _ & ->).
  - intros Hw Hq. cbn. rewrite Hw. eexists. split; [done|].
    by apply writeLoop_lock_swaps.
Qed.

Lemma clear_loop_writer (queue : list ptr) : forall w,
  let w' := foldl (fun w0 pw => if wait (deref w0 pw) then wg_Done pw w0
                                else releasePendingWrite pw w0) w queue in
  stream w' = stream w /\ writer w' = writer w /\ returns w' = returns w.
Proof.
  induction queue as [|pw queue IH]; intros w; cbn; [done|].
  set (w1 := if wait (deref w pw) then _ else _).
  assert (H1 : stream w1 = stream w /\ writer w1 = writer w
               /\ returns w1 = returns w)
    by (subst w1; by destruct (wait (deref w pw))).
  destruct H1 as (H1 & H2 & H3). destruct (IH w1) as (H4 & H5 & H6).
  by rewrite H4, H5, H6.
Qed.

(** Once [err] is set in [writeLoop], no step of any goroutine adds a write to
    the stream, and [err] stays. *)
Lemma sticky_step e a w w' :
  writer_err w = Some e -> exec a w = Some w' ->
  writes (stream w') = writes (stream w) /\ writer_err w' = Some e.
Proof.
  intros He. destruct a; cbn.
  - unfold Write_enter.
    destruct (preparePendingWrite g b true w) as [[pw|err] w1] eqn:Hp;
      intros [= <-];
      destruct (prepare_weak _ _ _ _ _ _ Hp)
        as (P1 & _ & _ & _ & _ & _ & P7 & _);
      cbn; rewrite P1; (split; [done|]); unfold writer_err in *; cbn;
      destruct P7 as [->|[E _]]; try done; by rewrite E in He.
  - unfold WriteNoWait.
    destruct (preparePendingWrite g b false w) as [[pw|err] w1] eqn:Hp;
      intros [= <-];
      destruct (prepare_weak _ _ _ _ _ _ Hp)
        as (P1 & _ & _ & _ & _ & _ & P7 & _);
      cbn; rewrite P1; (split; [done|]); unfold writer_err in *; cbn;
      destruct P7 as [->|[E _]]; try done; by rewrite E in He.
  - unfold Write_leave. destruct (_ && _); [|discriminate]. by intros [= <-].
  - unfold writer_err in He. destruct (writer w); try discriminate.
  - unfold writer_err in He.
    destruct (writer w) as [| |[|pw q] err| |] eqn:Ew; try discriminate.
    pose proof (writeLoop_body_fields res pw err w) as B.
    destruct (writeLoop_body res pw err w) as [err1 w2].
    destruct B as (B1 & B2 & _). intros [= <-]. subst err. cbn.
    by rewrite B1, B2.
  - unfold writer_err in He.
    destruct (writer w) as [| |[|pw q] err| |] eqn:Ew; try discriminate.
    intros [= <-]. subst err. done.
  - destruct (reader w); try discriminate.
    destruct res; by intros [= <-].
  - destruct (handler w); try discriminate. intros [= <-].
    destruct (Handle_stop_writer_fields w)
      as (_ & _ & _ & _ & _ & S6 & _ & S8 & _).
    split; [cbn; by rewrite S6|].
    change (writer_err (Handle_stop_writer w) = Some e). by rewrite S8.
  - unfold Handle_recv_writer, writer_err in *.
    destruct (writer w); try discriminate.
    destruct (handler w); try discriminate; intros [= <-]; cbn;
      by rewrite writes_app, app_nil_r.
  - unfold Handle_recv_reader.
    destruct (reader w); try discriminate.
    destruct (handler w); try discriminate; intros [= <-]; try done.
    destruct (Handle_stop_writer_fields (set_reader RExited w))
      as (_ & _ & _ & _ & _ & S6 & _ & S8 & _).
    split; [cbn; by rewrite S6|].
    change (writer_err (Handle_stop_writer (set_reader RExited w)) = Some e).
    by rewrite S8.
  - destruct (handler w) eqn:Eh; try discriminate. intros [= <-].
    destruct (clear_loop_writer (writerQueue (conn w)) w) as (H1 & H2 & _).
    unfold clearPendingWrites, writer_err in *. cbn. by rewrite H1, H2.
Qed.

Lemma sticky_run e tr : forall w w',
  writer_err w = Some e -> run tr w = Some w' ->
  writes (stream w') = writes (stream w) /\ writer_err w' = Some e.
Proof.
  induction tr as [|a tr IH]; intros w w' He; cbn.
  - by intros [= <-].
  - destruct (exec a w) as [w1|] eqn:E; [|discriminate].
    destruct (sticky_step e a w w1 He E) as [H1 H2].
    intros Hr. destruct (IH w1 w' H2 Hr) as [H3 H4]. by rewrite H3.
Qed.

(** One iteration of the range loop in a reachable state: it always runs, it
    calls the stream's write exactly when no error has been seen, and it
    releases the carrier either way. *)
Lemma range_step_releases c w pw rest err res :
  reachable c w -> writer w = WRange (pw :: rest) err ->
  exists w',
    exec (AWriterRange res) w = Some w'
    /\ writer w' = WRange rest (match err with None => res | Some _ => err end)
    /\ stream w' = match err with
                   | None => stream w ++ [CallWrite (buf (deref w pw))]
                   | Some _ => stream w
                   end
    /\ (if wait (deref w pw)
        then wg (deref w' pw) = 0 /\ is_Some (exec (AWriteReturn pw) w')
        else pw ∈ pendingWritePool w').
Proof.
  intros R Ew. pose proof (reachable_inv c w R) as I.
  assert (L : live_inv w)
    by (apply inv_writer_running; [done|intros e; by rewrite Ew]).
  cbn. rewrite Ew.
  pose proof (writeLoop_body_fields res pw err w) as B.
  destruct (writeLoop_body res pw err w) as [err1 w2].
  destruct B as (B1 & B2 & B3 & B4 & B5 & B6 & B7 & B8 & B9 & B10).
  eexists. split; [done|]. cbn. rewrite B1, B2. split; [done|].
  split; [done|].
  assert (Hpo : pw ∈ owned w)
    by (unfold owned, pending; rewrite Ew; apply elem_of_cons; auto).
  assert (Hv : (pw < length (heap w))%nat) by (apply (li_valid w L); auto).
  destruct (wait (deref w pw)) eqn:Ewt; destruct B10 as [Hh Hp].
  - destruct (li_owned_wait w L pw Hpo Ewt) as [Hwg Hbl].
    assert (Hz : wg (deref w2 pw) = 0).
    { change (deref w2 pw)
        with (deref (with_heap (fun _ => heap w2) w) pw).
      rewrite Hh.
      change (with_heap _ w) with (with_heap (alter (fun x => mkPendingWrite
        (buf x) (wait x) (wg x + -1)) pw) w).
      rewrite deref_alter by done. rewrite decide_True by done. cbn. lia. }
    change (deref (set_writer _ w2) pw) with (deref w2 pw).
    split; [done|]. unfold Write_leave. cbn [blocked set_writer].
    change (deref (set_writer _ w2) pw) with (deref w2 pw).
    rewrite B7, (bool_decide_eq_true_2 _ Hbl), Hz. cbn. eauto.
  - cbn. rewrite Hp. apply elem_of_cons. auto.
Qed.

(** [clearPendingWrites] as [Handle] runs it: afterwards every caller that is
    blocked in [Write] can return. *)
Lemma clear_unblocks c w err :
  reachable c w -> handler w = HClear err ->
  exists w',
    exec AHandleClear w = Some w' /\ handler w' = HReturned err
    /\ blocked w' = blocked w
    /\ forall p, p ∈ blocked w' ->
         wg (deref w' p) = 0 /\ is_Some (exec (AWriteReturn p) w').
Proof.
  intros R Eh. pose proof (reachable_inv c w R) as I.
  destruct (clearPendingWrites_effect w I)
    as (C1 & C2 & C3 & C4 & C5 & C6 & C7 & C8 & C9 & C10);
    [unfold returned; by rewrite Eh|by rewrite Eh|].
  cbn. rewrite Eh. eexists. split; [done|]. cbn. split; [done|].
  split; [done|]. rewrite C6. intros p Hp.
  change (deref (set_handler _ (clearPendingWrites w)) p)
    with (deref (clearPendingWrites w) p).
  split; [by apply C10|].
  unfold Write_leave. cbn [blocked set_handler].
  change (deref (set_handler _ (clearPendingWrites w)) p)
    with (deref (clearPendingWrites w) p).
  rewrite C6, (bool_decide_eq_true_2 _ Hp), (C10 p Hp). cbn. eauto.
Qed.

(** C3. Once the write loop has seen a write error, no later step of the
    engine hands another buffer to the stream and the error stays; every
    iteration of the loop over the swapped-out queue nevertheless runs and
    releases its carrier, whether or not a write was attempted or succeeded:
    a waiting caller's counter drops to zero, so that its [Write] can return,
    and a carrier nobody waits on goes back to the pool; and the buffers still
    queued when [Handle] cleans up are released the same way, after which no
    caller blocked in [Write] is left waiting. *)
Theorem writeLoop_error_sticky_and_queue_released (c : Conn) (w : World) :
  reachable c w ->
  (forall e tr w',
     writer_err w = Some e -> run tr w = Some w' ->
     writes (stream w') = writes (stream w) /\ writer_err w' = Some e)
  /\ (forall pw rest err res,
        writer w = WRange (pw :: rest) err ->
        exists w',
          exec (AWriterRange res) w = Some w'
          /\ writer w'
             = WRange rest (match err with None => res | Some _ => err end)
          /\ stream w' = match err with
                         | None => stream w ++ [CallWrite (buf (deref w pw))]
                         | Some _ => stream w
                         end
          /\ (if wait (deref w pw)
              then wg (deref w' pw) = 0
                   /\ is_Some (exec (AWriteReturn pw) w')
              else pw ∈ pendingWritePool w'))
  /\ (forall err,
        handler w = HClear err ->
        exists w',
          exec AHandleClear w = Some w' /\ handler w' = HReturned err
          /\ blocked w' = blocked w
          /\ forall p, p ∈ blocked w' ->
               wg (deref w' p) = 0 /\ is_Some (exec (AWriteReturn p) w')).
Proof.
  intros R. split; [|split].
  - intros e tr w' He Hr. by apply (sticky_run e tr w w').
  - intros pw rest err res Ew. by apply (range_step_releases c).
  - intros err Eh. by apply (clear_unblocks c).
Qed.

(** What a step can add to the log of returned calls: nothing, the rejection
    of [preparePendingWrite], or a [nil]. *)
Lemma returns_step a w w' :
  exec a w = Some w' ->
  returns w' = returns w
  \/ (writerDone (conn w) = true
      /\ returns w' = returns w ++ [(None, Some ErrShutdown)])
  \/ exists pw, returns w' = returns w ++ [(Some pw, None)].
Proof.
  destruct a; cbn.
  - unfold Write_enter.
    destruct (preparePendingWrite g b true w) as [[pw|err] w1] eqn:Hp;
      intros [= <-];
      destruct (prepare_weak _ _ _ _ _ _ Hp)
        as (_ & _ & _ & _ & _ & P6 & _ & _ & _ & P10 & P11); cbn; rewrite P6;
      [by left|].
    destruct (writerDone (conn w)); [|by destruct (P11 eq_refl)].
    destruct (P10 eq_refl) as [[= ->] _]. auto.
  - unfold WriteNoWait.
    destruct (preparePendingWrite g b false w) as [[pw|err] w1] eqn:Hp;
      intros [= <-];
      destruct (prepare_weak _ _ _ _ _ _ Hp)
        as (_ & _ & _ & _ & _ & P6 & _ & _ & _ & P10 & P11); cbn; rewrite P6;
      [eauto|].
    destruct (writerDone (conn w)); [|by destruct (P11 eq_refl)].
    destruct (P10 eq_refl) as [[= ->] _]. auto.
  - unfold Write_leave. destruct (_ && _); [|discriminate].
    intros [= <-]. cbn. eauto.
  - destruct (writer w); try discriminate. intros [= <-]. left.
    unfold writeLoop_lock. by repeat destruct (_ && _).
  - destruct (writer w) as [| |[|pw rest] err| |]; try discriminate.
    pose proof (writeLoop_body_fields res pw err w) as B.
    destruct (writeLoop_body res pw err w) as [err1 w2].
    destruct B as (_ & _ & _ & _ & _ & _ & _ & _ & B9 & _).
    intros [= <-]. by left.
  - destruct (writer w) as [| |[|pw rest] err| |]; try discriminate.
    intros [= <-]. left. unfold writeLoop_flush. by destruct err, res.
  - destruct (reader w); try discriminate. destruct res; intros [= <-]; auto.
  - destruct (handler w); try discriminate. intros [= <-]. left.
    by destruct (Handle_stop_writer_fields w)
      as (_ & _ & _ & _ & _ & _ & _ & _ & _ & _ & S11 & _).
  - unfold Handle_recv_writer. destruct (writer w); try discriminate.
    destruct (handler w); try discriminate; intros [= <-]; auto.
  - unfold Handle_recv_reader. destruct (reader w); try discriminate.
    destruct (handler w); try discriminate; intros [= <-]; auto.
    left.
    by destruct (Handle_stop_writer_fields (set_reader RExited w))
      as (_ & _ & _ & _ & _ & _ & _ & _ & _ & _ & S11 & _).
  - destruct (handler w); try discriminate. intros [= <-]. left.
    by destruct (clear_loop_writer (writerQueue (conn w)) w) as (_ & _ & H).
Qed.

Lemma returns_reachable c w :
  reachable c w ->
  Forall (fun r => r.2 = None \/ r = (None, Some ErrShutdown)) (returns w).
Proof.
  induction 1 as [|w a w' _ IH Hs]; [by apply Forall_nil|].
  destruct (returns_step a w w' Hs) as [->|[[_ ->]|[pw ->]]]; [done| |].
  - apply Forall_app. split; [done|]. apply Forall_singleton. by right.
  - apply Forall_app. split; [done|]. apply Forall_singleton. by left.
Qed.

(** C4 (as the code has it). A call of [Write] that was accepted and blocked
    returns [nil] when it returns, whatever happened to its buffer and to the
    connection; the only error a [Write] or [WriteNoWait] call ever returns is
    the rejection at enqueue time, taken while the writer-done flag is set.
    A blocked caller is released by the write loop when it comes to the
    caller's buffer in a drain, whether it writes it or not; and [Handle]'s
    cleanup releases every caller that is blocked when it runs. A caller
    that blocks after the cleanup is covered by neither (see C2). *)
Theorem blocked_Write_returns_nil (c : Conn) (w : World) :
  reachable c w ->
  (forall pw w',
     exec (AWriteReturn pw) w = Some w' ->
     returns w' = returns w ++ [(Some pw, None)])
  /\ (forall r, r ∈ returns w -> r.2 = None \/ r = (None, Some ErrShutdown))
  /\ (forall a w' e,
        exec a w = Some w' -> returns w' = returns w ++ [(None, Some e)] ->
        writerDone (conn w) = true /\ e = ErrShutdown)
  /\ (forall err,
        handler w = HClear err ->
        exists w',
          exec AHandleClear w = Some w'
          /\ forall p, p ∈ blocked w' -> is_Some (exec (AWriteReturn p) w'))
  /\ (forall pw rest err res,
        writer w = WRange (pw :: rest) err -> wait (deref w pw) = true ->
        exists w',
          exec (AWriterRange res) w = Some w'
          /\ pw ∈ blocked w' /\ is_Some (exec (AWriteReturn pw) w')).
Proof.
  intros R. split; [|split; [|split; [|split]]].
  - intros pw w'. cbn. unfold Write_leave.
    destruct (_ && _); [|discriminate]. by intros [= <-].
  - intros r Hr.
    by apply (proj1 (Forall_forall _ _) (returns_reachable c w R)).
  - intros a w' e Hs Hr.
    destruct (returns_step a w w' Hs) as [E|[[Hd E]|[pw E]]];
      rewrite E in Hr.
    + apply (f_equal length) in Hr. rewrite length_app in Hr. cbn in Hr.
      lia.
    + apply app_inv_head in Hr. by injection Hr as <-.
    + apply app_inv_head in Hr. discriminate.
  - intros err Eh.
    destruct (clear_unblocks c w err R Eh) as (w' & H1 & _ & _ & H2).
    exists w'. split; [done|]. intros p Hp. by apply H2.
  - intros pw rest err res Ew Hwait.
    destruct (range_step_releases c w pw rest err res R Ew)
      as (w' & H1 & _ & _ & H2).
    rewrite Hwait in H2. destruct H2 as [_ H2].
    exists w'. split; [done|]. split; [|done].
    destruct H2 as [w2 H2]. cbn in H2. unfold Write_leave in H2.
    destruct (bool_decide (pw ∈ blocked w')) eqn:Hb; [|discriminate].
    by apply bool_decide_eq_true in Hb.
Qed.

Lemma deref_alter_wg w f p q :
  (forall x, wg x <= wg (f x)) ->
  wg (deref w q) <= wg (deref (with_heap (alter f p) w) q).
Proof.
  intros Hf. unfold deref. cbn. rewrite list_lookup_alter.
  destruct (decide (p = q)) as [->|]; [|lia].
  destruct (heap w !! q); cbn; [apply Hf|lia].
Qed.

(** [preparePendingWrite] never lowers a wait-group counter. *)
Lemma prepare_wg_mono g b wt w r w1 :
  preparePendingWrite g b wt w = (r, w1) ->
  (length (heap w) <= length (heap w1))%nat
  /\ forall p, (p < length (heap w))%nat -> wg (deref w p) <= wg (deref w1 p).
Proof.
  unfold preparePendingWrite.
  destruct (writerDone (conn w)); [intros [= <- <-]; split; [lia|intros; lia]|].
  destruct (acquirePendingWrite g b wt w) as [pw w0] eqn:Ea.
  intros [= <- <-].
  assert (H0 : (length (heap w) <= length (heap w0))%nat
    /\ forall p, (p < length (heap w))%nat ->
                 wg (deref w p) <= wg (deref w0 p)).
  { unfold acquirePendingWrite, pool_Get in Ea.
    assert (Hfresh : forall p, (p < length (heap w))%nat ->
      wg (deref w p)
      <= wg (deref (with_heap (alter (fun x => mkPendingWrite b wt (wg x))
                                     (length (heap w)))
               (with_heap (fun h => h ++ [zero_pendingWrite]) w)) p)).
    { intros p Hp.
      rewrite <- (deref_app_old w zero_pendingWrite p Hp) at 1.
      apply deref_alter_wg. intros x. cbn. lia. }
    destruct g as [i|]; [destruct (pendingWritePool w !! i)|];
      injection Ea as <- <-; cbn; rewrite length_alter, ?length_app; cbn.
    - split; [lia|]. intros p Hp.
      apply (deref_alter_wg (with_pool (delete i) w)). intros x. cbn. lia.
    - split; [lia|done].
    - split; [lia|done]. }
  destruct H0 as [H1 H2].
  destruct (cond_Signal_fields
    (with_conn (fun c => set_queue (writerQueue c ++ [pw]) c)
       (if wt then wg_Add pw 1 w0 else w0))) as (_ & S2 & _).
  unfold deref. rewrite S2. cbn.
  assert (H3 : length (heap (if wt then wg_Add pw 1 w0 else w0))
               = length (heap w0))
    by (destruct wt; cbn; by rewrite ?length_alter).
  rewrite H3. split; [done|]. intros p Hp.
  etransitivity; [apply (H2 p Hp)|].
  destruct wt; [|done].
  apply (deref_alter_wg w0). intros x. cbn. lia.
Qed.

(** After [Handle] has returned, nothing is left that calls [Done]: no
    counter ever goes down again, and the engine stays as it is. *)
Lemma abandoned_step a w w' e :
  returned w = true -> writer w = WExited e -> exec a w = Some w' ->
  returned w' = true /\ writer w' = WExited e
  /\ (length (heap w) <= length (heap w'))%nat
  /\ forall p, (p < length (heap w))%nat -> wg (deref w p) <= wg (deref w' p).
Proof.
  intros Hr Hw. unfold returned in Hr.
  destruct (handler w) eqn:Eh; try discriminate.
  destruct a; cbn; rewrite ?Hw, ?Eh; try discriminate.
  - unfold Write_enter.
    destruct (preparePendingWrite g b true w) as [[pw|err1] w1] eqn:Hp;
      intros [= <-];
      destruct (prepare_weak _ _ _ _ _ _ Hp)
        as (_ & P2 & _ & _ & _ & _ & P7 & _);
      destruct (prepare_wg_mono _ _ _ _ _ _ Hp) as [M1 M2];
      unfold returned; cbn; rewrite P2, Eh;
      (split; [done|]);
      (split; [destruct P7 as [->|[E _]]; [done|congruence]|]); done.
  - unfold WriteNoWait.
    destruct (preparePendingWrite g b false w) as [[pw|err1] w1] eqn:Hp;
      intros [= <-];
      destruct (prepare_weak _ _ _ _ _ _ Hp)
        as (_ & P2 & _ & _ & _ & _ & P7 & _);
      destruct (prepare_wg_mono _ _ _ _ _ _ Hp) as [M1 M2];
      unfold returned; cbn; rewrite P2, Eh;
      (split; [done|]);
      (split; [destruct P7 as [->|[E _]]; [done|congruence]|]); done.
  - unfold Write_leave. destruct (_ && _); [|discriminate].
    intros [= <-]. unfold returned. cbn. rewrite Eh.
    split_and!; try done; intros; lia.
  - destruct (reader w); try discriminate.
    destruct res; intros [= <-]; unfold returned; cbn; rewrite Eh;
      split_and!; try done; intros; lia.
  - unfold Handle_recv_writer. rewrite Hw. discriminate.
  - unfold Handle_recv_reader. rewrite Eh.
    destruct (reader w); discriminate.
Qed.

Lemma abandoned_run tr : forall w w' e p,
  returned w = true -> writer w = WExited e -> run tr w = Some w' ->
  (p < length (heap w))%nat -> wg (deref w p) <= wg (deref w' p).
Proof.
  induction tr as [|a tr IH]; intros w w' e p Hr Hw; cbn.
  - intros [= <-] _. lia.
  - destruct (exec a w) as [w1|] eqn:E; [|discriminate].
    destruct (abandoned_step a w w1 e Hr Hw E) as (A1 & A2 & A3 & A4).
    intros Hrun Hp. etransitivity; [by apply A4|].
    apply (IH w1 w' e p A1 A2 Hrun). lia.
Qed.

End Engine.

(** * Concrete runs *)

Module Examples.
Import Go Conn.

(** A connection with every option left unset. *)
Definition conn0 : Conn := mkConn None None 0 0 0 0 0 [] false 0.

Definition hello : list Byte.byte := [Byte.x68; Byte.x69].
Definition again : list Byte.byte := [Byte.x6f; Byte.x6b].

Definition write_failed : error := io_error 1.
Definition read_failed : error := io_error 2.

(** A caller blocks in [Write]; the writer swaps the queue out and its write
    on the stream fails. *)
Definition trace_failed_write : list action :=
  [AWrite None hello; AWriterLock; AWriterRange (Some write_failed)].

(** A [WriteNoWait]; the write fails; the write loop returns the error;
    [Handle] takes its writer branch: closes the stream, waits for the reader,
    cleans up and returns. *)
Definition trace_writer_branch : list action :=
  [AWriteNoWait None hello; AWriterLock; AWriterRange (Some write_failed);
   AWriterFlush None; AHandleRecvWriter; AReaderRead (Some read_failed);
   AHandleRecvReader; AHandleClear].

(** Two buffers queued by different callers, written, flushed; then
    cancellation. *)
Definition trace_two_writes : list action :=
  [AWrite None hello; AWriteNoWait None again; AWriterLock;
   AWriterRange None; AWriterRange None; AWriterFlush None; AWriteReturn 0%nat;
   AHandleDone; AWriterLock; AHandleRecvWriter].

Definition after (tr : list action) : World :=
  default (start conn0) (run tr (start conn0)).

(** The connection is known to be unusable: a write has failed, the reader
    has returned its error, or the writer-done flag is set. *)
Definition unusable (w : World) : Prop :=
  writer_err w <> None \/ (exists e, reader w = RReturn e)
  \/ writerDone (conn w) = true.

(** The reading of the specification under which a caller blocked in [Write]
    on an unusable connection gets an error from that call. *)
Definition blocked_Write_gets_error : Prop :=
  forall c w pw w',
    reachable c w -> unusable w -> pw ∈ blocked w ->
    exec (AWriteReturn pw) w = Some w' ->
    exists e, last (returns w') = Some (Some pw, Some e).

End Examples.

Section EngineRuns.
Import Go Conn Examples.

Lemma after_reachable tr w :
  run tr (start conn0) = Some w -> reachable conn0 w.
Proof. apply run_reachable. constructor. Qed.

Lemma writeLoop_fifo_witness :
  reachable conn0 (after trace_two_writes)
  /\ writes (stream (after trace_two_writes)) = [hello; again]
  /\ accepted (after trace_two_writes) = [hello; again].
Proof.
  assert (R : reachable conn0 (after trace_two_writes))
    by (apply (after_reachable trace_two_writes); vm_compute; reflexivity).
  split; [exact R|].
  destruct (writeLoop_fifo conn0 (after trace_two_writes) R)
    as (_ & _ & H & _).
  rewrite H; [|right; vm_compute; reflexivity].
  split; vm_compute; reflexivity.
Defined.

Lemma writeLoop_error_sticky_witness :
  reachable conn0 (after trace_failed_write)
  /\ writer_err (after trace_failed_write) = Some write_failed
  /\ forall tr w',
       run tr (after trace_failed_write) = Some w' ->
       writes (stream w') = [hello].
Proof.
  assert (R : reachable conn0 (after trace_failed_write))
    by (apply (after_reachable trace_failed_write); vm_compute; reflexivity).
  split; [exact R|]. split; [vm_compute; reflexivity|].
  intros tr w' Hr.
  destruct (writeLoop_error_sticky_and_queue_released conn0 _ R)
    as (H & _ & _).
  destruct (H write_failed tr w') as [H1 _];
    [vm_compute; reflexivity|exact Hr|].
  rewrite H1. vm_compute. reflexivity.
Defined.

(** C4, as stated, fails: a caller blocks in [Write], the write of its buffer
    fails, and the call returns [nil]. *)
Lemma blocked_Write_gets_nil_after_failed_write : ~ blocked_Write_gets_error.
Proof.
  intros H.
  destruct (H conn0 (after trace_failed_write) 0%nat
              (after (trace_failed_write ++ [AWriteReturn 0%nat])))
    as [e He].
  - apply (after_reachable trace_failed_write). vm_compute. reflexivity.
  - left. vm_compute. discriminate.
  - apply elem_of_cons. by left.
  - vm_compute. reflexivity.
  - vm_compute in He. discriminate.
Qed.

Lemma blocked_Write_returns_nil_witness :
  reachable conn0 (after trace_failed_write)
  /\ returns (after (trace_failed_write ++ [AWriteReturn 0%nat]))
     = [(Some 0%nat, None)].
Proof.
  assert (R : reachable conn0 (after trace_failed_write))
    by (apply (after_reachable trace_failed_write); vm_compute; reflexivity).
  split; [exact R|].
  destruct (blocked_Write_returns_nil conn0 _ R) as (H & _).
  rewrite (H 0%nat (after (trace_failed_write ++ [AWriteReturn 0%nat])));
    vm_compute; reflexivity.
Defined.

(** C2 at the input where the code departs from it: the stream's write fails,
    [Handle] takes its writer branch and returns that error, and the
    writer-done flag is still unset. A [Write] made afterwards is not
    rejected: it is queued behind a writer that no longer exists, and the
    caller never returns. *)
Theorem Write_accepted_after_write_error :
  let w := after trace_writer_branch in
  run trace_writer_branch (start conn0) = Some w
  /\ handler w = HReturned (Some write_failed)
  /\ writer w = WExited (Some write_failed)
  /\ writerDone (conn w) = false
  /\ let w1 := Write_enter None again w in
     returns w1 = returns w
     /\ writerQueue (conn w1) = writerQueue (conn w) ++ [1%nat]
     /\ blocked w1 = [1%nat]
     /\ forall tr w2, run tr w1 = Some w2 ->
                      exec (AWriteReturn 1%nat) w2 = None.
Proof.
  cbv zeta. split_and!; try (vm_compute; reflexivity).
  intros tr w2 Hr.
  assert (Hret : returned (Write_enter None again (after trace_writer_branch))
                 = true) by (vm_compute; reflexivity).
  assert (Hw : writer (Write_enter None again (after trace_writer_branch))
               = WExited (Some write_failed)) by (vm_compute; reflexivity).
  pose proof (abandoned_run tr _ w2 (Some write_failed) 1%nat
                Hret Hw Hr) as H.
  assert (H1 : 1 <= wg (deref w2 1%nat)).
  { etransitivity; [|apply H; vm_compute; lia]. vm_compute. discriminate. }
  cbn. unfold Write_leave.
  destruct (wg (deref w2 1%nat) =? 0) eqn:E; [|by rewrite andb_false_r].
  apply Z.eqb_eq in E. lia.
Qed.

End EngineRuns.

(** * The server: what every reachable state satisfies *)

Section ServerInvariant.
Import Go Server.

Implicit Types (w : World) (s : Server).

Lemma set_task_length old new l :
  old ∈ l ->
  length (set_task old new l)
  = (length l - match new with Some _ => 0 | None => 1 end)%nat.
Proof.
  induction l as [|x l IH]; [by intros ?%elem_of_nil|].
  intros Hin. cbn. destruct (decide (x = old)) as [->|Hne].
  - destruct new; cbn; lia.
  - apply elem_of_cons in Hin as [->|Hin]; [done|].
    cbn. rewrite (IH Hin). destruct new; [lia|].
    destruct l; [by apply elem_of_nil in Hin|cbn; lia].
Qed.

Lemma set_task_clients old new l :
  old ∈ l ->
  (length (filter (fun ct => ct.2 = TClient) (set_task old new l))
   + (if decide (old.2 = TClient) then 1 else 0)
   = length (filter (fun ct => ct.2 = TClient) l)
     + match new with
       | Some y => if decide (y.2 = TClient) then 1 else 0
       | None => 0
       end)%nat.
Proof.
  induction l as [|x l IH]; [by intros ?%elem_of_nil|].
  intros Hin. cbn [set_task]. destruct (decide (x = old)) as [->|Hne].
  - rewrite filter_cons. destruct new as [y|].
    + rewrite filter_cons.
      destruct (decide (old.2 = TClient)), (decide (y.2 = TClient)); cbn; lia.
    + destruct (decide (old.2 = TClient)); cbn; lia.
  - apply elem_of_cons in Hin as [->|Hin]; [done|].
    rewrite !filter_cons. specialize (IH Hin).
    destruct (decide (x.2 = TClient)); cbn; lia.
Qed.

Lemma set_task_subset old new l x :
  x ∈ set_task old new l -> x ∈ l \/ new = Some x.
Proof.
  induction l as [|y l IH]; cbn; [auto|].
  destruct (decide (y = old)) as [->|Hne].
  - destruct new as [z|].
    + intros [->|?]%elem_of_cons; [auto|]. left. apply elem_of_cons. auto.
    + intros ?. left. apply elem_of_cons. auto.
  - intros [->|Hx]%elem_of_cons.
    + left. apply elem_of_cons. auto.
    + destruct (IH Hx); [|auto]. left. apply elem_of_cons. auto.
Qed.

(** The connection [Serve] holds between [Accept] and the [go] statement. *)
Definition current (w : World) : option nat :=
  match serve w with
  | SSelect c | SWaitSlot c _ | SSpawn c => Some c
  | _ => None
  end.

Definition holds_slot (w : World) : Z :=
  match serve w with
  | SSpawn _ => 1
  | _ => 0
  end.

Record sinv (s0 : Server) w : Prop := {
  si_max : MaxConns (srv w) = MaxConns s0;
  si_wait : MaxConnWaitTimeout (srv w) = MaxConnWaitTimeout s0;
  si_started : serve w <> SNotStarted -> once (srv w) = true;
  si_uninit : once (srv w) = false -> tasks w = [];
  si_cap : once (srv w) = true -> sem_cap (srv w) = getMaxConns s0;
  si_sem : sem_len (srv w) = Z.of_nat (length (clients w)) + holds_slot w;
  si_bound : once (srv w) = true -> sem_len (srv w) <= sem_cap (srv w);
  si_wg : wg (srv w) = Z.of_nat (length (tasks w));
  si_timer : forall c d,
    serve w = SWaitSlot c d -> d = getMaxConnWaitTimeout s0;
  si_current : forall c, current w = Some c -> next_conn w = S c;
  si_ids : forall c,
    c ∈ handled w \/ c ∈ rejected w ->
    (c < match current w with Some c' => c' | None => next_conn w end)%nat;
  si_rejected : forall c,
    c ∈ rejected w -> c ∈ closed w /\ (c ∉ handled w);
  si_done :
    done_closed (srv w) = true ->
    once (srv w) = true /\ (0 < shutdown_waiting w + shutdown_returned w)%nat;
  si_not_done :
    done_closed (srv w) = false ->
    shutdown_waiting w = 0%nat /\ shutdown_returned w = 0%nat
}.

Lemma sinv_start s0 : fresh s0 -> sinv s0 (start s0).
Proof.
  intros (F1 & F2 & F3 & F4 & F5).
  split; cbn; try done.
  - by rewrite F1.
  - by rewrite F1.
  - intros c [?%elem_of_nil|?%elem_of_nil]; done.
  - by intros c ?%elem_of_nil.
  - by rewrite F5.
Qed.

Ltac sinv_pre I :=
  destruct I as [I1 I2 I3 I3' I4 I5 I6 I7 I8 I9 I10 I11 I12 I13];
  unfold clients, holds_slot, current in *.

Ltac sinv_fin :=
  split; cbn -[filter]; unfold clients, holds_slot, current; cbn -[filter];
  try done; try lia; try congruence; auto.

Lemma getMaxConns_pos s :
  0 < getMaxConns s.
Proof.
  unfold getMaxConns, DefaultMaxServerConns.
  destruct (Z.leb_spec (MaxConns s) 0); lia.
Qed.

Lemma sinv_AServe s0 w w' :
  sinv s0 w -> exec AServe w = Some w' -> sinv s0 w'.
Proof.
  intros I. unfold exec. destruct (panic w); [discriminate|].
  destruct (serve w) eqn:Es; try discriminate. intros [= <-].
  sinv_pre I. rewrite Es in *.
  destruct (once (srv w)) eqn:Eo.
  - assert (E : once_Do_init (srv w) = srv w)
      by (unfold once_Do_init; by rewrite Eo).
    split; cbn; rewrite ?E, ?Eo; unfold clients, holds_slot, current; cbn;
      try done; try congruence; auto.
  - assert (E : once_Do_init (srv w) = set_once true (init (srv w)))
      by (unfold once_Do_init; by rewrite Eo).
    pose proof (I3' eq_refl) as T. rewrite T in *.
    assert (Hd : done_closed (srv w) = false).
    { destruct (done_closed (srv w)); [|done]. by destruct I12. }
    destruct (I13 Hd) as [W1 W2].
    split; cbn; rewrite ?E, ?T; unfold clients, holds_slot, current; cbn;
      try done; try congruence; auto.
    + intros _. unfold getMaxConns. by rewrite I1.
    + intros _. pose proof (getMaxConns_pos (srv w)). lia.
Qed.

Lemma sinv_AAccept s0 e w w' :
  sinv s0 w -> exec (AAccept e) w = Some w' -> sinv s0 w'.
Proof.
  intros I. unfold exec. destruct (panic w); [discriminate|].
  destruct e as [e|]; destruct (serve w) eqn:Es; try discriminate.
  - sinv_pre I. rewrite Es in *.
    destruct (Serve_on_accept_error e); intros [= <-]; sinv_fin.
  - intros [= <-]. sinv_pre I. rewrite Es in *. sinv_fin.
Qed.

Lemma Serve_after_select_inv s0 conn ok w :
  sinv s0 w -> current w = Some conn -> holds_slot w = 0 ->
  (ok = true -> sem_len (srv w) < sem_cap (srv w)) ->
  sinv s0 (Serve_after_select conn
             (ok, if ok then sem_send (srv w) else srv w) w).
Proof.
  intros I Hc Hh Hok.
  assert (Hs : serve w <> SNotStarted).
  { intros E. unfold current in Hc. by rewrite E in Hc. }
  sinv_pre I. rewrite Hc in I10. pose proof (I9 conn Hc) as Hn.
  destruct ok; cbn.
  - rewrite Hh in *. sinv_fin.
  - unfold Serve_reject. rewrite Hh in *. sinv_fin.
    + intros c [Hin|[->|Hin]%elem_of_cons].
      * specialize (I10 c (or_introl Hin)). lia.
      * lia.
      * specialize (I10 c (or_intror Hin)). lia.
    + intros c [->|Hin]%elem_of_cons.
      * split; [apply elem_of_cons; auto|]. intros Hin.
        specialize (I10 conn (or_introl Hin)). lia.
      * destruct (I11 c Hin). split; [apply elem_of_cons; auto|done].
Qed.

Lemma sinv_ASelect s0 pick w w' :
  sinv s0 w -> exec (ASelect pick) w = Some w' -> sinv s0 w'.
Proof.
  intros I. unfold exec. destruct (panic w); [discriminate|].
  destruct (serve w) eqn:Es; try discriminate.
  assert (Hc : current w = Some conn) by (unfold current; by rewrite Es).
  assert (Hh : holds_slot w = 0) by (unfold holds_slot; by rewrite Es).
  unfold serverAvailable_try, sem_ready.
  destruct (done_closed (srv w)),
    (Z.ltb_spec (sem_len (srv w)) (sem_cap (srv w)));
    try destruct pick; intros [= <-];
    try (apply (Serve_after_select_inv s0 conn true w); done);
    try (apply (Serve_after_select_inv s0 conn false w); done).
  all: sinv_pre I; rewrite Es in *; sinv_fin.
  all: intros c d [= <- <-]; unfold getMaxConnWaitTimeout; by rewrite I2.
Qed.

Lemma sinv_AWaitSlot s0 ev w w' :
  sinv s0 w -> exec (AWaitSlot ev) w = Some w' -> sinv s0 w'.
Proof.
  intros I. unfold exec. destruct (panic w); [discriminate|].
  destruct (serve w) eqn:Es; try discriminate.
  assert (Hc : current w = Some conn) by (unfold current; by rewrite Es).
  assert (Hh : holds_slot w = 0) by (unfold holds_slot; by rewrite Es).
  unfold serverAvailable_wait, sem_ready.
  destruct ev.
  - intros [= <-]. apply (Serve_after_select_inv s0 conn false w); done.
  - destruct (done_closed (srv w)); [|discriminate].
    intros [= <-]. apply (Serve_after_select_inv s0 conn false w); done.
  - destruct (Z.ltb_spec (sem_len (srv w)) (sem_cap (srv w))); [|discriminate].
    intros [= <-]. apply (Serve_after_select_inv s0 conn true w); done.
Qed.

Lemma sinv_ASpawn s0 w w' :
  sinv s0 w -> exec ASpawn w = Some w' -> sinv s0 w'.
Proof.
  intros I. unfold exec. destruct (panic w); [discriminate|].
  destruct (serve w) eqn:Es; try discriminate. intros [= <-].
  assert (Hs : serve w <> SNotStarted) by (by rewrite Es).
  sinv_pre I. rewrite Es in *. pose proof (I9 conn eq_refl) as Hn.
  unfold Serve_spawn. sinv_fin.
  - intros Ho. specialize (I3 Hs). congruence.
  - rewrite filter_cons_True by done. rewrite length_cons. lia.
  - intros c [[->|Hin]%elem_of_cons|Hin].
    + lia.
    + specialize (I10 c (or_introl Hin)). lia.
    + specialize (I10 c (or_intror Hin)). lia.
  - intros c Hin. destruct (I11 c Hin) as [? Hno]. split; [done|].
    intros [->|?]%elem_of_cons; [|done].
    specialize (I10 conn (or_intror Hin)). lia.
Qed.

Lemma sinv_ABackoff s0 ev w w' :
  sinv s0 w -> exec (ABackoff ev) w = Some w' -> sinv s0 w'.
Proof.
  intros I. unfold exec. destruct (panic w); [discriminate|].
  destruct (serve w) eqn:Es; try discriminate.
  destruct (wait ev (srv w)) as [[|]|]; intros [= <-];
    sinv_pre I; rewrite Es in *; sinv_fin.
Qed.

Lemma sinv_AClientReturn s0 conn env w w' :
  sinv s0 w -> exec (AClientReturn conn env) w = Some w' -> sinv s0 w'.
Proof.
  intros I. unfold exec. destruct (panic w); [discriminate|].
  destruct (bool_decide _) eqn:Hin; [|discriminate].
  apply bool_decide_eq_true in Hin.
  unfold client, sem_recv. destruct (client_body (srv w) env) as [calls err].
  destruct (0 <? sem_len (srv w)) eqn:Hpos; [|discriminate].
  intros [= <-].
  pose proof (set_task_clients (conn, TClient) (Some (conn, TClosing))
                _ Hin) as Hcl.
  pose proof (set_task_length (conn, TClient) (Some (conn, TClosing))
                _ Hin) as Hlen.
  cbn [snd] in Hcl. rewrite decide_True in Hcl by done.
  rewrite decide_False in Hcl by done.
  apply Z.ltb_lt in Hpos.
  sinv_pre I. sinv_fin.
  - intros Ho. rewrite (I3' Ho) in Hin. by apply elem_of_nil in Hin.
  - intros Ho. specialize (I6 Ho). lia.
Qed.

Lemma sinv_ATaskEnd s0 conn w w' :
  sinv s0 w -> exec (ATaskEnd conn) w = Some w' -> sinv s0 w'.
Proof.
  intros I. unfold exec. destruct (panic w); [discriminate|].
  destruct (bool_decide _) eqn:E; [|discriminate].
  apply bool_decide_eq_true in E. intros [= <-].
  pose proof (set_task_clients (conn, TClosing) None _ E) as Hcl.
  pose proof (set_task_length (conn, TClosing) None _ E) as Hlen.
  cbn [snd] in Hcl. rewrite decide_False in Hcl by done.
  assert (Hne : (0 < length (tasks w))%nat).
  { destruct (tasks w); [by apply elem_of_nil in E|cbn; lia]. }
  sinv_pre I. sinv_fin.
  - intros Ho. rewrite (I3' Ho) in E. by apply elem_of_nil in E.
  - intros c Hin. destruct (I11 c Hin). split; [apply elem_of_cons; auto|done].
Qed.

Lemma sinv_AShutdown s0 w w' :
  sinv s0 w -> exec AShutdown w = Some w' -> sinv s0 w'.
Proof.
  intros I. unfold exec. destruct (panic w); [discriminate|].
  intros [= <-]. unfold Shutdown_enter.
  sinv_pre I.
  destruct (once (srv w)) eqn:Eo.
  - assert (E : once_Do_init (srv w) = srv w)
      by (unfold once_Do_init; by rewrite Eo).
    rewrite E. destruct (done_closed (srv w)) eqn:Ed; sinv_fin;
      rewrite ?Eo, ?Ed; try done; try (intros _; split; [done|lia]).
  - assert (E : once_Do_init (srv w) = set_once true (init (srv w)))
      by (unfold once_Do_init; by rewrite Eo).
    assert (Es : serve w = SNotStarted).
    { destruct (serve w) eqn:Es; try done; by specialize (I3 ltac:(done)). }
    pose proof (I3' eq_refl) as T. rewrite T, Es in *.
    rewrite E. cbn.
    split; cbn; rewrite ?T, ?Es; unfold clients, holds_slot, current; cbn;
      rewrite ?T, ?Es; try done; try congruence; auto;
      try (intros _; split; [done|lia]).
    + intros _. unfold getMaxConns. by rewrite I1.
    + intros _. pose proof (getMaxConns_pos (srv w)). lia.
Qed.

Lemma sinv_AShutdownReturn s0 w w' :
  sinv s0 w -> exec AShutdownReturn w = Some w' -> sinv s0 w'.
Proof.
  intros I. unfold exec. destruct (panic w); [discriminate|].
  destruct (shutdown_waiting w) as [|n] eqn:Ew; [discriminate|].
  destruct (wg (srv w) =? 0); [|discriminate]. intros [= <-].
  sinv_pre I. sinv_fin.
  - intros Hd. destruct (I12 Hd). split; [done|lia].
  - intros Hd. destruct (I13 Hd). lia.
Qed.

Lemma sinv_step s0 a w w' : sinv s0 w -> exec a w = Some w' -> sinv s0 w'.
Proof.
  destruct a.
  - apply sinv_AServe.
  - apply sinv_AAccept.
  - apply sinv_ASelect.
  - apply sinv_AWaitSlot.
  - apply sinv_ASpawn.
  - apply sinv_ABackoff.
  - apply sinv_AClientReturn.
  - apply sinv_ATaskEnd.
  - apply sinv_AShutdown.
  - apply sinv_AShutdownReturn.
Qed.

Lemma reachable_sinv s0 w : fresh s0 -> reachable s0 w -> sinv s0 w.
Proof.
  intros F. induction 1 as [|w a w' _ IH Hs]; [by apply sinv_start|].
  by apply (sinv_step s0 a w).
Qed.

Lemma server_run_reachable s0 tr : forall w w',
  reachable s0 w -> run tr w = Some w' -> reachable s0 w'.
Proof.
  induction tr as [|a tr IH]; intros w w' Hr; cbn.
  - by intros [= <-].
  - destruct (exec a w) as [w1|] eqn:E; [|discriminate].
    apply IH. by apply (reach_step s0 w a).
Qed.

Lemma filter_length_pos {A} (P : A -> Prop) `{!forall x, Decision (P x)}
    (l : list A) (x : A) :
  x ∈ l -> P x -> (0 < length (filter P l))%nat.
Proof.
  intros Hin HP.
  assert (Hx : x ∈ filter P l) by (by apply list_elem_of_filter).
  destruct (filter P l); [by apply elem_of_nil in Hx|cbn; lia].
Qed.

(** C6. On a server configured with [MaxConns = N], N positive: in every
    reachable state at most N connections are inside [client], and the slots
    taken from the semaphore are exactly those of the connections inside
    [client] plus the one [Serve] may hold between [serverAvailable] and the
    [go] statement; a connection waiting for a slot waits on a timer armed at
    [getMaxConnWaitTimeout], and when the timer fires first the raw stream is
    closed, the accept loop goes on, and no task is started for it; a
    connection turned away was closed and never handed to [client]; and
    [client] can always return, giving its slot back whatever its calls
    returned. *)
Theorem admission_bound (s0 : Server) (N : Z) (w : World) :
  fresh s0 -> MaxConns s0 = N -> 0 < N -> reachable s0 w ->
  Z.of_nat (length (clients w)) <= N
  /\ sem_len (srv w) = Z.of_nat (length (clients w)) + holds_slot w
  /\ (once (srv w) = true -> sem_cap (srv w) = N)
  /\ (forall conn d,
        panic w = None -> serve w = SWaitSlot conn d ->
        d = getMaxConnWaitTimeout s0
        /\ exists w',
             exec (AWaitSlot CaseTimer) w = Some w'
             /\ serve w' = SAccept /\ conn ∈ closed w' /\ conn ∈ rejected w'
             /\ tasks w' = tasks w /\ srv w' = srv w)
  /\ (forall c, c ∈ rejected w -> c ∈ closed w /\ (c ∉ handled w))
  /\ (forall conn env,
        panic w = None -> (conn, TClient) ∈ tasks w ->
        exists w',
          exec (AClientReturn conn env) w = Some w'
          /\ sem_len (srv w') = sem_len (srv w) - 1
          /\ (length (clients w') + 1 = length (clients w))%nat).
Proof.
  intros F HN Hpos R.
  pose proof (reachable_sinv s0 w F R) as I.
  assert (Hcap : getMaxConns s0 = N).
  { unfold getMaxConns. rewrite HN. destruct (Z.leb_spec N 0); [lia|done]. }
  assert (Hh : 0 <= holds_slot w)
    by (unfold holds_slot; destruct (serve w); lia).
  split_and!.
  - destruct (once (srv w)) eqn:Eo.
    + pose proof (si_sem s0 w I). pose proof (si_bound s0 w I Eo).
      pose proof (si_cap s0 w I Eo). lia.
    + unfold clients. rewrite (si_uninit s0 w I Eo). cbn. lia.
  - apply I.
  - intros Eo. rewrite <- Hcap. by apply I.
  - intros conn d Hp Es. split; [by apply (si_timer s0 w I conn)|].
    unfold exec. rewrite Hp, Es. cbn. eexists. split; [done|].
    cbn. split_and!; try done; apply elem_of_cons; auto.
  - apply I.
  - intros conn env Hp Hin.
    assert (Hc : (0 < length (clients w))%nat)
      by (by apply (filter_length_pos _ _ (conn, TClient))).
    pose proof (si_sem s0 w I) as Hs.
    unfold exec. rewrite Hp.
    rewrite (bool_decide_eq_true_2 _ Hin).
    unfold client, sem_recv.
    destruct (client_body (srv w) env) as [calls err].
    rewrite (proj2 (Z.ltb_lt 0 (sem_len (srv w)))) by lia.
    eexists. split; [done|]. cbn. split; [done|].
    pose proof (set_task_clients (conn, TClient) (Some (conn, TClosing))
                  _ Hin) as Hcl.
    cbn [snd] in Hcl. rewrite decide_True in Hcl by done.
    rewrite decide_False in Hcl by done. unfold clients. cbn -[filter]. lia.
Qed.

End ServerInvariant.

(** * The server: accept errors, shutdown, options *)

Section ServerClaims.
Import Go Server.

(** C7. [Serve] sorts an error of [Accept] into exactly three classes: the
    benign ones (end of stream, listener closed) make it return [nil]; a
    temporary network error makes it wait 100 ms and accept again, unless the
    shutdown signal arrives during the wait, in which case it returns [nil];
    any other error is returned. *)
Theorem Serve_accept_error_classes (e : accept_error) (w : World) :
  Serve_on_accept_error e
  = (if benign e then ReturnNil
     else if temporary e then Backoff (100 * Millisecond)
     else ReturnErr (the_error e))
  /\ 100 * Millisecond = 100000000
  /\ (panic w = None -> serve w = SAccept ->
      exec (AAccept (Some e)) w
      = Some (set_serve
                (if benign e then SReturned None
                 else if temporary e then SBackoff (100 * Millisecond)
                 else SReturned (Some (the_error e))) w))
  /\ (forall d,
        panic w = None -> serve w = SBackoff d ->
        exec (ABackoff CaseTimer) w = Some (set_serve SAccept w)
        /\ exec (ABackoff CaseDone) w
           = (if done_closed (srv w)
              then Some (set_serve (SReturned None) w) else None)).
Proof.
  assert (H : Serve_on_accept_error e
    = (if benign e then ReturnNil
       else if temporary e then Backoff (100 * Millisecond)
       else ReturnErr (the_error e))).
  { unfold Serve_on_accept_error, benign, temporary.
    destruct (is_EOF e); [done|]. cbn.
    destruct (as_OpError e) as [[msg t]|]; [|done].
    destruct (String.eqb msg _); [done|]. by destruct t. }
  split; [exact H|]. split; [reflexivity|]. split.
  - intros Hp Hs. unfold exec. rewrite Hp, Hs, H.
    destruct (benign e); [done|]. by destruct (temporary e).
  - intros d Hp Hs. unfold exec. rewrite Hp, Hs. cbn.
    split; [done|]. by destruct (done_closed (srv w)).
Qed.

(** The reading of the specification under which [Shutdown] can be called
    again: from any state the server reaches without a panic, a call of
    [Shutdown] does not panic. *)
Definition Shutdown_idempotent : Prop :=
  forall s0 w w',
    fresh s0 -> reachable s0 w -> panic w = None ->
    exec AShutdown w = Some w' -> panic w' = None.

(** C8 (as the code has it). A call of [Shutdown] made while the cancellation
    channel is still open closes it and makes the caller wait; the wait ends
    only in a state where the wait group is at zero and no task started by
    [Serve] is left; a call made once the channel is closed, that is after
    any earlier call, panics on closing it again. *)
Theorem Shutdown_once_then_panics (s0 : Server) (w : World) :
  fresh s0 -> reachable s0 w -> panic w = None ->
  (shutdown_waiting w = 0%nat -> shutdown_returned w = 0%nat ->
   exists w',
     exec AShutdown w = Some w' /\ panic w' = None
     /\ done_closed (srv w') = true /\ shutdown_waiting w' = 1%nat)
  /\ ((0 < shutdown_waiting w + shutdown_returned w)%nat ->
      exists w',
        exec AShutdown w = Some w'
        /\ panic w' = Some "close of closed channel")
  /\ (forall w',
        exec AShutdownReturn w = Some w' ->
        wg (srv w) = 0 /\ tasks w = []
        /\ shutdown_returned w' = S (shutdown_returned w)).
Proof.
  intros F R Hp. pose proof (reachable_sinv s0 w F R) as I.
  assert (Hinit : done_closed (once_Do_init (srv w)) = done_closed (srv w)).
  { unfold once_Do_init. destruct (once (srv w)) eqn:Eo; [done|]. cbn.
    destruct (done_closed (srv w)) eqn:Ed; [|done].
    destruct (si_done s0 w I Ed). congruence. }
  split_and!.
  - intros W1 W2.
    assert (Hd : done_closed (srv w) = false).
    { destruct (done_closed (srv w)) eqn:Ed; [|done].
      destruct (si_done s0 w I Ed). lia. }
    unfold exec. rewrite Hp. unfold Shutdown_enter. rewrite Hinit, Hd.
    eexists. split; [done|]. cbn. by rewrite W1.
  - intros Hcalls.
    assert (Hd : done_closed (srv w) = true).
    { destruct (done_closed (srv w)) eqn:Ed; [done|].
      destruct (si_not_done s0 w I Ed). lia. }
    unfold exec. rewrite Hp. unfold Shutdown_enter. rewrite Hinit, Hd.
    eexists. split; done.
  - intros w'. unfold exec. rewrite Hp.
    destruct (shutdown_waiting w); [discriminate|].
    destruct (Z.eqb_spec (wg (srv w)) 0) as [Hz|]; [|discriminate].
    intros [= <-]. split; [done|]. split; [|done].
    pose proof (si_wg s0 w I) as Hwg. rewrite Hz in Hwg.
    destruct (tasks w); [done|cbn in Hwg; lia].
Qed.

(** The reading of the specification under which [HandshakeTimeout] is
    defaulted like the other options: when it is unset or non-positive the
    default applies and is armed on the raw stream before the handshake. *)
Definition HandshakeTimeout_defaulted : Prop :=
  forall s env,
    HandshakeTimeout s <= 0 ->
    getHandshakeTimeout s = DefaultHandshakeTimeout
    /\ head (client_body s env).1
       = Some (SetDeadline (Some DefaultHandshakeTimeout)).

(** C9 (as the code has it). Every option but [HandshakeTimeout] gets its
    default when it is unset (a nil interface) or non-positive, and keeps a
    positive value; [HandshakeTimeout] gets its default only when it is
    negative: left at zero it stays zero and [client] sets no deadline at
    all; when it is not zero, the first thing [client] does is to arm the
    deadline [getHandshakeTimeout] gives. The defaults of [Conn] are
    whatever the package declares them to be. *)
Theorem option_defaults (c : Conn.Conn) (s : Server) (env : client_env)
    (dHandler dHandshaker : nat) (dSize : Z) (dTimeout : Duration) :
  (Conn.MaxConns c <= 0 -> Conn.getMaxConns dSize c = dSize)
  /\ (Conn.ReadBufferSize c <= 0 -> Conn.getReadBufferSize dSize c = dSize)
  /\ (Conn.WriteBufferSize c <= 0 -> Conn.getWriteBufferSize dSize c = dSize)
  /\ (Conn.ReadTimeout c <= 0 -> Conn.getReadTimeout dTimeout c = dTimeout)
  /\ (Conn.WriteTimeout c <= 0 -> Conn.getWriteTimeout dTimeout c = dTimeout)
  /\ (Conn.Handler c = None -> Conn.getHandler dHandler c = dHandler)
  /\ (Conn.Handshaker c = None ->
      Conn.getHandshaker dHandshaker c = dHandshaker)
  /\ (Handler s = None -> getHandler dHandler s = dHandler)
  /\ (Handshaker s = None -> getHandshaker dHandshaker s = dHandshaker)
  /\ (MaxConns s <= 0 -> getMaxConns s = DefaultMaxServerConns)
  /\ (0 < MaxConns s -> getMaxConns s = MaxConns s)
  /\ (MaxConnWaitTimeout s <= 0 ->
      getMaxConnWaitTimeout s = DefaultMaxConnWaitTimeout)
  /\ (0 < MaxConnWaitTimeout s ->
      getMaxConnWaitTimeout s = MaxConnWaitTimeout s)
  /\ (HandshakeTimeout s < 0 ->
      getHandshakeTimeout s = DefaultHandshakeTimeout)
  /\ (0 <= HandshakeTimeout s -> getHandshakeTimeout s = HandshakeTimeout s)
  /\ (HandshakeTimeout s = 0 ->
      getHandshakeTimeout s = 0
      /\ forall d, SetDeadline d ∉ (client_body s env).1)
  /\ (HandshakeTimeout s <> 0 ->
      head (client_body s env).1
      = Some (SetDeadline (Some (getHandshakeTimeout s)))).
Proof.
  unfold Conn.getMaxConns, Conn.getReadBufferSize, Conn.getWriteBufferSize,
    Conn.getReadTimeout, Conn.getWriteTimeout, Conn.getHandler,
    Conn.getHandshaker, getHandler, getHandshaker, getMaxConns,
    getMaxConnWaitTimeout.
  split_and!;
    try (intros H; match goal with
                   | |- context [?x <=? 0] =>
                       destruct (Z.leb_spec x 0); [done || lia|done || lia]
                   end);
    try (by intros ->).
  - unfold getHandshakeTimeout. intros H.
    destruct (Z.ltb_spec (HandshakeTimeout s) 0); [done|lia].
  - unfold getHandshakeTimeout. intros H.
    destruct (Z.ltb_spec (HandshakeTimeout s) 0); [lia|done].
  - intros H.
    assert (Hg : getHandshakeTimeout s = 0)
      by (unfold getHandshakeTimeout; by rewrite H).
    split; [done|]. intros d. unfold client_body. rewrite Hg. cbn.
    destruct (handshake_err env); cbn.
    + rewrite list_elem_of_singleton. discriminate.
    + rewrite elem_of_cons, list_elem_of_singleton.
      intros [?|?]; discriminate.
  - intros H.
    assert (Hg : getHandshakeTimeout s <> 0).
    { unfold getHandshakeTimeout, DefaultHandshakeTimeout, Second, Millisecond.
      destruct (Z.ltb_spec (HandshakeTimeout s) 0); lia. }
    unfold client_body. apply Z.eqb_neq in Hg. rewrite Hg.
    destruct (arm_err env); [done|].
    destruct (handshake_err env); [done|]. by destruct (disarm_err env).
Qed.

End ServerClaims.

(** * The read loop *)

Section ReadLoopClaims.
Import Go Conn.

Lemma readLoop_from_head reads b lens e :
  readLoop_from reads b = (lens, e) -> head lens = Some (slice_len b).
Proof.
  destruct reads as [|[n [err|]] reads]; cbn; try (by intros [= <- <-]).
  destruct (reslice b n); [|by intros [= <- <-]].
  destruct (readLoop_from reads s). by intros [= <- <-].
Qed.

Lemma reslice_len b n b' : reslice b n = Some b' -> slice_len b' = n.
Proof.
  unfold reslice. destruct (_ && _); [|discriminate]. by intros [= <-].
Qed.

Lemma readLoop_from_next reads : forall b lens e (k : nat) n l,
  readLoop_from reads b = (lens, e) ->
  reads !! k = Some (n, None) -> lens !! S k = Some l -> l = n.
Proof.
  induction reads as [|[n0 [err|]] reads IH]; intros b lens e k n l; cbn.
  - by intros _ ?.
  - intros [= <- <-]. by intros _ ?.
  - destruct (reslice b n0) as [b'|] eqn:Er; [|by intros [= <- <-] _ ?].
    destruct (readLoop_from reads b') as [lens' e'] eqn:El.
    intros [= <- <-]. destruct k as [|k]; cbn.
    + intros [= <-] Hl.
      pose proof (readLoop_from_head _ _ _ _ El) as Hh.
      destruct lens' as [|x lens']; [done|]. cbn in Hh, Hl.
      rewrite (reslice_len _ _ _ Er) in Hh. congruence.
    + intros Hr Hl. by apply (IH b' lens' e' k).
Qed.

Lemma readLoop_from_succeeded reads : forall b lens e (k : nat) l,
  readLoop_from reads b = (lens, e) -> lens !! S k = Some l ->
  exists n, reads !! k = Some (n, None).
Proof.
  induction reads as [|[n0 [err|]] reads IH]; intros b lens e k l; cbn.
  - by intros [= <- <-] ?.
  - by intros [= <- <-] ?.
  - destruct (reslice b n0) as [b'|] eqn:Er; [|by intros [= <- <-] ?].
    destruct (readLoop_from reads b') as [lens' e'] eqn:El.
    intros [= <- <-]. destruct k as [|k]; cbn; [eauto|].
    intros Hl. by apply (IH b' lens' e' k l).
Qed.

Lemma readLoop_from_no_panic reads : forall b lens e,
  readLoop_from reads b = (lens, e) -> io_Reader_contract reads lens ->
  slice_len b <= slice_cap b -> e <> ReadPanic.
Proof.
  induction reads as [|[n0 [err|]] reads IH]; intros b lens e; cbn.
  - by intros [= <- <-].
  - by intros [= <- <-].
  - unfold reslice.
    destruct ((0 <=? n0) && (n0 <=? slice_cap b)) eqn:Er.
    + destruct (readLoop_from reads _) as [lens' e'] eqn:El.
      intros [= <- <-] Hc Hb. apply (IH _ _ _ El); [|cbn; lia].
      intros k n e0 l Hr Hl. by apply (Hc (S k) n e0 l).
    + intros [= <- <-] Hc Hb.
      specialize (Hc 0%nat n0 None (slice_len b) eq_refl eq_refl). lia.
Qed.

(** C10. In a run of [readLoop], the first [Read] gets a buffer of
    [getReadBufferSize] bytes and every later [Read] gets a buffer whose
    length is the count the [Read] before it returned; so, [Read] returning
    at most the length it was given, the lengths never increase, and from the
    second call on they are at most the count of the first read (and the
    re-slice never panics). *)
Theorem readLoop_buffer_shrinks (dSize : Z) (c : Conn)
    (reads : list (Z * option error)) (lens : list Z) (e : read_end) :
  readLoop dSize c reads = (lens, e) ->
  io_Reader_contract reads lens ->
  head lens = Some (getReadBufferSize dSize c)
  /\ (forall (k : nat) n l,
        reads !! k = Some (n, None) -> lens !! S k = Some l -> l = n)
  /\ (forall (k : nat) l l',
        lens !! k = Some l -> lens !! S k = Some l' -> l' <= l)
  /\ (forall n1 (k : nat) l,
        reads !! 0%nat = Some (n1, None) -> lens !! S k = Some l -> l <= n1)
  /\ e <> ReadPanic.
Proof.
  unfold readLoop. intros Hrun Hc.
  assert (Hnext : forall (k : nat) n l,
    reads !! k = Some (n, None) -> lens !! S k = Some l -> l = n)
    by (intros k n l; by apply (readLoop_from_next reads _ lens e k n l Hrun)).
  assert (Hmono : forall (k : nat) l l',
    lens !! k = Some l -> lens !! S k = Some l' -> l' <= l).
  { intros k l l' Hl Hl'.
    destruct (readLoop_from_succeeded reads _ lens e k l' Hrun Hl')
      as [n Hn].
    rewrite (Hnext k n l' Hn Hl'). by apply (Hc k n None l). }
  split; [by apply (readLoop_from_head _ _ _ _ Hrun)|].
  split; [exact Hnext|]. split; [exact Hmono|]. split.
  - intros n1 k. induction k as [|k IH]; intros l H0 Hl.
    + rewrite (Hnext 0%nat n1 l H0 Hl). lia.
    + destruct (lookup_lt_is_Some_2 lens (S k)) as [l0 Hl0].
      { apply lookup_lt_Some in Hl. lia. }
      specialize (IH l0 H0 Hl0). specialize (Hmono (S k) l0 l Hl0 Hl). lia.
  - apply (readLoop_from_no_panic reads _ lens e Hrun Hc). cbn. lia.
Qed.

End ReadLoopClaims.

(** * Concrete runs of the server, the counter and the read loop *)

Module ServerExamples.
Import Go Server.

(** A server that admits two connections at a time, every other option
    unset. *)
Definition server2 : Server := mkServer None None 2 0 0 false 0 0 0 false.

Definition after (tr : list action) : World :=
  default (start server2) (run tr (start server2)).

(** Two connections are admitted and running; a third finds no slot and waits
    on the timer. *)
Definition trace_full : list action :=
  [AServe; AAccept None; ASelect CaseSem; ASpawn;
   AAccept None; ASelect CaseSem; ASpawn;
   AAccept None; ASelect CaseSem].

(** [Accept] fails with a temporary [*net.OpError]. *)
Definition timeout_error : accept_error :=
  mkAcceptError (io_error 7) false (Some ("i/o timeout", true)).

End ServerExamples.

Section Runs.
Import Go.

Lemma next_nonzero_and_distinct_witness :
  Conn.issue 3 (Conn.set_seq (2 ^ 32 - 2) Examples.conn0)
  = [2 ^ 32 - 1; 1; 2]
  /\ NoDup (Conn.issue 3 (Conn.set_seq (2 ^ 32 - 2) Examples.conn0)).
Proof.
  split; [vm_compute; reflexivity|].
  apply (next_nonzero_and_distinct
           (Conn.set_seq (2 ^ 32 - 2) Examples.conn0) 3); cbn; lia.
Defined.

Lemma server_after_reachable tr w :
  Server.run tr (Server.start ServerExamples.server2) = Some w ->
  Server.reachable ServerExamples.server2 w.
Proof. apply server_run_reachable. constructor. Qed.

Lemma admission_bound_witness :
  Server.fresh ServerExamples.server2
  /\ Server.serve (ServerExamples.after ServerExamples.trace_full)
     = Server.SWaitSlot 2 (3 * Second)
  /\ Z.of_nat (length (Server.clients
                         (ServerExamples.after ServerExamples.trace_full)))
     <= 2.
Proof.
  assert (F : Server.fresh ServerExamples.server2) by (by repeat split).
  split; [exact F|]. split; [vm_compute; reflexivity|].
  apply (admission_bound ServerExamples.server2 2
           (ServerExamples.after ServerExamples.trace_full) F);
    [reflexivity|lia|].
  apply (server_after_reachable ServerExamples.trace_full).
  vm_compute. reflexivity.
Defined.

Lemma Serve_accept_error_classes_witness :
  Server.exec (Server.AAccept (Some ServerExamples.timeout_error))
    (ServerExamples.after [Server.AServe])
  = Some (Server.set_serve (Server.SBackoff 100000000)
            (ServerExamples.after [Server.AServe])).
Proof.
  destruct (Serve_accept_error_classes ServerExamples.timeout_error
              (ServerExamples.after [Server.AServe])) as (_ & _ & H & _).
  apply H; vm_compute; reflexivity.
Defined.

(** C8, as stated, fails: the second of two calls of [Shutdown] panics. *)
Lemma Shutdown_twice_panics : ~ Shutdown_idempotent.
Proof.
  intros H.
  specialize (H ServerExamples.server2
                (ServerExamples.after [Server.AShutdown])
                (ServerExamples.after [Server.AShutdown; Server.AShutdown])).
  assert (E : Server.panic
                (ServerExamples.after [Server.AShutdown; Server.AShutdown])
              = None); [|vm_compute in E; discriminate].
  apply H.
  - by repeat split.
  - apply (server_after_reachable [Server.AShutdown]). vm_compute. reflexivity.
  - vm_compute. reflexivity.
  - vm_compute. reflexivity.
Qed.

Lemma Shutdown_once_then_panics_witness :
  Server.fresh ServerExamples.server2
  /\ exists w',
       Server.exec Server.AShutdown (ServerExamples.after [Server.AShutdown])
       = Some w'
       /\ Server.panic w' = Some "close of closed channel".
Proof.
  assert (F : Server.fresh ServerExamples.server2) by (by repeat split).
  split; [exact F|].
  destruct (Shutdown_once_then_panics ServerExamples.server2
              (ServerExamples.after [Server.AShutdown]) F) as (_ & H & _).
  - apply (server_after_reachable [Server.AShutdown]). vm_compute. reflexivity.
  - vm_compute. reflexivity.
  - apply H. vm_compute. lia.
Defined.

(** C9, as stated, fails: with [HandshakeTimeout] left at zero the timeout is
    zero, not the default, and no deadline is armed. *)
Lemma HandshakeTimeout_zero_not_defaulted : ~ HandshakeTimeout_defaulted.
Proof.
  intros H.
  destruct (H ServerExamples.server2
              (Server.mkClientEnv None None None None)) as [E _].
  - vm_compute. discriminate.
  - vm_compute in E. discriminate.
Qed.

Lemma option_defaults_witness :
  Server.getHandshakeTimeout ServerExamples.server2 = 0
  /\ (Server.client_body ServerExamples.server2
        (Server.mkClientEnv None None None None)).1
     = [Server.Handshake; Server.Handle]
  /\ Server.getMaxConnWaitTimeout ServerExamples.server2 = 3 * Second.
Proof.
  pose proof (option_defaults Examples.conn0 ServerExamples.server2
                (Server.mkClientEnv None None None None) 0%nat 0%nat 0 0)
    as (_ & _ & _ & _ & _ & _ & _ & _ & _ & _ & _ & H1 & _ & _ & _ & H2 & _).
  destruct (H2 eq_refl) as [H3 _].
  split; [exact H3|]. split; [vm_compute; reflexivity|].
  rewrite H1; [reflexivity|]. vm_compute. discriminate.
Defined.

(** Reads of 100, 40 and 40 bytes into a 4096-byte buffer, then an error. *)
Definition reads_100_40_40 : list (Z * option error) :=
  [(100, None); (40, None); (40, None); (0, Some Examples.read_failed)].

Lemma readLoop_buffer_shrinks_witness :
  Conn.readLoop 4096 Examples.conn0 reads_100_40_40
  = ([4096; 100; 40; 40], Conn.ReadReturn Examples.read_failed)
  /\ forall (k : nat) l,
       [4096; 100; 40; 40] !! S k = Some l -> l <= 100.
Proof.
  split; [vm_compute; reflexivity|].
  destruct (readLoop_buffer_shrinks 4096 Examples.conn0 reads_100_40_40
              [4096; 100; 40; 40] (Conn.ReadReturn Examples.read_failed))
    as (_ & _ & _ & H & _).
  - vm_compute. reflexivity.
  - intros k n e l Hr Hl.
    do 4 (destruct k as [|k]; [cbn in Hr, Hl; injection Hr as <- <-;
                               injection Hl as <-; lia|]).
    discriminate.
  - intros k l. apply (H 100 k l). reflexivity.
Defined.

End Runs.

(** * More about the connection engine *)

Section EngineOwnership.
Import Go Conn.

Implicit Types (w : World) (p : ptr).


(** No [Done] ever drives a wait-group counter below zero; and while [Handle]
    runs, the counter a blocked caller of [Write] waits on is 1 exactly as
    long as its carrier is queued or swapped out, when the caller cannot
    return, and 0 from then on, when it can. *)
Theorem blocked_caller_counter (c : Conn) (w : World) :
  reachable c w ->
  Forall (fun x => 0 <= wg x) (heap w)
  /\ (returned w = false ->
      forall p,
        p ∈ blocked w ->
        (p ∈ owned w ->
         wg (deref w p) = 1 /\ exec (AWriteReturn p) w = None)
        /\ (p ∉ owned w ->
            wg (deref w p) = 0 /\ is_Some (exec (AWriteReturn p) w))).
Proof.
  intros R. pose proof (reachable_inv c w R) as I.
  split; [apply I|]. intros Hr p Hb.
  pose proof (inv_live w I Hr) as L. split.
  - intros Ho. destruct (wait (deref w p)) eqn:Ew.
    + destruct (li_owned_wait w L p Ho Ew) as [Hwg _]. split; [done|].
      cbn. unfold Write_leave. rewrite Hwg. by rewrite andb_false_r.
    + by destruct (li_owned_nowait w L p Ho Ew).
  - intros Ho. pose proof (li_blocked w L p Hb Ho) as Hwg. split; [done|].
    cbn. unfold Write_leave.
    rewrite (bool_decide_eq_true_2 _ Hb), Hwg. cbn. eauto.
Qed.

(** [writeLoop] returns [nil] only after shutdown was requested and with the
    queue empty; the queue then stays empty, every buffer that was accepted
    has been written, and [clearPendingWrites] finds nothing to release. *)
Theorem writeLoop_returns_nil_only_drained (c : Conn) (w : World) :
  reachable c w ->
  writer w = WReturn None \/ writer w = WExited None ->
  writerDone (conn w) = true /\ writerQueue (conn w) = []
  /\ accepted w = writes (stream w)
  /\ clearPendingWrites w = w.
Proof.
  intros R Hw. pose proof (reachable_inv c w R) as I.
  destruct (inv_clean w I Hw) as (H1 & H2 & H3).
  split; [done|]. split; [done|]. split; [done|].
  unfold clearPendingWrites. by rewrite H2.
Qed.

End EngineOwnership.

(** * The steps of the engine, by what they change *)

Section EngineSteps.
Import Go Conn.

Implicit Types (w : World) (p : ptr).

(** The writer after a [Signal]. *)
Definition woken (x : writer_state) : writer_state :=
  match x with
  | WParked => WLock
  | _ => x
  end.

(** The steps of [exec], sorted by what they do to the queue, the flag, the
    stream and the three goroutines of [Handle]. *)
Inductive transition (w w' : World) : Prop :=
| tr_idle :
    conn w' = conn w -> stream w' = stream w -> writer w' = writer w ->
    handler w' = handler w -> accepted w' = accepted w ->
    (forall p, p ∈ blocked w' -> p ∈ blocked w) ->
    transition w w'
| tr_enqueue pw b :
    writerDone (conn w) = false -> writerDone (conn w') = false ->
    writerQueue (conn w') = writerQueue (conn w) ++ [pw] ->
    accepted w' = accepted w ++ [b] -> stream w' = stream w ->
    handler w' = handler w -> writer w' = woken (writer w) ->
    transition w w'
| tr_park :
    writer w = WLock -> writer w' = WParked ->
    writerDone (conn w) = false -> writerQueue (conn w) = [] ->
    conn w' = conn w -> stream w' = stream w -> handler w' = handler w ->
    accepted w' = accepted w -> blocked w' = blocked w ->
    transition w w'
| tr_exit :
    writer w = WLock -> writer w' = WReturn None ->
    writerDone (conn w) = true -> writerQueue (conn w) = [] ->
    writerDone (conn w') = true -> writerQueue (conn w') = [] ->
    stream w' = stream w -> handler w' = handler w ->
    accepted w' = accepted w -> blocked w' = blocked w ->
    transition w w'
| tr_swap :
    writer w = WLock -> writerQueue (conn w) <> [] ->
    writer w' = WRange (writerQueue (conn w)) None ->
    writerQueue (conn w') = [] ->
    writerDone (conn w') = writerDone (conn w) ->
    stream w' = stream w -> handler w' = handler w ->
    accepted w' = accepted w -> blocked w' = blocked w ->
    transition w w'
| tr_range pw rest err res :
    writer w = WRange (pw :: rest) err ->
    writer w' = WRange rest (match err with None => res | Some _ => err end) ->
    stream w' = match err with
                | None => stream w ++ [CallWrite (buf (deref w pw))]
                | Some _ => stream w
                end ->
    conn w' = conn w -> handler w' = handler w ->
    accepted w' = accepted w -> blocked w' = blocked w ->
    transition w w'
| tr_flush err res :
    writer w = WRange [] err ->
    writer w' = match err, res with
                | Some _, _ => WReturn err
                | None, Some _ => WReturn res
                | None, None => WLock
                end ->
    stream w' = match err with
                | None => stream w ++ [CallFlush]
                | Some _ => stream w
                end ->
    conn w' = conn w -> handler w' = handler w ->
    accepted w' = accepted w -> blocked w' = blocked w ->
    transition w w'
| tr_stop :
    handler w = HSelect ->
    handler w' = HDoneWaitWriter
    \/ (exists e, handler w' = HReaderWaitWriter e) ->
    writerDone (conn w') = true ->
    writerQueue (conn w') = writerQueue (conn w) ->
    writer w' = woken (writer w) -> stream w' = stream w ->
    accepted w' = accepted w -> blocked w' = blocked w ->
    transition w w'
| tr_join e :
    writer w = WReturn e -> writer w' = WExited e ->
    writer_joined (handler w) = false -> writer_joined (handler w') = true ->
    stream w' = stream w ++ [CallClose] -> conn w' = conn w ->
    accepted w' = accepted w -> blocked w' = blocked w ->
    transition w w'
| tr_reader_joined :
    writer_joined (handler w) = true -> writer_joined (handler w') = true ->
    conn w' = conn w -> stream w' = stream w -> writer w' = writer w ->
    accepted w' = accepted w -> blocked w' = blocked w ->
    transition w w'.

Lemma prepare_accepted_fields g b wt w pw w1 :
  preparePendingWrite g b wt w = (inl pw, w1) ->
  writerDone (conn w) = false
  /\ conn w1 = set_queue (writerQueue (conn w) ++ [pw]) (conn w)
  /\ writer w1 = woken (writer w).
Proof.
  unfold preparePendingWrite.
  destruct (writerDone (conn w)) eqn:Ed; [discriminate|].
  destruct (acquirePendingWrite g b wt w) as [pw0 w0] eqn:Ea.
  intros [= <- <-]. split; [done|].
  assert (H0 : conn w0 = conn w /\ writer w0 = writer w).
  { unfold acquirePendingWrite, pool_Get in Ea.
    destruct g as [i|]; [destruct (pendingWritePool w !! i)|];
      by injection Ea as <- <-. }
  destruct H0 as [H1 H2].
  destruct (cond_Signal_fields
    (with_conn (fun c => set_queue (writerQueue c ++ [pw0]) c)
       (if wt then wg_Add pw0 1 w0 else w0)))
    as (S1 & _ & _ & _ & _ & _ & _ & _ & _ & _ & _ & S12).
  rewrite S1, S12.
  destruct wt; cbn; rewrite H1, H2; (split; [done|]); unfold woken;
    by destruct (writer w).
Qed.

Lemma clear_loop_frame (queue : list ptr) : forall w,
  let w' := foldl (fun w0 pw => if wait (deref w0 pw) then wg_Done pw w0
                                else releasePendingWrite pw w0) w queue in
  conn w' = conn w /\ handler w' = handler w /\ accepted w' = accepted w
  /\ blocked w' = blocked w.
Proof.
  induction queue as [|pw queue IH]; intros w; cbn; [done|].
  set (w1 := if wait (deref w pw) then _ else _).
  assert (H1 : conn w1 = conn w /\ handler w1 = handler w
               /\ accepted w1 = accepted w /\ blocked w1 = blocked w)
    by (subst w1; by destruct (wait (deref w pw))).
  destruct H1 as (H1 & H2 & H3 & H4).
  destruct (IH w1) as (H5 & H6 & H7 & H8).
  by rewrite H5, H6, H7, H8.
Qed.

(** Every step of [exec] is one of the transitions. *)
Lemma exec_transition a w w' : exec a w = Some w' -> transition w w'.
Proof.
  destruct a; cbn.
  - unfold Write_enter.
    destruct (preparePendingWrite g b true w) as [[pw|err] w1] eqn:Hp;
      intros [= <-];
      destruct (prepare_weak _ _ _ _ _ _ Hp)
        as (P1 & P2 & P3 & P4 & P5 & P6 & P7 & P8 & P9 & P10 & P11).
    + destruct (prepare_accepted_fields _ _ _ _ _ _ Hp) as (A1 & A2 & A3).
      apply (tr_enqueue w _ pw b); cbn; rewrite ?A2, ?P4; try done.
    + destruct (writerDone (conn w)); [|by destruct (P11 eq_refl)].
      destruct (P10 eq_refl) as [_ ->]. by apply tr_idle.
  - unfold WriteNoWait.
    destruct (preparePendingWrite g b false w) as [[pw|err] w1] eqn:Hp;
      intros [= <-];
      destruct (prepare_weak _ _ _ _ _ _ Hp)
        as (P1 & P2 & P3 & P4 & P5 & P6 & P7 & P8 & P9 & P10 & P11).
    + destruct (prepare_accepted_fields _ _ _ _ _ _ Hp) as (A1 & A2 & A3).
      apply (tr_enqueue w _ pw b); cbn; rewrite ?A2, ?P4; try done.
    + destruct (writerDone (conn w)); [|by destruct (P11 eq_refl)].
      destruct (P10 eq_refl) as [_ ->]. by apply tr_idle.
  - unfold Write_leave. destruct (_ && _); [|discriminate].
    intros [= <-]. apply tr_idle; try done.
    cbn. intros p. apply elem_of_remove_first.
  - destruct (writer w) eqn:Ew; try discriminate. intros [= <-].
    unfold writeLoop_lock.
    destruct (writerDone (conn w)) eqn:Ed;
      destruct (decide (writerQueue (conn w) = [])) as [Eq|Eq].
    + rewrite (bool_decide_eq_true_2 _ Eq). cbn. by apply tr_exit.
    + rewrite (bool_decide_eq_false_2 _ Eq). cbn. by apply tr_swap.
    + rewrite (bool_decide_eq_true_2 _ Eq). cbn. by apply tr_park.
    + rewrite (bool_decide_eq_false_2 _ Eq). cbn. by apply tr_swap.
  - destruct (writer w) as [| |[|pw rest] err| |] eqn:Ew; try discriminate.
    pose proof (writeLoop_body_fields res pw err w) as B.
    destruct (writeLoop_body res pw err w) as [err1 w2].
    destruct B as (B1 & B2 & B3 & B4 & B5 & B6 & B7 & B8 & B9 & B10).
    intros [= <-]. apply (tr_range w _ pw rest err res); cbn; by subst.
  - destruct (writer w) as [| |[|pw rest] err| |] eqn:Ew; try discriminate.
    intros [= <-]. apply (tr_flush w _ err res); try done;
      unfold writeLoop_flush; by destruct err, res.
  - destruct (reader w); try discriminate.
    destruct res; intros [= <-]; by apply tr_idle.
  - destruct (handler w) eqn:Eh; try discriminate. intros [= <-].
    destruct (Handle_stop_writer_fields w)
      as (S1 & S2 & S3 & S4 & S5 & S6 & S7 & S8 & S9 & S10 & S11 & S12 & S13).
    apply tr_stop; cbn; auto.
    rewrite S13. unfold woken. by destruct (writer w).
  - unfold Handle_recv_writer.
    destruct (writer w) as [| | |e|] eqn:Ew; try discriminate.
    destruct (handler w) eqn:Eh; try discriminate; intros [= <-];
      apply (tr_join w _ e); cbn; rewrite ?Eh; done.
  - unfold Handle_recv_reader.
    destruct (reader w) as [|e|] eqn:Er; try discriminate.
    destruct (handler w) eqn:Eh; try discriminate; intros [= <-].
    + destruct (Handle_stop_writer_fields (set_reader RExited w))
        as (S1 & S2 & S3 & S4 & S5 & S6 & S7 & S8 & S9 & S10 & S11 & S12
            & S13).
      apply tr_stop; cbn; eauto.
      rewrite S13. cbn. unfold woken. by destruct (writer w).
    + apply tr_reader_joined; cbn; by rewrite ?Eh.
    + apply tr_reader_joined; cbn; by rewrite ?Eh.
  - destruct (handler w) eqn:Eh; try discriminate. intros [= <-].
    destruct (clear_loop_writer (writerQueue (conn w)) w) as (C1 & C2 & C3).
    destruct (clear_loop_frame (writerQueue (conn w)) w)
      as (C4 & C5 & C6 & C7).
    apply tr_reader_joined; cbn; by rewrite ?Eh.
Qed.

End EngineSteps.

(** * Shutdown, wake-ups and the shape of the stream *)

Section EngineProtocol.
Import Go Conn.

Implicit Types (w : World) (p : ptr).

Ltac name_transition w w' :=
  try match goal with H : writer w' = _ |- _ => rename H into Hw end;
  try match goal with H : writer w = _ |- _ => rename H into Hw0 end;
  try match goal with H : stream w' = _ |- _ => rename H into Hs end;
  try match goal with H : handler w' = handler w |- _ => rename H into Hh end;
  try match goal with H : conn w' = conn w |- _ => rename H into Hc end.

Lemma done_transition w w' :
  transition w w' -> writerDone (conn w) = true ->
  writerDone (conn w') = true /\ accepted w' = accepted w
  /\ (length (writerQueue (conn w')) <= length (writerQueue (conn w)))%nat
  /\ (forall p, p ∈ blocked w' -> p ∈ blocked w).
Proof.
  intros T Hd.
  destruct T;
    repeat match goal with
           | H : conn w' = conn w |- _ => rewrite H
           | H : writerQueue (conn w') = _ |- _ => rewrite H
           end;
    try congruence; split_and!; try congruence; try done; try (cbn; lia);
    auto.
Qed.

(** Once the writer-done flag is set it stays set: from then on no buffer is
    accepted, the queue only shrinks, no caller newly blocks, and every
    [Write] and [WriteNoWait] returns the shutdown error and changes nothing
    else. *)
Theorem writerDone_is_final (tr : list action) (w w' : World) :
  writerDone (conn w) = true -> run tr w = Some w' ->
  writerDone (conn w') = true /\ accepted w' = accepted w
  /\ (length (writerQueue (conn w')) <= length (writerQueue (conn w)))%nat
  /\ (forall p, p ∈ blocked w' -> p ∈ blocked w)
  /\ (forall g b,
        Write_enter g b w'
        = with_returns (fun l => l ++ [(None, Some ErrShutdown)]) w'
        /\ WriteNoWait g b w'
           = with_returns (fun l => l ++ [(None, Some ErrShutdown)]) w').
Proof.
  intros Hd Hr.
  assert (H : writerDone (conn w') = true /\ accepted w' = accepted w
    /\ (length (writerQueue (conn w')) <= length (writerQueue (conn w)))%nat
    /\ (forall p, p ∈ blocked w' -> p ∈ blocked w)).
  { revert w Hd Hr. induction tr as [|a tr IH]; intros w Hd; cbn.
    - intros [= <-]. split_and!; done.
    - destruct (exec a w) as [w1|] eqn:E; [|discriminate]. intros Hr.
      destruct (done_transition w w1 (exec_transition a w w1 E) Hd)
        as (D1 & D2 & D3 & D4).
      destruct (IH w1 D1 Hr) as (E1 & E2 & E3 & E4).
      split; [done|]. split; [congruence|]. split; [lia|].
      intros p Hp. by apply D4, E4. }
  destruct H as (H1 & H2 & H3 & H4).
  split; [done|]. split; [done|]. split; [done|]. split; [done|].
  intros g b. unfold Write_enter, WriteNoWait.
  by rewrite !(prepare_reject _ _ _ _ H1).
Qed.

(** The condition variable loses no wake-up: the writer is parked in [Wait]
    only while the queue is empty and the flag unset; so whenever there is a
    buffer queued or shutdown has been requested, a writer at the top of its
    loop goes on to range over the queue or to return. *)
Theorem writer_parked_only_when_idle (c : Conn) (w : World) :
  reachable c w ->
  (writer w = WParked ->
   writerQueue (conn w) = [] /\ writerDone (conn w) = false)
  /\ (writer w = WLock ->
      writerQueue (conn w) <> [] \/ writerDone (conn w) = true ->
      exists w', exec AWriterLock w = Some w' /\ writer w' <> WParked).
Proof.
  intros R. split.
  - induction R as [|w a w' _ IH Hex]; [discriminate|].
    pose proof (exec_transition a w w' Hex) as T.
    destruct T; name_transition w w'; intros Hp; rewrite Hw in Hp;
      try discriminate;
      try (unfold woken in Hp; destruct (writer w); discriminate);
      try (repeat case_match; discriminate).
    + rewrite Hc. by apply IH.
    + rewrite Hc. done.
    + rewrite Hc. by apply IH.
  - intros Hw Hq. cbn. rewrite Hw. eexists. split; [done|].
    unfold writeLoop_lock.
    destruct (writerDone (conn w)) eqn:Ed; cbn.
    + by destruct (bool_decide _).
    + destruct Hq as [Hq|?]; [|done].
      by rewrite (bool_decide_eq_false_2 _ Hq).
Qed.

(** Every [Flush] in a list of stream calls comes right after a [Write]. *)
Definition flush_after_write (l : list stream_call) : Prop :=
  forall i : nat,
    l !! i = Some CallFlush ->
    exists j b, i = S j /\ l !! j = Some (CallWrite b).

Lemma flush_after_write_snoc l x :
  flush_after_write l ->
  (x = CallFlush -> exists b, last l = Some (CallWrite b)) ->
  flush_after_write (l ++ [x]).
Proof.
  intros Hl Hx i Hi.
  destruct (decide (i < length l)%nat) as [Hlt|Hge].
  - rewrite lookup_app_l in Hi by done.
    destruct (Hl i Hi) as (j & b & -> & Hj). exists j, b. split; [done|].
    rewrite lookup_app_l by lia. done.
  - rewrite lookup_app_r in Hi by lia.
    destruct (i - length l)%nat as [|k] eqn:Ek; [|done].
    cbn in Hi. injection Hi as ->.
    destruct (Hx eq_refl) as [b Hb]. rewrite last_lookup in Hb.
    destruct l as [|y l]; [done|]. cbn in Hb, Ek, Hge.
    exists (length l), b. split; [lia|].
    rewrite lookup_app_l by (cbn; lia). done.
Qed.

Record stream_inv w : Prop := {
  sh_flush : flush_after_write (stream w);
  sh_open : writer_joined (handler w) = false -> CallClose ∉ stream w;
  sh_closed :
    writer_joined (handler w) = true ->
    exists pre, stream w = pre ++ [CallClose] /\ (CallClose ∉ pre);
  sh_range : forall rest,
    writer w = WRange rest None ->
    rest <> [] \/ exists b, last (stream w) = Some (CallWrite b)
}.

Lemma stream_inv_transition w w' :
  inv w -> stream_inv w -> transition w w' -> stream_inv w'.
Proof.
  intros I [S1 S2 S3 S4] T.
  assert (Hrun : (forall e, writer w <> WExited e) ->
                 writer_joined (handler w) = false).
  { intros Hw. destruct (writer_joined (handler w)) eqn:E; [|done].
    destruct (inv_joined w I E) as [e He]. by destruct (Hw e). }
  destruct T; name_transition w w'.
  - (* nothing of the engine moves *)
    split; rewrite ?Hs, ?Hh, ?Hw; done.
  - (* a buffer is accepted *)
    split; rewrite ?Hs, ?Hw;
      try match goal with H : handler w' = handler w |- _ => rewrite H end;
      try done.
    intros rest Hr. apply S4. unfold woken in Hr. by destruct (writer w).
  - (* the writer parks *)
    split; rewrite ?Hs, ?Hh, ?Hw; done.
  - (* the writer leaves its loop *)
    split; rewrite ?Hs, ?Hh, ?Hw; done.
  - (* the writer swaps the queue out *)
    split; rewrite ?Hs, ?Hh, ?Hw; try done.
    intros rest' [= <-]. by left.
  - (* one iteration of the range loop *)
    assert (Hj : writer_joined (handler w) = false)
      by (apply Hrun; intros e; by rewrite Hw0).
    split; rewrite ?Hh, ?Hw, ?Hj; try done.
    + rewrite Hs. destruct err; [done|].
      apply flush_after_write_snoc; [done|discriminate].
    + intros _. rewrite Hs. destruct err; [by apply S2|].
      rewrite not_elem_of_app, list_elem_of_singleton.
      split; [by apply S2|discriminate].
    + intros rest' [= -> Herr]. rewrite Hs.
      destruct err; [discriminate|]. right. eexists.
      by rewrite last_snoc.
  - (* the end of the range loop *)
    assert (Hj : writer_joined (handler w) = false)
      by (apply Hrun; intros e; by rewrite Hw0).
    split; rewrite ?Hh, ?Hw, ?Hj; try done.
    + rewrite Hs. destruct err; [done|].
      apply flush_after_write_snoc; [done|]. intros _.
      destruct (S4 [] Hw0) as [?|?]; done.
    + intros _. rewrite Hs. destruct err; [by apply S2|].
      rewrite not_elem_of_app, list_elem_of_singleton.
      split; [by apply S2|discriminate].
    + intros rest. by destruct err, res.
  - (* [Handle] stops the writer *)
    assert (Hj' : writer_joined (handler w') = false).
    { match goal with
      | H : handler w' = _ \/ _ |- _ => destruct H as [->|[e ->]]; done
      end. }
    assert (Hj : writer_joined (handler w) = false).
    { match goal with H : handler w = HSelect |- _ => by rewrite H end. }
    split; rewrite ?Hs, ?Hj', ?Hw; try done.
    + intros _. by apply S2.
    + intros rest Hr. apply S4. unfold woken in Hr. by destruct (writer w).
  - (* [Handle] joins the writer and closes the stream *)
    match goal with
    | H : writer_joined (handler w') = true |- _ => rename H into Hj
    end.
    split; rewrite ?Hs, ?Hj, ?Hw; try done.
    + apply flush_after_write_snoc; [done|discriminate].
    + intros _. exists (stream w). split; [done|]. by apply S2.
  - (* [Handle] after the writer was joined *)
    match goal with
    | H : writer_joined (handler w') = true |- _ => rename H into Hj
    end.
    split; rewrite ?Hs, ?Hj, ?Hw; try done.
    intros _. by apply S3.
Qed.

Lemma reachable_stream_inv c w : reachable c w -> stream_inv w.
Proof.
  induction 1 as [|w a w' R IH Hs].
  - split; cbn; try done.
    intros _. by intros ?%elem_of_nil.
  - apply (stream_inv_transition w w'); [by apply (reachable_inv c)|done|].
    by apply (exec_transition a).
Qed.

Lemma exited_transition w w' e :
  writer w = WExited e -> transition w w' ->
  writer w' = WExited e /\ stream w' = stream w.
Proof.
  intros Hx T. revert Hx.
  destruct T; name_transition w w'; intros Hx; try congruence.
  all: split; [by rewrite Hw, ?Hx|done].
Qed.

Lemma failed_transition w w' e :
  writer_err w = Some e -> transition w w' ->
  writer_err w' = Some e
  /\ (stream w' = stream w
      \/ stream w' = stream w ++ [CallClose]
         /\ exists e', writer w' = WExited e').
Proof.
  unfold writer_err. intros He T. revert He.
  destruct T; name_transition w w'; intros He;
    try (rewrite Hw0 in He; discriminate).
  - rewrite Hw. auto.
  - rewrite Hw. destruct (writer w); try discriminate; cbn; auto.
  - rewrite Hw0 in He. subst err. rewrite Hw. auto.
  - rewrite Hw0 in He. subst err. rewrite Hw. auto.
  - rewrite Hw. destruct (writer w); try discriminate; cbn; auto.
  - rewrite Hw0 in He. rewrite Hw. split; [done|]. right. eauto.
  - rewrite Hw. auto.
Qed.

Lemma exited_run tr : forall w w' e,
  writer w = WExited e -> run tr w = Some w' ->
  writer w' = WExited e /\ stream w' = stream w.
Proof.
  induction tr as [|a tr IH]; intros w w' e Hx; cbn.
  - by intros [= <-].
  - destruct (exec a w) as [w1|] eqn:E; [|discriminate]. intros Hr.
    destruct (exited_transition w w1 e Hx (exec_transition a w w1 E))
      as [H1 H2].
    destruct (IH w1 w' e H1 Hr) as [H3 H4]. split; [done|congruence].
Qed.

Lemma failed_run tr : forall w w' e,
  writer_err w = Some e -> run tr w = Some w' ->
  writer_err w' = Some e
  /\ (stream w' = stream w \/ stream w' = stream w ++ [CallClose]).
Proof.
  induction tr as [|a tr IH]; intros w w' e He; cbn.
  - intros [= <-]. auto.
  - destruct (exec a w) as [w1|] eqn:E; [|discriminate]. intros Hr.
    destruct (failed_transition w w1 e He (exec_transition a w w1 E))
      as [H1 [H2|[H2 [e' H3]]]].
    + destruct (IH w1 w' e H1 Hr) as [H4 H5]. split; [done|].
      by rewrite <- H2.
    + destruct (exited_run tr w1 w' e' H3 Hr) as [H4 H5].
      split; [|right; congruence].
      unfold writer_err in *. rewrite H3 in H1. by rewrite H4.
Qed.

(** On the stream, every [Flush] comes right after a call of [Write] (so
    never first and never twice in a row), and only when no [Write] of the
    drain failed: a [Write] or a [Flush] that returns an error is the last
    one the write loop makes, nothing is written or flushed after it, and the
    only call that can still follow is one [Close]. [Close] is called at
    most once, only after the write loop has returned and been joined by
    [Handle], and is the last call made: nothing is written or flushed on a
    closed stream. *)
Theorem stream_calls_well_formed (c : Conn) (w : World) :
  reachable c w ->
  (forall i : nat,
     stream w !! i = Some CallFlush ->
     exists j b, i = S j /\ stream w !! j = Some (CallWrite b))
  /\ (forall i : nat,
        stream w !! i = Some CallClose ->
        S i = length (stream w) /\ exists e, writer w = WExited e)
  /\ (writer_joined (handler w) = true ->
      last (stream w) = Some CallClose)
  /\ (forall e w1,
        writer_err w = None ->
        exec (AWriterRange (Some e)) w = Some w1
        \/ exec (AWriterFlush (Some e)) w = Some w1 ->
        writer_err w1 = Some e
        /\ (exists x, stream w1 = stream w ++ [x] /\ x <> CallClose)
        /\ forall tr w2,
             run tr w1 = Some w2 ->
             stream w2 = stream w1 \/ stream w2 = stream w1 ++ [CallClose])
  /\ (forall res w1,
        writer_err w <> None ->
        exec (AWriterRange res) w = Some w1
        \/ exec (AWriterFlush res) w = Some w1 ->
        stream w1 = stream w).
Proof.
  intros R. pose proof (reachable_stream_inv c w R) as [S1 S2 S3 S4].
  pose proof (reachable_inv c w R) as I.
  split; [exact S1|]. split; [|split; [|split]].
  - intros i Hi.
    destruct (writer_joined (handler w)) eqn:Ej.
    + destruct (S3 eq_refl) as (pre & Hs & Hpre).
      split; [|by apply (inv_joined w I)].
      rewrite Hs in Hi |- *. rewrite length_app. cbn.
      destruct (decide (i < length pre)%nat) as [Hlt|Hge].
      * rewrite lookup_app_l in Hi by done.
        destruct Hpre. by eapply list_elem_of_lookup_2.
      * apply lookup_lt_Some in Hi. rewrite length_app in Hi. cbn in Hi. lia.
    + destruct (S2 eq_refl). by eapply list_elem_of_lookup_2.
  - intros Ej. destruct (S3 Ej) as (pre & -> & _). by rewrite last_snoc.
  - intros e w1 He Hs.
    assert (H1 : writer_err w1 = Some e
                 /\ exists x, stream w1 = stream w ++ [x] /\ x <> CallClose).
    { unfold writer_err in He. destruct Hs as [Hs|Hs]; cbn in Hs.
      - destruct (writer w) as [| |[|pw rest] err| |] eqn:Ew;
          try discriminate. subst err.
        pose proof (writeLoop_body_fields (Some e) pw None w) as B.
        destruct (writeLoop_body (Some e) pw None w) as [err1 w2].
        destruct B as (B1 & B2 & _). injection Hs as <-.
        split; [unfold writer_err; cbn; by rewrite B1|].
        eexists. cbn. split; [exact B2|done].
      - destruct (writer w) as [| |[|pw rest] err| |] eqn:Ew;
          try discriminate. subst err. injection Hs as <-.
        split; [done|]. eexists. cbn. split; [done|done]. }
    destruct H1 as [H1 H2]. split; [done|]. split; [done|].
    intros tr w2 Hr. by destruct (failed_run tr w1 w2 e H1 Hr).
  - intros res w1 He Hs. unfold writer_err in He.
    destruct Hs as [Hs|Hs]; cbn in Hs.
    + destruct (writer w) as [| |[|pw rest] err| |] eqn:Ew;
        try discriminate. destruct err as [e|]; [|done].
      pose proof (writeLoop_body_fields res pw (Some e) w) as B.
      destruct (writeLoop_body res pw (Some e) w) as [err1 w2].
      destruct B as (_ & B2 & _). by injection Hs as <-.
    + destruct (writer w) as [| |[|pw rest] err| |] eqn:Ew;
        try discriminate. destruct err as [e|]; [|done].
      by injection Hs as <-.
Qed.

End EngineProtocol.

(** * More about the read loop and the sequence numbers *)

Section ReadLoopMore.
Import Go Conn.

Lemma readLoop_from_bounds reads : forall b lens e,
  readLoop_from reads b = (lens, e) ->
  0 <= slice_len b <= slice_cap b ->
  Forall (fun l => 0 <= l <= slice_cap b) lens.
Proof.
  induction reads as [|[n [err|]] reads IH]; intros b lens e; cbn.
  - intros [= <- <-] Hb. by apply Forall_singleton.
  - intros [= <- <-] Hb. by apply Forall_singleton.
  - unfold reslice.
    destruct ((0 <=? n) && (n <=? slice_cap b)) eqn:Er.
    + destruct (readLoop_from reads _) as [lens' e'] eqn:El.
      intros [= <- <-] Hb. apply Forall_cons. split; [done|].
      apply (IH _ _ _ El). cbn. lia.
    + intros [= <- <-] Hb. by apply Forall_singleton.
Qed.

Lemma readLoop_from_end reads : forall b lens e,
  readLoop_from reads b = (lens, e) ->
  match e with
  | InRead =>
      length lens = S (length reads)
      /\ forall (j : nat) n e', reads !! j = Some (n, e') -> e' = None
  | ReadReturn err =>
      exists (k : nat) n,
        reads !! k = Some (n, Some err) /\ length lens = S k
        /\ forall (j : nat) m e',
             (j < k)%nat -> reads !! j = Some (m, e') -> e' = None
  | ReadPanic =>
      exists (k : nat) n,
        reads !! k = Some (n, None) /\ length lens = S k
        /\ (n < 0 \/ slice_cap b < n)
  end.
Proof.
  induction reads as [|[n [err|]] reads IH]; intros b lens e; cbn.
  - intros [= <- <-]. split; [done|]. by intros j n e' ?.
  - intros [= <- <-]. exists 0%nat, n. split; [done|]. split; [done|].
    intros j m e' Hj. lia.
  - unfold reslice.
    destruct ((0 <=? n) && (n <=? slice_cap b)) eqn:Er.
    + destruct (readLoop_from reads _) as [lens' e'] eqn:El.
      intros [= <- <-]. specialize (IH _ _ _ El). destruct e'.
      * destruct IH as [H1 H2]. split; [cbn; by rewrite H1|].
        intros [|j] m e0; cbn; [by intros [= _ <-]|]. apply H2.
      * destruct IH as (k & m & H1 & H2 & H3).
        exists (S k), m. split; [done|]. split; [cbn; by rewrite H2|].
        intros [|j] m0 e0 Hj; cbn; [by intros [= _ <-]|].
        apply H3. lia.
      * destruct IH as (k & m & H1 & H2 & H3).
        exists (S k), m. split; [done|]. split; [cbn; by rewrite H2|done].
    + intros [= <- <-]. exists 0%nat, n. split; [done|]. split; [done|].
      apply andb_false_iff in Er as [Er|Er]; lia.
Qed.

(** The loop of [readLoop], on the buffer it was given: whatever the
    stream's [Read] returns, the buffer handed to [Read] is never longer than
    the capacity of the first one (a count above the length of the buffer
    but within its capacity makes the next buffer longer again, never beyond
    the capacity); and the loop panics exactly when the last [Read] it made
    returned, without an error, a count that is negative or beyond the
    capacity. *)
Theorem readLoop_buffer_within_capacity (b : slice)
    (reads : list (Z * option error)) (lens : list Z) (e : read_end) :
  readLoop_from reads b = (lens, e) ->
  0 <= slice_len b <= slice_cap b ->
  Forall (fun l => 0 <= l <= slice_cap b) lens
  /\ (e = ReadPanic <->
      exists (k : nat) n,
        reads !! k = Some (n, None) /\ length lens = S k
        /\ (n < 0 \/ slice_cap b < n)).
Proof.
  intros Hrun Hb. split; [by apply (readLoop_from_bounds reads b lens e)|].
  pose proof (readLoop_from_end reads b lens e Hrun) as He.
  split; [by intros ->|].
  intros (k & n & Hk & Hlen & _). destruct e as [|err|]; [| |done].
  - destruct He as [Hl _]. apply lookup_lt_Some in Hk. lia.
  - destruct He as (k' & n' & Hk' & Hl' & _).
    assert (k' = k) as -> by lia. congruence.
Qed.


(** Once a [Read] has succeeded with a count of zero, every later [Read] is
    handed an empty buffer: the loop goes on calling [Read] and can never
    receive another byte. *)
Theorem readLoop_empty_after_zero_read (dSize : Z) (c : Conn)
    (reads : list (Z * option error)) (lens : list Z) (e : read_end)
    (k : nat) :
  readLoop dSize c reads = (lens, e) ->
  io_Reader_contract reads lens ->
  reads !! k = Some (0, None) ->
  forall (j : nat) l, (k < j)%nat -> lens !! j = Some l -> l = 0.
Proof.
  unfold readLoop. intros Hrun Hc Hk j.
  induction j as [|j IH]; intros l Hj Hl; [lia|].
  destruct (readLoop_from_succeeded reads _ lens e j l Hrun Hl) as [n Hn].
  pose proof (readLoop_from_next reads _ lens e j n l Hrun Hn Hl) as ->.
  destruct (decide (j = k)) as [->|Hne]; [congruence|].
  destruct (lookup_lt_is_Some_2 lens j) as [l0 Hl0].
  { apply lookup_lt_Some in Hl. lia. }
  assert (l0 = 0) as -> by (apply IH; [lia|done]).
  specialize (Hc j n None 0 Hn Hl0). lia.
Qed.

End ReadLoopMore.

Section SequenceMore.
Import Go Conn.

Lemma issue_lookup_lt (n : nat) (c : Conn) (i : nat) :
  0 <= seq c < 2 ^ 32 -> (i < n)%nat ->
  issue n c !! i
  = Some ((seq_pos (seq c) + Z.of_nat i) mod seq_period + 1).
Proof.
  intros Hs Hi.
  destruct (lookup_lt_is_Some_2 (issue n c) i) as [v Hv];
    [by rewrite issue_length|].
  rewrite Hv. f_equal. by apply (issue_lookup n c i v).
Qed.

(** A fresh connection numbers its requests 1, 2, 3, ... up to 2^32 - 1; and
    from any counter state the numbers come round again after 2^32 - 1
    issuances: the one issued 2^32 - 1 calls after another is the same
    number. *)
Theorem sequence_numbers_cycle (c : Conn) (n i : nat) :
  0 <= seq c < 2 ^ 32 ->
  (seq c = 0 -> (i < n)%nat -> Z.of_nat i < 2 ^ 32 - 1 ->
   issue n c !! i = Some (Z.of_nat i + 1))
  /\ ((i + Z.to_nat seq_period < n)%nat ->
      issue n c !! (i + Z.to_nat seq_period)%nat = issue n c !! i).
Proof.
  intros Hs. split.
  - intros H0 Hi Hlt. rewrite issue_lookup_lt by done. f_equal.
    unfold seq_pos, seq_period. rewrite H0. cbn [Z.eqb].
    replace (2 ^ 32 - 1 + Z.of_nat i)
      with (Z.of_nat i + 1 * (2 ^ 32 - 1)) by lia.
    rewrite Z.mod_add by lia. rewrite Z.mod_small by lia. done.
  - intros Hi. rewrite !issue_lookup_lt by (done || lia). f_equal. f_equal.
    rewrite Nat2Z.inj_add, Z2Nat.id by (unfold seq_period; lia).
    replace (seq_pos (seq c) + (Z.of_nat i + seq_period))
      with (seq_pos (seq c) + Z.of_nat i + 1 * seq_period) by lia.
    apply Z.mod_add. unfold seq_period. lia.
Qed.

End SequenceMore.

(** * More about the server *)

Section ServerSteps.
Import Go Server.

Implicit Types (w : World) (s : Server).

(** The first connection number [Serve] has not dealt with yet. *)
Definition undecided (w : World) : nat :=
  match current w with
  | Some c => c
  | None => next_conn w
  end.

(** What a step of the server does to the connections: nothing, or [Serve]
    turns its connection away, or starts a task for it, or a task leaves
    [client], or a task closes its stream and ends. *)
Inductive conn_step (w w' : World) : Prop :=
| cs_quiet :
    tasks w' = tasks w -> closed w' = closed w -> handled w' = handled w ->
    rejected w' = rejected w -> undecided w' = undecided w ->
    conn_step w w'
| cs_reject c :
    current w = Some c -> current w' = None -> next_conn w' = next_conn w ->
    tasks w' = tasks w -> closed w' = c :: closed w ->
    handled w' = handled w -> rejected w' = c :: rejected w ->
    conn_step w w'
| cs_spawn c :
    current w = Some c -> current w' = None -> next_conn w' = next_conn w ->
    tasks w' = (c, TClient) :: tasks w -> closed w' = closed w ->
    handled w' = c :: handled w -> rejected w' = rejected w ->
    conn_step w w'
| cs_client_return c :
    (c, TClient) ∈ tasks w ->
    tasks w' = set_task (c, TClient) (Some (c, TClosing)) (tasks w) ->
    closed w' = closed w -> handled w' = handled w ->
    rejected w' = rejected w -> undecided w' = undecided w ->
    conn_step w w'
| cs_task_end c :
    (c, TClosing) ∈ tasks w ->
    tasks w' = set_task (c, TClosing) None (tasks w) ->
    closed w' = c :: closed w -> handled w' = handled w ->
    rejected w' = rejected w -> undecided w' = undecided w ->
    conn_step w w'.

Lemma Serve_after_select_step conn r w :
  current w = Some conn ->
  conn_step w (Serve_after_select conn r w).
Proof.
  intros Hc. destruct r as [[|] s']; cbn.
  - apply cs_quiet; try done. unfold undecided. by rewrite Hc.
  - by apply (cs_reject _ _ conn).
Qed.

Lemma exec_conn_step a w w' : exec a w = Some w' -> conn_step w w'.
Proof.
  unfold exec. destruct (panic w); [discriminate|].
  destruct a as [|[e|]|pick|ev| |ev|conn env|conn| |].
  - destruct (serve w) eqn:Es; try discriminate. intros [= <-].
    apply cs_quiet; try done. unfold undecided, current. by rewrite Es.
  - destruct (serve w) eqn:Es; try discriminate.
    destruct (Serve_on_accept_error e); intros [= <-];
      (apply cs_quiet; try done; unfold undecided, current; by rewrite Es).
  - destruct (serve w) eqn:Es; try discriminate. intros [= <-].
    apply cs_quiet; try done. unfold undecided, current. by rewrite Es.
  - destruct (serve w) eqn:Es; try discriminate.
    assert (Hc : current w = Some conn) by (unfold current; by rewrite Es).
    destruct (serverAvailable_try pick (srv w)); intros [= <-].
    + by apply Serve_after_select_step.
    + apply cs_quiet; try done. unfold undecided, current. by rewrite Es.
  - destruct (serve w) eqn:Es; try discriminate.
    assert (Hc : current w = Some conn) by (unfold current; by rewrite Es).
    destruct (serverAvailable_wait ev (srv w)); intros [= <-].
    by apply Serve_after_select_step.
  - destruct (serve w) eqn:Es; try discriminate. intros [= <-].
    apply (cs_spawn _ _ conn); try done. unfold current. by rewrite Es.
  - destruct (serve w) eqn:Es; try discriminate.
    destruct (wait ev (srv w)) as [[|]|]; intros [= <-];
      (apply cs_quiet; try done; unfold undecided, current; by rewrite Es).
  - destruct (bool_decide _) eqn:Ein; [|discriminate].
    apply bool_decide_eq_true_1 in Ein.
    unfold client, sem_recv.
    destruct (client_body (srv w) env) as [calls err].
    destruct (0 <? sem_len (srv w)); [|discriminate].
    intros [= <-]. by apply (cs_client_return _ _ conn).
  - destruct (bool_decide _) eqn:Ein; [|discriminate].
    apply bool_decide_eq_true_1 in Ein.
    intros [= <-]. by apply (cs_task_end _ _ conn).
  - intros [= <-]. unfold Shutdown_enter.
    destruct (done_closed (once_Do_init (srv w))); by apply cs_quiet.
  - destruct (shutdown_waiting w); [discriminate|].
    destruct (wg (srv w) =? 0); [|discriminate].
    intros [= <-]. by apply cs_quiet.
Qed.

Lemma set_task_ids c t t' (l : list (nat * task_state)) :
  (set_task (c, t) (Some (c, t')) l).*1 = l.*1.
Proof.
  induction l as [|x l IH]; cbn; [done|].
  destruct (decide (x = (c, t))) as [->|]; cbn; [done|by rewrite IH].
Qed.

Lemma set_task_remove old (l : list (nat * task_state)) x :
  NoDup l.*1 -> old ∈ l -> x ∈ set_task old None l ->
  x ∈ l /\ x.1 <> old.1.
Proof.
  induction l as [|y l IH]; [by intros _ ?%elem_of_nil|].
  cbn. intros [Hy Hl]%NoDup_cons Hin.
  destruct (decide (y = old)) as [->|Hne].
  - intros Hx. split; [apply elem_of_cons; auto|].
    intros E. apply Hy. rewrite <- E. by apply list_elem_of_fmap_2.
  - apply elem_of_cons in Hin as [->|Hin]; [done|].
    intros [->|Hx]%elem_of_cons.
    + split; [apply elem_of_cons; auto|].
      intros E. apply Hy. rewrite E. by apply list_elem_of_fmap_2.
    + destruct (IH Hl Hin Hx). split; [apply elem_of_cons; auto|done].
Qed.

Lemma set_task_remove_NoDup old (l : list (nat * task_state)) :
  NoDup l.*1 -> NoDup (set_task old None l).*1.
Proof.
  induction l as [|y l IH]; cbn; [done|].
  intros [Hy Hl]%NoDup_cons.
  destruct (decide (y = old)) as [->|Hne]; [done|].
  cbn. apply NoDup_cons. split; [|by apply IH].
  intros (x & E & Hx)%list_elem_of_fmap.
  apply set_task_subset in Hx as [Hx|?]; [|done].
  apply Hy. rewrite E. by apply list_elem_of_fmap_2.
Qed.

Lemma set_task_remove_other old (l : list (nat * task_state)) x :
  x ∈ l -> x <> old -> x ∈ set_task old None l.
Proof.
  induction l as [|y l IH]; cbn; [done|].
  intros Hin Hne. destruct (decide (y = old)) as [->|Hy].
  - apply elem_of_cons in Hin as [->|Hin]; done.
  - apply elem_of_cons in Hin as [->|Hin]; apply elem_of_cons; auto.
Qed.

(** Where every connection [Serve] has accepted is. *)
Record close_inv (w : World) : Prop := {
  ci_closed : NoDup (closed w);
  ci_ids : NoDup (tasks w).*1;
  ci_task : forall c t,
    (c, t) ∈ tasks w -> c ∈ handled w /\ (c ∉ closed w);
  ci_why : forall c, c ∈ closed w -> c ∈ rejected w \/ c ∈ handled w;
  ci_all : forall c,
    (c < undecided w)%nat -> c ∈ rejected w \/ c ∈ handled w;
  ci_handled : forall c,
    c ∈ handled w -> c ∈ (tasks w).*1 \/ c ∈ closed w
}.

Lemma close_inv_start s0 : close_inv (start s0).
Proof.
  split; cbn; try apply NoDup_nil_2.
  - by intros c t ?%elem_of_nil.
  - by intros c ?%elem_of_nil.
  - intros c. unfold undecided. cbn. lia.
  - by intros c ?%elem_of_nil.
Qed.

Lemma close_inv_step s0 w w' :
  sinv s0 w -> close_inv w -> conn_step w w' -> close_inv w'.
Proof.
  intros I [C1 C2 C3 C4 C5 C6] T.
  pose proof (si_ids s0 w I) as Hids. fold (undecided w) in Hids.
  pose proof (si_current s0 w I) as Hcur.
  pose proof (si_rejected s0 w I) as Hrej.
  destruct T as
    [Ht Hc Hh Hr Hu|c Hc Hc' Hn Ht Hcl Hh Hr|c Hc Hc' Hn Ht Hcl Hh Hr
    |c Hin Ht Hc Hh Hr Hu|c Hin Ht Hc Hh Hr Hu].
  - split; rewrite ?Ht, ?Hc, ?Hh, ?Hr, ?Hu; done.
  - assert (Hu : undecided w = c) by (unfold undecided; by rewrite Hc).
    assert (Hu' : undecided w' = S c).
    { unfold undecided. rewrite Hc', Hn. by apply Hcur. }
    assert (Hfresh : c ∉ closed w).
    { intros Hx. apply C4 in Hx.
      assert (c < undecided w)%nat by (apply Hids; tauto). lia. }
    split; rewrite ?Ht, ?Hcl, ?Hh, ?Hr, ?Hu'; try done.
    + apply NoDup_cons. done.
    + intros c0 t Hx. destruct (C3 c0 t Hx) as [H1 H2]. split; [done|].
      intros [->|?]%elem_of_cons; [|done].
      assert (c < undecided w)%nat by (apply Hids; auto). lia.
    + intros c0 [->|Hx]%elem_of_cons.
      * left. apply elem_of_cons. auto.
      * destruct (C4 c0 Hx); [left; apply elem_of_cons|]; auto.
    + intros c0 Hlt. destruct (decide (c0 = c)) as [->|Hne].
      * left. apply elem_of_cons. auto.
      * destruct (C5 c0); [lia|left; apply elem_of_cons|]; auto.
    + intros c0 Hx. destruct (C6 c0 Hx); [|right; apply elem_of_cons]; auto.
  - assert (Hu : undecided w = c) by (unfold undecided; by rewrite Hc).
    assert (Hu' : undecided w' = S c).
    { unfold undecided. rewrite Hc', Hn. by apply Hcur. }
    assert (Hfresh : c ∉ closed w).
    { intros Hx. apply C4 in Hx.
      assert (c < undecided w)%nat by (apply Hids; tauto). lia. }
    assert (Hnew : c ∉ (tasks w).*1).
    { intros (x & E & Hx)%list_elem_of_fmap. destruct x as [c0 t].
      cbn in E. subst c0. destruct (C3 c t Hx) as [H1 _].
      assert (c < undecided w)%nat by (apply Hids; auto). lia. }
    split; rewrite ?Ht, ?Hcl, ?Hh, ?Hr, ?Hu'; try done.
    + cbn. apply NoDup_cons. done.
    + intros c0 t [[= -> ->]|Hx]%elem_of_cons.
      * split; [apply elem_of_cons; auto|done].
      * destruct (C3 c0 t Hx). split; [apply elem_of_cons; auto|done].
    + intros c0 Hx. destruct (C4 c0 Hx); [|right; apply elem_of_cons]; auto.
    + intros c0 Hlt. destruct (decide (c0 = c)) as [->|Hne].
      * right. apply elem_of_cons. auto.
      * destruct (C5 c0); [lia| |right; apply elem_of_cons]; auto.
    + intros c0 [->|Hx]%elem_of_cons; cbn.
      * left. apply elem_of_cons. auto.
      * destruct (C6 c0 Hx); [left; apply elem_of_cons|]; auto.
  - split; rewrite ?Ht, ?Hc, ?Hh, ?Hr, ?Hu, ?set_task_ids; try done.
    intros c0 t Hx. apply set_task_subset in Hx as [Hx|[= <- <-]].
    + by apply (C3 c0 t).
    + by apply (C3 c TClient).
  - destruct (C3 c TClosing Hin) as [Hhd Hncl].
    split; rewrite ?Ht, ?Hc, ?Hh, ?Hr, ?Hu; try done.
    + by apply NoDup_cons.
    + by apply set_task_remove_NoDup.
    + intros c0 t Hx.
      apply (set_task_remove _ _ _ C2 Hin) in Hx as [Hx Hne]. cbn in Hne.
      destruct (C3 c0 t Hx). split; [done|].
      intros [->|?]%elem_of_cons; done.
    + intros c0 [->|Hx]%elem_of_cons; auto.
    + intros c0 Hx. destruct (decide (c0 = c)) as [->|Hne].
      * right. apply elem_of_cons. auto.
      * destruct (C6 c0 Hx) as [(x & E & Hy)%list_elem_of_fmap|?].
        -- left. apply list_elem_of_fmap. exists x. split; [done|].
           apply set_task_remove_other; [done|]. intros ->. by cbn in E.
        -- right. apply elem_of_cons. auto.
Qed.

Lemma reachable_close_inv s0 w :
  fresh s0 -> reachable s0 w -> close_inv w.
Proof.
  intros F. induction 1 as [|w a w' R IH Hs]; [apply close_inv_start|].
  apply (close_inv_step s0 w); [by apply reachable_sinv|done|].
  by apply (exec_conn_step a).
Qed.

(** No accepted connection is lost, and none is closed twice: every raw
    stream [Accept] has returned is in exactly one place: held by [Serve],
    which has not decided on it yet, or owned by a running task, or closed;
    the list of closed streams has no repetition; a stream is closed only
    because [serverAvailable] turned it away or after its task left
    [client]; and every task can always go on to close its stream once
    [client] has returned. *)
Theorem accepted_streams_closed_exactly_once (s0 : Server) (w : World) :
  fresh s0 -> reachable s0 w ->
  NoDup (closed w)
  /\ NoDup (tasks w).*1
  /\ (forall c : nat,
        (c < next_conn w)%nat ->
        current w = Some c \/ c ∈ (tasks w).*1 \/ c ∈ closed w)
  /\ (forall c, current w = Some c -> (c ∉ (tasks w).*1) /\ (c ∉ closed w))
  /\ (forall c, c ∈ (tasks w).*1 -> c ∈ handled w /\ (c ∉ closed w))
  /\ (forall c,
        c ∈ closed w ->
        (c < next_conn w)%nat /\ (c ∈ rejected w <-> (c ∉ handled w)))
  /\ (forall c,
        panic w = None -> (c, TClosing) ∈ tasks w ->
        exists w',
          exec (ATaskEnd c) w = Some w' /\ c ∈ closed w'
          /\ (c ∉ (tasks w').*1)
          /\ wg (srv w') = wg (srv w) - 1).
Proof.
  intros F R.
  pose proof (reachable_sinv s0 w F R) as I.
  destruct (reachable_close_inv s0 w F R) as [C1 C2 C3 C4 C5 C6].
  pose proof (si_ids s0 w I) as Hids. fold (undecided w) in Hids.
  pose proof (si_current s0 w I) as Hcur.
  pose proof (si_rejected s0 w I) as Hrej.
  assert (Hle : (undecided w <= next_conn w)%nat).
  { unfold undecided. destruct (current w) as [c|] eqn:Ec; [|lia].
    rewrite (Hcur c eq_refl). lia. }
  assert (Htask : forall c,
            c ∈ (tasks w).*1 -> c ∈ handled w /\ (c ∉ closed w)).
  { intros c (x & E & Hx)%list_elem_of_fmap. destruct x as [c0 t].
    cbn in E. subst c0. by apply (C3 c t). }
  split_and!; try done.
  - intros c Hlt. destruct (decide (c < undecided w)%nat) as [Hu|Hu].
    + right. destruct (C5 c Hu) as [Hx|Hx].
      * right. by apply Hrej.
      * by apply C6.
    + left. unfold undecided in Hu.
      destruct (current w) as [c'|] eqn:Ec; [|lia].
      rewrite (Hcur c' eq_refl) in Hlt. f_equal. lia.
  - intros c Hc.
    assert (Hu : undecided w = c) by (unfold undecided; by rewrite Hc).
    split.
    + intros Hx. apply Htask in Hx as [Hx _].
      assert (c < undecided w)%nat by (apply Hids; auto). lia.
    + intros Hx. apply C4 in Hx.
      assert (c < undecided w)%nat by (apply Hids; tauto). lia.
  - intros c Hx. pose proof (C4 c Hx) as Hw. split.
    + assert (c < undecided w)%nat by (apply Hids; tauto). lia.
    + split; [intros Hr; by destruct (Hrej c Hr)|].
      intros ?. by destruct Hw.
  - intros c Hp Hin. unfold exec. rewrite Hp.
    rewrite (bool_decide_eq_true_2 _ Hin). eexists. split; [done|].
    cbn. split; [apply elem_of_cons; auto|]. split; [|done].
    intros (x & E & Hx)%list_elem_of_fmap.
    apply (set_task_remove _ _ _ C2 Hin) in Hx as [_ Hne]. by cbn in Hne.
Qed.

End ServerSteps.

Section ServerAdmission.
Import Go Server.

Implicit Types (w : World) (s : Server).

(** While the server has not been shut down, [serverAvailable] never turns
    a connection away at once and never makes it wait when there is room:
    with fewer than [getMaxConns] connections inside [client] (so always on
    an idle server, whatever [MaxConns] was set to) the connection gets a
    slot in the first [select]; with [getMaxConns] of them it goes on to
    wait on the timer, and nothing else changes. *)
Theorem admitted_at_once_below_limit (s0 : Server) (w : World)
    (conn : nat) (pick : select_case) :
  fresh s0 -> reachable s0 w -> panic w = None ->
  serve w = SSelect conn -> done_closed (srv w) = false ->
  1 <= getMaxConns s0
  /\ Z.of_nat (length (clients w)) <= getMaxConns s0
  /\ exists w',
       exec (ASelect pick) w = Some w'
       /\ (Z.of_nat (length (clients w)) < getMaxConns s0 ->
           serve w' = SSpawn conn
           /\ sem_len (srv w') = sem_len (srv w) + 1
           /\ closed w' = closed w /\ rejected w' = rejected w)
       /\ (Z.of_nat (length (clients w)) = getMaxConns s0 ->
           w' = set_serve (SWaitSlot conn (getMaxConnWaitTimeout s0)) w).
Proof.
  intros F R Hp Es Hd.
  pose proof (reachable_sinv s0 w F R) as I.
  assert (Ho : once (srv w) = true).
  { apply (si_started s0 w I). by rewrite Es. }
  pose proof (si_cap s0 w I Ho) as Hcap.
  pose proof (si_bound s0 w I Ho) as Hb.
  pose proof (si_sem s0 w I) as Hsem.
  unfold holds_slot in Hsem. rewrite Es in Hsem.
  pose proof (getMaxConns_pos s0) as Hpos.
  split; [lia|]. split; [lia|].
  unfold exec. rewrite Hp, Es. unfold serverAvailable_try, sem_ready.
  rewrite Hd.
  destruct (Z.ltb_spec (sem_len (srv w)) (sem_cap (srv w))) as [Hlt|Hge].
  - eexists. split; [done|]. cbn. split; [done|]. lia.
  - eexists. split; [done|]. split; [lia|]. intros _.
    unfold getMaxConnWaitTimeout. by rewrite (si_wait s0 w I).
Qed.

(** [Shutdown] does not stop [Serve]: once [Shutdown] has been called,
    [Serve] still accepts; a connection that finds a free slot may still be
    admitted (both cases of the first [select] are ready, and the runtime
    picks one) or be turned away; one that finds none is turned away at
    once, without waiting on the timer; a connection that was waiting for a
    slot can be turned away, and a back-off after a temporary error ends
    with [Serve] returning [nil]. *)
Theorem Shutdown_leaves_Serve_accepting (s0 : Server) (w : World) :
  fresh s0 -> reachable s0 w -> panic w = None ->
  (0 < shutdown_waiting w + shutdown_returned w)%nat ->
  done_closed (srv w) = true
  /\ (serve w = SAccept ->
      exists w',
        exec (AAccept None) w = Some w' /\ serve w' = SSelect (next_conn w))
  /\ (forall conn,
        serve w = SSelect conn ->
        Z.of_nat (length (clients w)) < getMaxConns s0 ->
        (exists w',
           exec (ASelect CaseSem) w = Some w' /\ serve w' = SSpawn conn
           /\ exists w'',
                exec ASpawn w' = Some w''
                /\ (conn, TClient) ∈ tasks w''
                /\ wg (srv w'') = wg (srv w) + 1)
        /\ (exists w',
              exec (ASelect CaseDone) w = Some w' /\ serve w' = SAccept
              /\ conn ∈ rejected w' /\ conn ∈ closed w'))
  /\ (forall conn pick,
        serve w = SSelect conn ->
        Z.of_nat (length (clients w)) = getMaxConns s0 ->
        exists w',
          exec (ASelect pick) w = Some w' /\ serve w' = SAccept
          /\ conn ∈ rejected w' /\ conn ∈ closed w')
  /\ (forall conn d,
        serve w = SWaitSlot conn d ->
        exists w',
          exec (AWaitSlot CaseDone) w = Some w' /\ serve w' = SAccept
          /\ conn ∈ rejected w' /\ conn ∈ closed w')
  /\ (forall d,
        serve w = SBackoff d ->
        exists w',
          exec (ABackoff CaseDone) w = Some w'
          /\ serve w' = SReturned None).
Proof.
  intros F R Hp Hcalled.
  pose proof (reachable_sinv s0 w F R) as I.
  assert (Hd : done_closed (srv w) = true).
  { destruct (done_closed (srv w)) eqn:Ed; [done|].
    destruct (si_not_done s0 w I Ed). lia. }
  destruct (si_done s0 w I Hd) as [Ho _].
  pose proof (si_cap s0 w I Ho) as Hcap.
  pose proof (si_bound s0 w I Ho) as Hb.
  pose proof (si_sem s0 w I) as Hsem.
  split_and!; [done|..].
  - intros Es. unfold exec. rewrite Hp, Es. by eexists.
  - intros conn Es Hlt.
    unfold holds_slot in Hsem. rewrite Es in Hsem.
    assert (Hr : sem_ready (srv w) = true)
      by (unfold sem_ready; apply Z.ltb_lt; lia).
    split.
    + unfold exec at 1. rewrite Hp, Es. unfold serverAvailable_try.
      rewrite Hd, Hr. eexists. split; [done|]. split; [done|].
      unfold exec. cbn. rewrite Hp. eexists. split; [done|].
      cbn. split; [apply elem_of_cons; auto|done].
    + unfold exec. rewrite Hp, Es. unfold serverAvailable_try.
      rewrite Hd, Hr. eexists. split; [done|]. cbn.
      split_and!; try done; apply elem_of_cons; auto.
  - intros conn pick Es Hfull.
    unfold holds_slot in Hsem. rewrite Es in Hsem.
    assert (Hr : sem_ready (srv w) = false)
      by (unfold sem_ready; apply Z.ltb_ge; lia).
    unfold exec. rewrite Hp, Es. unfold serverAvailable_try.
    rewrite Hd, Hr. eexists. split; [done|]. cbn.
    split_and!; try done; apply elem_of_cons; auto.
  - intros conn d Es. unfold exec. rewrite Hp, Es. cbn. rewrite Hd.
    eexists. split; [done|]. cbn.
    split_and!; try done; apply elem_of_cons; auto.
  - intros d Es. unfold exec. rewrite Hp, Es. cbn. rewrite Hd.
    by eexists.
Qed.

Lemma Serve_returned_step a w w' err :
  serve w = SReturned err -> exec a w = Some w' ->
  serve w' = SReturned err /\ next_conn w' = next_conn w
  /\ handled w' = handled w /\ rejected w' = rejected w
  /\ (length (tasks w') <= length (tasks w))%nat
  /\ wg (srv w') <= wg (srv w).
Proof.
  intros Es. unfold exec. destruct (panic w); [discriminate|].
  destruct a as [|[e|]|pick|ev| |ev|conn env|conn| |];
    rewrite ?Es; try discriminate.
  - destruct (bool_decide _) eqn:Ein; [|discriminate].
    apply bool_decide_eq_true_1 in Ein.
    unfold client, sem_recv.
    destruct (client_body (srv w) env) as [calls e].
    destruct (0 <? sem_len (srv w)); [|discriminate].
    intros [= <-]. cbn. rewrite set_task_length by done.
    split_and!; try done; lia.
  - destruct (bool_decide _) eqn:Ein; [|discriminate].
    apply bool_decide_eq_true_1 in Ein.
    intros [= <-]. cbn. rewrite set_task_length by done.
    split_and!; try done; lia.
  - intros [= <-]. unfold Shutdown_enter.
    assert (Hwg : wg (once_Do_init (srv w)) = wg (srv w))
      by (unfold once_Do_init; by destruct (once (srv w))).
    destruct (done_closed (once_Do_init (srv w))); cbn;
      split_and!; try done; lia.
  - destruct (shutdown_waiting w); [discriminate|].
    destruct (wg (srv w) =? 0); [|discriminate].
    intros [= <-]. cbn. split_and!; try done; lia.
Qed.

(** Once [Serve] has returned nothing is accepted any more: whatever
    happens afterwards, no connection is admitted or turned away, no task
    is started and the wait group only goes down. *)
Theorem Serve_returned_is_final (tr : list action) (w w' : World)
    (err : option error) :
  serve w = SReturned err -> run tr w = Some w' ->
  serve w' = SReturned err /\ next_conn w' = next_conn w
  /\ handled w' = handled w /\ rejected w' = rejected w
  /\ (length (tasks w') <= length (tasks w))%nat
  /\ wg (srv w') <= wg (srv w).
Proof.
  revert w. induction tr as [|a tr IH]; intros w Es; cbn.
  - intros [= <-]. split_and!; try done; lia.
  - destruct (exec a w) as [w1|] eqn:E; [|discriminate]. intros Hrun.
    destruct (Serve_returned_step a w w1 err Es E)
      as (H1 & H2 & H3 & H4 & H5 & H6).
    destruct (IH w1 H1 Hrun) as (G1 & G2 & G3 & G4 & G5 & G6).
    split_and!; try congruence; lia.
Qed.



End ServerAdmission.

(** * What [Handle] returns *)

Section HandleResult.
Import Go Conn.

Implicit Types (w : World) (tr : list action).

(** The cases of the [select] in [Handle]. *)
Inductive branch : Type :=
| BranchDone
| BranchWriter
| BranchReader.

(** The case of its [select] that [Handle] takes in a run: the first step
    of [Handle] in it. *)
Fixpoint Handle_branch (tr : list action) : option branch :=
  match tr with
  | [] => None
  | AHandleDone :: _ => Some BranchDone
  | AHandleRecvWriter :: _ => Some BranchWriter
  | AHandleRecvReader :: _ => Some BranchReader
  | _ :: tr' => Handle_branch tr'
  end.

(** What [readLoop] returns in a run: the error of the first [Read] that
    fails. *)
Fixpoint reader_error (tr : list action) : option error :=
  match tr with
  | [] => None
  | AReaderRead (Some e) :: _ => Some e
  | _ :: tr' => reader_error tr'
  end.

(** What [Handle] knows in each of its states, after the run [tr]. *)
Definition handle_inv (tr : list action) (w : World) : Prop :=
  match handler w with
  | HSelect => Handle_branch tr = None /\ writerDone (conn w) = false
  | HDoneWaitWriter | HDoneWaitReader =>
      Handle_branch tr = Some BranchDone /\ writerDone (conn w) = true
  | HWriterWaitReader err =>
      Handle_branch tr = Some BranchWriter /\ writerDone (conn w) = false
      /\ writer w = WExited err /\ exists e, err = Some e
  | HReaderWaitWriter err =>
      Handle_branch tr = Some BranchReader /\ writerDone (conn w) = true
      /\ reader w = RExited /\ err = reader_error tr /\ exists e, err = Some e
  | HClear err | HReturned err =>
      reader w = RExited
      /\ match Handle_branch tr with
         | Some BranchDone => err = None /\ writerDone (conn w) = true
         | Some BranchWriter =>
             writer w = WExited err /\ (exists e, err = Some e)
             /\ writerDone (conn w) = false
         | Some BranchReader =>
             err = reader_error tr /\ (exists e, err = Some e)
             /\ writerDone (conn w) = true
         | None => False
         end
  end.

Record hinv (tr : list action) (w : World) : Prop := {
  hi_reading : reader w = RLoop -> reader_error tr = None;
  hi_reader : forall e, reader w = RReturn e -> reader_error tr = Some e;
  hi_handler : handle_inv tr w
}.

Lemma Handle_branch_snoc tr a :
  Handle_branch (tr ++ [a])
  = match Handle_branch tr with
    | Some b => Some b
    | None => Handle_branch [a]
    end.
Proof.
  induction tr as [|b tr IH]; cbn; [by destruct (Handle_branch [a])|].
  by destruct b.
Qed.

Lemma reader_error_snoc tr a :
  reader_error (tr ++ [a])
  = match reader_error tr with
    | Some e => Some e
    | None => reader_error [a]
    end.
Proof.
  induction tr as [|b tr IH]; cbn; [by destruct (reader_error [a])|].
  destruct b; try done. by destruct res.
Qed.

Lemma run_snoc tr a : forall w,
  run (tr ++ [a]) w
  = match run tr w with Some w1 => exec a w1 | None => None end.
Proof.
  induction tr as [|b tr IH]; intros w; cbn.
  - by destruct (exec a w).
  - destruct (exec b w); [apply IH|done].
Qed.

Lemma quiet_snoc tr a :
  Handle_branch [a] = None -> reader_error [a] = None ->
  Handle_branch (tr ++ [a]) = Handle_branch tr
  /\ reader_error (tr ++ [a]) = reader_error tr.
Proof.
  intros Hb Hr. rewrite Handle_branch_snoc, reader_error_snoc, Hb, Hr.
  by destruct (Handle_branch tr), (reader_error tr).
Qed.

(** A step that is not one of [Handle] or of the reader. *)
Lemma hinv_frame tr a w w' :
  hinv tr w ->
  Handle_branch [a] = None -> reader_error [a] = None ->
  handler w' = handler w -> reader w' = reader w ->
  writerDone (conn w') = writerDone (conn w) ->
  (forall err, writer w = WExited err -> writer w' = WExited err) ->
  hinv (tr ++ [a]) w'.
Proof.
  intros [H1 H2 H3] Hb Hre Hh Hr Hd He.
  destruct (quiet_snoc tr a Hb Hre) as [Q1 Q2].
  split; rewrite ?Hr, ?Q2; try done.
  unfold handle_inv in *. rewrite Hh.
  destruct (handler w); rewrite ?Hd, ?Hr, ?Q1, ?Q2; try done.
  - destruct H3 as (G1 & G2 & G3 & G4). split_and!; auto.
  - destruct H3 as [G1 G2]. split; [done|].
    destruct (Handle_branch tr) as [[| |]|]; try done.
    destruct G2 as (G2 & G3 & G4). split_and!; auto.
  - destruct H3 as [G1 G2]. split; [done|].
    destruct (Handle_branch tr) as [[| |]|]; try done.
    destruct G2 as (G2 & G3 & G4). split_and!; auto.
Qed.

Lemma clear_loop_reader (queue : list ptr) : forall w,
  reader (foldl (fun w0 pw => if wait (deref w0 pw) then wg_Done pw w0
                              else releasePendingWrite pw w0) w queue)
  = reader w.
Proof.
  induction queue as [|pw queue IH]; intros w; cbn; [done|].
  rewrite IH. by destruct (wait (deref w pw)).
Qed.

Lemma writeLoop_lock_fields w :
  handler (writeLoop_lock w) = handler w
  /\ reader (writeLoop_lock w) = reader w
  /\ writerDone (conn (writeLoop_lock w)) = writerDone (conn w).
Proof.
  unfold writeLoop_lock.
  destruct (writerDone (conn w)) eqn:Ed,
    (bool_decide (writerQueue (conn w) = [])); cbn; by rewrite ?Ed.
Qed.

Lemma hinv_step tr a w w' :
  inv w -> hinv tr w -> exec a w = Some w' -> hinv (tr ++ [a]) w'.
Proof.
  intros I H. destruct a; cbn.
  - unfold Write_enter.
    destruct (preparePendingWrite g b true w) as [r w1] eqn:Hp.
    destruct (prepare_weak _ _ _ _ _ _ Hp)
      as (P1 & P2 & P3 & P4 & P5 & P6 & P7 & P8 & _).
    intros [= <-]. apply (hinv_frame tr _ w); try done.
    + by destruct r.
    + by destruct r.
    + by destruct r; cbn; rewrite P8.
    + intros err Hw.
      destruct r; cbn; (destruct P7 as [->|[? _]]; [done|congruence]).
  - unfold WriteNoWait.
    destruct (preparePendingWrite g b false w) as [r w1] eqn:Hp.
    destruct (prepare_weak _ _ _ _ _ _ Hp)
      as (P1 & P2 & P3 & P4 & P5 & P6 & P7 & P8 & _).
    intros [= <-]. apply (hinv_frame tr _ w); try done.
    + by destruct r.
    + by destruct r.
    + by destruct r; cbn; rewrite P8.
    + intros err Hw.
      destruct r; cbn; (destruct P7 as [->|[? _]]; [done|congruence]).
  - unfold Write_leave. destruct (_ && _); [|discriminate].
    intros [= <-]. by apply (hinv_frame tr _ w).
  - destruct (writer w) eqn:Ew; try discriminate. intros [= <-].
    destruct (writeLoop_lock_fields w) as (L1 & L2 & L3).
    apply (hinv_frame tr _ w); try done.
    intros err. by rewrite Ew.
  - destruct (writer w) as [| |[|pw rest] err| |] eqn:Ew; try discriminate.
    pose proof (writeLoop_body_fields res pw err w) as B.
    destruct (writeLoop_body res pw err w) as [err1 w2].
    destruct B as (B1 & B2 & B3 & B4 & B5 & B6 & _).
    intros [= <-]. apply (hinv_frame tr _ w); try done; cbn.
    + by rewrite B3.
    + intros err0. by rewrite Ew.
  - destruct (writer w) as [| |[|pw rest] err| |] eqn:Ew; try discriminate.
    intros [= <-]. apply (hinv_frame tr _ w); try done.
    + unfold writeLoop_flush. by destruct err, res.
    + unfold writeLoop_flush. by destruct err, res.
    + unfold writeLoop_flush. by destruct err, res.
    + intros err0. by rewrite Ew.
  - destruct (reader w) eqn:Er; try discriminate.
    destruct res as [e0|]; intros [= <-];
      [|by apply (hinv_frame tr _ w)].
    destruct H as [H1 H2 H3].
    assert (Q1 : Handle_branch (tr ++ [AReaderRead (Some e0)])
                 = Handle_branch tr).
    { rewrite Handle_branch_snoc. by destruct (Handle_branch tr). }
    assert (Q2 : reader_error (tr ++ [AReaderRead (Some e0)]) = Some e0).
    { rewrite reader_error_snoc, (H1 Er). done. }
    split; cbn; try done.
    + intros e [= ->]. done.
    + unfold handle_inv in *. cbn. rewrite Q1.
      destruct (handler w); try done;
        try (destruct H3 as (? & ? & ? & ?); congruence);
        destruct H3 as [? ?]; congruence.
  - destruct (handler w) eqn:Eh; try discriminate. intros [= <-].
    destruct H as [H1 H2 H3]. unfold handle_inv in H3. rewrite Eh in H3.
    destruct H3 as [G1 G2].
    destruct (Handle_stop_writer_fields w)
      as (_ & _ & _ & _ & _ & _ & _ & _ & S9 & S10 & _ & S12 & S13).
    assert (Q2 : reader_error (tr ++ [AHandleDone]) = reader_error tr).
    { rewrite reader_error_snoc. by destruct (reader_error tr). }
    split.
    + cbn. rewrite S10, Q2. done.
    + intros e. cbn. rewrite S10, Q2. apply H2.
    + unfold handle_inv. cbn. rewrite Handle_branch_snoc, G1. done.
  - unfold Handle_recv_writer.
    destruct (writer w) as [| | |e|] eqn:Ew; try discriminate.
    destruct H as [H1 H2 H3]. unfold handle_inv in H3.
    assert (Q2 : reader_error (tr ++ [AHandleRecvWriter])
                 = reader_error tr).
    { rewrite reader_error_snoc. by destruct (reader_error tr). }
    destruct (handler w) eqn:Eh; try discriminate; intros [= <-];
      (split; [cbn; by rewrite Q2|cbn; intros e0; rewrite Q2; apply H2|]);
      unfold handle_inv; cbn; rewrite Handle_branch_snoc, ?Q2.
    + destruct H3 as [G1 G2]. rewrite G1. cbn. split_and!; try done.
      destruct e as [e0|]; [by exists e0|].
      destruct (inv_clean w I) as [Hd _]; [by left|]. congruence.
    + destruct H3 as [G1 G2]. by rewrite G1.
    + destruct H3 as (G1 & G2 & G3 & G4 & G5). rewrite G1. done.
  - unfold Handle_recv_reader.
    destruct (reader w) as [|e|] eqn:Er; try discriminate.
    destruct H as [H1 H2 H3]. unfold handle_inv in H3.
    assert (Q2 : reader_error (tr ++ [AHandleRecvReader])
                 = reader_error tr).
    { rewrite reader_error_snoc. by destruct (reader_error tr). }
    destruct (handler w) eqn:Eh; try discriminate; intros [= <-].
    + destruct (Handle_stop_writer_fields (set_reader RExited w))
        as (_ & _ & _ & _ & _ & _ & _ & _ & S9 & S10 & _ & S12 & S13).
      destruct H3 as [G1 G2].
      split.
      * cbn. rewrite S10. cbn. discriminate.
      * intros e0. cbn. rewrite S10. cbn. discriminate.
      * unfold handle_inv. cbn. rewrite Handle_branch_snoc, G1, Q2. cbn.
        split_and!; try done; [by rewrite (H2 e Er)|by exists e].
    + destruct H3 as [G1 G2].
      split; [done|done|].
      unfold handle_inv. cbn. rewrite Handle_branch_snoc, G1. done.
    + destruct H3 as (G1 & G2 & G3 & G4).
      split; [done|done|].
      unfold handle_inv. cbn. rewrite Handle_branch_snoc, G1. done.
  - destruct (handler w) eqn:Eh; try discriminate. intros [= <-].
    destruct H as [H1 H2 H3]. unfold handle_inv in H3. rewrite Eh in H3.
    destruct (clear_loop_writer (writerQueue (conn w)) w) as (_ & C2 & _).
    destruct (clear_loop_frame (writerQueue (conn w)) w)
      as (C4 & _ & _ & _).
    pose proof (clear_loop_reader (writerQueue (conn w)) w) as C5.
    fold (clearPendingWrites w) in C2, C4, C5.
    destruct (quiet_snoc tr AHandleClear eq_refl eq_refl) as [Q1 Q2].
    split.
    + cbn. rewrite C5, Q2. done.
    + intros e0. cbn. rewrite C5, Q2. apply H2.
    + unfold handle_inv. cbn. rewrite C2, C4, C5, Q1, Q2. done.
Qed.

Lemma run_hinv c tr : forall w,
  run tr (start c) = Some w -> hinv tr w.
Proof.
  induction tr as [|a tr IH] using rev_ind; intros w.
  - intros [= <-]. split; cbn; try done.
  - rewrite run_snoc. destruct (run tr (start c)) as [w1|] eqn:E; [|done].
    intros Hs. apply (hinv_step tr a w1); [|by apply IH|done].
    apply (reachable_inv c), (run_reachable c tr (start c)); [constructor|done].
Qed.

(** [Handle] returns only after it has received the result of both loops,
    and what it returns is decided by the case of the [select] it took:
    [nil] when, and only when, it was cancelled through [done]; what
    [writeLoop] returned, which is then an error, when it received the
    writer's result first; the error [readLoop] returned when it received the
    reader's result first. So the write loop's error is dropped in the first
    and the last case, and [Handle] returns with the writer-done flag unset
    exactly in the second. *)
Theorem Handle_returns_nil_iff_cancelled (c : Conn) (tr : list action)
    (w : World) (err : option error) :
  run tr (start c) = Some w -> handler w = HReturned err ->
  reader w = RExited /\ (exists e, writer w = WExited e)
  /\ (err = None <-> Handle_branch tr = Some BranchDone)
  /\ (writerDone (conn w) = false <-> Handle_branch tr = Some BranchWriter)
  /\ match Handle_branch tr with
     | Some BranchDone => err = None
     | Some BranchWriter => writer w = WExited err /\ exists e, err = Some e
     | Some BranchReader => err = reader_error tr /\ exists e, err = Some e
     | None => False
     end.
Proof.
  intros Hrun Hh.
  assert (R : reachable c w)
    by (apply (run_reachable c tr (start c)); [constructor|done]).
  pose proof (reachable_inv c w R) as I.
  destruct (run_hinv c tr w Hrun) as [H1 H2 H3].
  unfold handle_inv in H3. rewrite Hh in H3. destruct H3 as [G1 G2].
  split; [done|]. split; [apply (inv_joined w I); by rewrite Hh|].
  destruct (Handle_branch tr) as [[| |]|]; [| | |done].
  - destruct G2 as [-> G2]. split; [done|]. split; [|done].
    split; [intros Hd; congruence|discriminate].
  - destruct G2 as (G2 & [e ->] & G3). split; [split; discriminate|].
    split; [done|]. split; [done|by exists e].
  - destruct G2 as (G2 & [e He] & G3). split; [split; congruence|].
    split; [split; [intros Hd; congruence|discriminate]|].
    split; [done|by exists e].
Qed.

End HandleResult.

(** * Runs for the further properties *)

Module MoreExamples.
Import Go.

(** The writer finds the queue empty and parks. *)
Definition trace_parked : list Conn.action := [Conn.AWriterLock].

(** The reader fails and [Handle] receives its result first; the writer,
    woken with a buffer queued, then fails too; [Handle] joins it and
    returns. *)
Definition trace_reader_branch : list Conn.action :=
  [Conn.AWriteNoWait None Examples.hello;
   Conn.AReaderRead (Some Examples.read_failed); Conn.AHandleRecvReader;
   Conn.AWriterLock; Conn.AWriterRange (Some Examples.write_failed);
   Conn.AWriterFlush None; Conn.AHandleRecvWriter; Conn.AHandleClear].

(** Cancellation, then a [Write]. *)
Definition trace_write_after_done : list Conn.action :=
  [Conn.AWrite None Examples.hello].

(** A 128-byte buffer; [Read] returns 100, then 120 (more than it was
    given), then 200. *)
Definition reads_beyond : list (Z * option error) :=
  [(100, None); (120, None); (200, None)].

(** A read of 40 bytes, one of none, one of none, then an error. *)
Definition reads_zero : list (Z * option error) :=
  [(40, None); (0, None); (0, None); (0, Some Examples.read_failed)].

(** The listener reports the end of the stream. *)
Definition eof_error : Server.accept_error :=
  Server.mkAcceptError (io_error 0) true None.

(** One connection admitted, its [client] returned; a second admitted. *)
Definition trace_client_returned : list Server.action :=
  [Server.AServe; Server.AAccept None; Server.ASelect Server.CaseSem;
   Server.ASpawn;
   Server.AClientReturn 0 (Server.mkClientEnv None None None None);
   Server.AAccept None; Server.ASelect Server.CaseSem; Server.ASpawn].


End MoreExamples.

Section MoreRuns.
Import Go.


Lemma blocked_caller_counter_witness :
  Conn.reachable Examples.conn0 (Examples.after Examples.trace_failed_write)
  /\ Forall (fun x => 0 <= Conn.wg x)
       (Conn.heap (Examples.after Examples.trace_failed_write)).
Proof.
  assert (R : Conn.reachable Examples.conn0
                (Examples.after Examples.trace_failed_write))
    by (apply (after_reachable Examples.trace_failed_write);
        vm_compute; reflexivity).
  split; [exact R|].
  destruct (blocked_caller_counter Examples.conn0 _ R) as [H _]. exact H.
Defined.

Lemma writeLoop_returns_nil_only_drained_witness :
  Conn.reachable Examples.conn0 (Examples.after Examples.trace_two_writes)
  /\ Conn.writer (Examples.after Examples.trace_two_writes)
     = Conn.WExited None
  /\ Conn.accepted (Examples.after Examples.trace_two_writes)
     = Conn.writes (Conn.stream (Examples.after Examples.trace_two_writes)).
Proof.
  assert (R : Conn.reachable Examples.conn0
                (Examples.after Examples.trace_two_writes))
    by (apply (after_reachable Examples.trace_two_writes);
        vm_compute; reflexivity).
  split; [exact R|]. split; [vm_compute; reflexivity|].
  destruct (writeLoop_returns_nil_only_drained Examples.conn0 _ R)
    as (_ & _ & H & _); [right; vm_compute; reflexivity|exact H].
Defined.

Lemma writerDone_is_final_witness :
  Conn.writerDone (Conn.conn (Examples.after [Conn.AHandleDone])) = true
  /\ is_Some (Conn.run MoreExamples.trace_write_after_done
                (Examples.after [Conn.AHandleDone]))
  /\ Conn.accepted
       (Examples.after (Conn.AHandleDone
                        :: MoreExamples.trace_write_after_done))
     = [].
Proof.
  split; [vm_compute; reflexivity|]. split; [vm_compute; eauto|].
  destruct (writerDone_is_final MoreExamples.trace_write_after_done
              (Examples.after [Conn.AHandleDone])
              (Examples.after (Conn.AHandleDone
                               :: MoreExamples.trace_write_after_done)))
    as (_ & H & _).
  - vm_compute. reflexivity.
  - vm_compute. reflexivity.
  - rewrite H. vm_compute. reflexivity.
Defined.

Lemma writer_parked_only_when_idle_witness :
  Conn.reachable Examples.conn0 (Examples.after MoreExamples.trace_parked)
  /\ Conn.writer (Examples.after MoreExamples.trace_parked) = Conn.WParked
  /\ Conn.writerQueue (Conn.conn (Examples.after MoreExamples.trace_parked))
     = [].
Proof.
  assert (R : Conn.reachable Examples.conn0
                (Examples.after MoreExamples.trace_parked))
    by (apply (after_reachable MoreExamples.trace_parked);
        vm_compute; reflexivity).
  split; [exact R|]. split; [vm_compute; reflexivity|].
  destruct (writer_parked_only_when_idle Examples.conn0 _ R) as [H _].
  destruct H as [H _]; [vm_compute; reflexivity|exact H].
Defined.

Lemma stream_calls_well_formed_witness :
  Conn.reachable Examples.conn0 (Examples.after Examples.trace_writer_branch)
  /\ writer_joined
       (Conn.handler (Examples.after Examples.trace_writer_branch)) = true
  /\ last (Conn.stream (Examples.after Examples.trace_writer_branch))
     = Some Conn.CallClose.
Proof.
  assert (R : Conn.reachable Examples.conn0
                (Examples.after Examples.trace_writer_branch))
    by (apply (after_reachable Examples.trace_writer_branch);
        vm_compute; reflexivity).
  split; [exact R|]. split; [vm_compute; reflexivity|].
  destruct (stream_calls_well_formed Examples.conn0 _ R)
    as (_ & _ & H & _).
  apply H. vm_compute. reflexivity.
Defined.

Lemma readLoop_buffer_within_capacity_witness :
  Conn.readLoop_from MoreExamples.reads_beyond (Conn.mkSlice 128 128)
  = ([128; 100; 120], Conn.ReadPanic)
  /\ Forall (fun l => 0 <= l <= 128) [128; 100; 120].
Proof.
  split; [vm_compute; reflexivity|].
  destruct (readLoop_buffer_within_capacity (Conn.mkSlice 128 128)
              MoreExamples.reads_beyond [128; 100; 120] Conn.ReadPanic)
    as [H _].
  - vm_compute. reflexivity.
  - cbn. lia.
  - exact H.
Defined.


Lemma readLoop_empty_after_zero_read_witness :
  Conn.readLoop 4096 Examples.conn0 MoreExamples.reads_zero
  = ([4096; 40; 0; 0], Conn.ReadReturn Examples.read_failed)
  /\ MoreExamples.reads_zero !! 1%nat = Some (0, None)
  /\ forall l, [4096; 40; 0; 0] !! 3%nat = Some l -> l = 0.
Proof.
  split; [vm_compute; reflexivity|]. split; [reflexivity|].
  intros l.
  apply (readLoop_empty_after_zero_read 4096 Examples.conn0
           MoreExamples.reads_zero [4096; 40; 0; 0]
           (Conn.ReadReturn Examples.read_failed) 1%nat).
  - vm_compute. reflexivity.
  - intros k n e l0 Hr Hl.
    do 4 (destruct k as [|k]; [cbn in Hr, Hl; injection Hr as <- <-;
                               injection Hl as <-; lia|]).
    discriminate.
  - reflexivity.
  - lia.
Defined.

Lemma sequence_numbers_cycle_witness :
  0 <= Conn.seq Examples.conn0 < 2 ^ 32
  /\ Conn.issue 3 Examples.conn0 !! 2%nat = Some 3.
Proof.
  assert (H0 : 0 <= Conn.seq Examples.conn0 < 2 ^ 32) by (cbn; lia).
  split; [exact H0|].
  destruct (sequence_numbers_cycle Examples.conn0 3 2 H0) as [H _].
  apply H; [reflexivity|lia|lia].
Defined.

Lemma accepted_streams_closed_exactly_once_witness :
  Server.fresh ServerExamples.server2
  /\ Server.reachable ServerExamples.server2
       (ServerExamples.after MoreExamples.trace_client_returned)
  /\ NoDup (Server.closed
              (ServerExamples.after MoreExamples.trace_client_returned))
  /\ NoDup (Server.tasks
              (ServerExamples.after MoreExamples.trace_client_returned)).*1.
Proof.
  assert (F : Server.fresh ServerExamples.server2) by (by repeat split).
  assert (R : Server.reachable ServerExamples.server2
                (ServerExamples.after MoreExamples.trace_client_returned))
    by (apply (server_after_reachable MoreExamples.trace_client_returned);
        vm_compute; reflexivity).
  split; [exact F|]. split; [exact R|].
  destruct (accepted_streams_closed_exactly_once ServerExamples.server2 _
              F R) as (H1 & H2 & _).
  split; [exact H1|exact H2].
Defined.

Lemma admitted_at_once_below_limit_witness :
  Server.serve (ServerExamples.after [Server.AServe; Server.AAccept None])
  = Server.SSelect 0
  /\ exists w',
       Server.exec (Server.ASelect Server.CaseDone)
         (ServerExamples.after [Server.AServe; Server.AAccept None])
       = Some w'
       /\ Server.serve w' = Server.SSpawn 0.
Proof.
  split; [vm_compute; reflexivity|].
  destruct (admitted_at_once_below_limit ServerExamples.server2
              (ServerExamples.after [Server.AServe; Server.AAccept None])
              0%nat Server.CaseDone) as (_ & _ & w' & H1 & H2 & _).
  - by repeat split.
  - apply (server_after_reachable [Server.AServe; Server.AAccept None]).
    vm_compute. reflexivity.
  - vm_compute. reflexivity.
  - vm_compute. reflexivity.
  - vm_compute. reflexivity.
  - exists w'. split; [exact H1|]. apply H2. vm_compute. reflexivity.
Defined.

Lemma Shutdown_leaves_Serve_accepting_witness :
  Server.serve (ServerExamples.after [Server.AServe; Server.AShutdown])
  = Server.SAccept
  /\ exists w',
       Server.exec (Server.AAccept None)
         (ServerExamples.after [Server.AServe; Server.AShutdown])
       = Some w'
       /\ Server.serve w' = Server.SSelect 0.
Proof.
  split; [vm_compute; reflexivity|].
  destruct (Shutdown_leaves_Serve_accepting ServerExamples.server2
              (ServerExamples.after [Server.AServe; Server.AShutdown]))
    as (_ & H & _).
  - by repeat split.
  - apply (server_after_reachable [Server.AServe; Server.AShutdown]).
    vm_compute. reflexivity.
  - vm_compute. reflexivity.
  - vm_compute. lia.
  - apply H. vm_compute. reflexivity.
Defined.

Lemma Serve_returned_is_final_witness :
  Server.serve
    (ServerExamples.after
       [Server.AServe; Server.AAccept (Some MoreExamples.eof_error)])
  = Server.SReturned None
  /\ Server.serve
       (ServerExamples.after
          [Server.AServe; Server.AAccept (Some MoreExamples.eof_error);
           Server.AShutdown; Server.AShutdownReturn])
     = Server.SReturned None.
Proof.
  split; [vm_compute; reflexivity|].
  destruct (Serve_returned_is_final
              [Server.AShutdown; Server.AShutdownReturn]
              (ServerExamples.after
                 [Server.AServe;
                  Server.AAccept (Some MoreExamples.eof_error)])
              (ServerExamples.after
                 [Server.AServe;
                  Server.AAccept (Some MoreExamples.eof_error);
                  Server.AShutdown; Server.AShutdownReturn])
              None) as [H _].
  - vm_compute. reflexivity.
  - vm_compute. reflexivity.
  - exact H.
Defined.


Lemma Handle_returns_nil_iff_cancelled_witness :
  Conn.run MoreExamples.trace_reader_branch (Conn.start Examples.conn0)
  = Some (Examples.after MoreExamples.trace_reader_branch)
  /\ Conn.handler (Examples.after MoreExamples.trace_reader_branch)
     = Conn.HReturned (Some Examples.read_failed)
  /\ Conn.writer (Examples.after MoreExamples.trace_reader_branch)
     = Conn.WExited (Some Examples.write_failed)
  /\ Some Examples.read_failed
     = reader_error MoreExamples.trace_reader_branch.
Proof.
  split; [vm_compute; reflexivity|]. split; [vm_compute; reflexivity|].
  split; [vm_compute; reflexivity|].
  destruct (Handle_returns_nil_iff_cancelled Examples.conn0
              MoreExamples.trace_reader_branch
              (Examples.after MoreExamples.trace_reader_branch)
              (Some Examples.read_failed)) as (_ & _ & _ & _ & H).
  - vm_compute. reflexivity.
  - vm_compute. reflexivity.
  - destruct H as [H _]. exact H.
Defined.

End MoreRuns.
